(** * transl8-ai: translation trees, diffing, reconciliation and the
      translation orchestrator

    A shallow embedding of the tree utilities ([flattenKeys],
    [getValueAtPath], [countLeafKeys], [reorderToMatchSource], the key
    classifier helpers and [similarityScore]), of the analyzer
    ([compareTranslations]) and of the translator ([translateBatch],
    [translateDescriptionWithLinks], the classification done by
    [translateMissingKeys]), with the properties of the specification
    stated and settled against them. *)

From Stdlib Require Import ZArith QArith String Ascii List Bool Lia.
From Stdlib Require Import DecimalString DecimalNat.
From stdpp Require Import base list strings gmap.
Import ListNotations.

Local Open Scope string_scope.
Local Open Scope list_scope.

(** ** JSON values

    A translation file is whatever [JSON.parse] returns.  The TypeScript
    type [TranslationFile] promises string leaves and nested mappings, but
    the code tests [typeof], [null] and [Array.isArray] at run time, so the
    model keeps every JSON shape.  An object is the list of its own
    properties in enumeration order ([Object.keys] order: keys that are
    array indices first, in ascending order, then the others as inserted);
    the keys of one object are pairwise distinct (see [keys_distinct]).
    Assigning the keys of such a list to a fresh object in list order
    yields an object that enumerates in the same order. *)

#[local] Unset Elimination Schemes.
Inductive JV : Type :=
| JNull
| JBool (b : bool)
| JNum (n : Z)
| JStr (s : string)
| JArr (items : list JV)
| JObj (props : list (string * JV)).
#[local] Set Elimination Schemes.

(** [typeof v === "object" && v !== null] *)
Definition is_object (v : JV) : bool :=
  match v with
  | JArr _ | JObj _ => true
  | _ => false
  end.

(** [Array.isArray(v)] *)
Definition isArray (v : JV) : bool :=
  match v with
  | JArr _ => true
  | _ => false
  end.

(** [typeof v === "string"] *)
Definition is_string (v : JV) : bool :=
  match v with
  | JStr _ => true
  | _ => false
  end.

(** [String(i)] for an array index: its decimal numeral. *)
Definition index_key (i : nat) : string :=
  NilEmpty.string_of_uint (Nat.to_uint i).

(** The own enumerable properties of the elements of an array, from index
    [i] on. *)
Fixpoint index_entries (i : nat) (items : list JV) : list (string * JV) :=
  match items with
  | [] => []
  | x :: rest => (index_key i, x) :: index_entries (S i) rest
  end.

(** [Object.entries(v)] for a container.  The code never enumerates a
    primitive: every recursive call is guarded by [is_object]. *)
Definition own_entries (v : JV) : list (string * JV) :=
  match v with
  | JObj props => props
  | JArr items => index_entries 0 items
  | _ => []
  end.

(** [Object.keys(v)] *)
Definition own_keys (v : JV) : list string := map fst (own_entries v).

(** First binding of [key] in a property list. *)
Fixpoint assoc (key : string) (props : list (string * JV)) : option JV :=
  match props with
  | [] => None
  | (k, x) :: rest => if String.eqb key k then Some x else assoc key rest
  end.

(** [v[key]] on a container, with [None] for [undefined]: the own property
    of that name, and the ["length"] of an array.  Where [v] has no own
    property [key], the engine goes on to the prototype chain, and finds a
    member there when [key] is one of the names of [inherited_name] below:
    a function, or for [__proto__] the prototype itself, none of which is a
    JSON value.  [get_prop] is [v[key]] for every other key, and for every
    key that [v] owns; the statements that read a key which [v] may lack
    say that the key is no such name ([own_names], [own_segments]). *)
Definition get_prop (v : JV) (key : string) : option JV :=
  match assoc key (own_entries v) with
  | Some x => Some x
  | None =>
      match v with
      | JArr items =>
          if String.eqb key "length" then Some (JNum (Z.of_nat (List.length items)))
          else None
      | _ => None
      end
  end.

(** ** Names found on the prototype chain

    The string-named properties of [Object.prototype], which every object
    and array inherits, and those that [Array.prototype] adds for arrays
    (ECMAScript 2025 with its Annex B; [length] is an own property of every
    array and is answered by [get_prop]). *)
Definition object_prototype_names : list string :=
  ["__defineGetter__"; "__defineSetter__"; "__lookupGetter__"; "__lookupSetter__";
   "__proto__"; "constructor"; "hasOwnProperty"; "isPrototypeOf";
   "propertyIsEnumerable"; "toLocaleString"; "toString"; "valueOf"].

Definition array_prototype_names : list string :=
  ["at"; "concat"; "copyWithin"; "entries"; "every"; "fill"; "filter"; "find";
   "findIndex"; "findLast"; "findLastIndex"; "flat"; "flatMap"; "forEach";
   "includes"; "indexOf"; "join"; "keys"; "lastIndexOf"; "map"; "pop"; "push";
   "reduce"; "reduceRight"; "reverse"; "shift"; "slice"; "some"; "sort";
   "splice"; "toReversed"; "toSorted"; "toSpliced"; "unshift"; "values"; "with"].

(** [key] names a member that a plain object inherits. *)
Definition object_inherited (key : string) : bool :=
  existsb (String.eqb key) object_prototype_names.

(** [key] names a member that an object or an array inherits. *)
Definition inherited_name (key : string) : bool :=
  object_inherited key || existsb (String.eqb key) array_prototype_names.

(** No key of a mapping of the tree, at any depth, is an inherited name:
    looking one of its keys up in any container finds an own property or
    nothing. *)
Fixpoint own_names (v : JV) : bool :=
  match v with
  | JObj props =>
      (fix each (props : list (string * JV)) : bool :=
         match props with
         | [] => true
         | (k, x) :: rest => negb (inherited_name k) && own_names x && each rest
         end) props
  | JArr items =>
      (fix each (items : list JV) : bool :=
         match items with
         | [] => true
         | x :: rest => own_names x && each rest
         end) items
  | _ => true
  end.

(** ** Tree model *)

(** [prefix ? `${prefix}.${key}` : key] *)
Definition join_path (prefix key : string) : string :=
  if String.eqb prefix "" then key else prefix +:+ "." +:+ key.

(** The body of the loop of [flattenKeys] for one property, given the
    function to call on a nested container. *)
Definition flatten_visit (rec : JV -> string -> list string)
    (prefix key : string) (value : JV) : list string :=
  let fullPath := join_path prefix key in
  if is_object value then rec value fullPath else [fullPath].

Fixpoint flattenKeys (obj : JV) (prefix : string) : list string :=
  match obj with
  | JObj props =>
      (fix each (props : list (string * JV)) : list string :=
         match props with
         | [] => []
         | (key, value) :: rest =>
             flatten_visit flattenKeys prefix key value ++ each rest
         end) props
  | JArr items =>
      (fix each (i : nat) (items : list JV) : list string :=
         match items with
         | [] => []
         | value :: rest =>
             flatten_visit flattenKeys prefix (index_key i) value
               ++ each (S i) rest
         end) 0 items
  | _ => []
  end.

(** The body of the loop of [countLeafKeys] for one value. *)
Definition count_visit (rec : JV -> nat) (value : JV) : nat :=
  if is_object value then rec value else 1.

Fixpoint countLeafKeys (obj : JV) : nat :=
  match obj with
  | JObj props =>
      (fix each (props : list (string * JV)) : nat :=
         match props with
         | [] => 0
         | (_, value) :: rest => count_visit countLeafKeys value + each rest
         end) props
  | JArr items =>
      (fix each (items : list JV) : nat :=
         match items with
         | [] => 0
         | value :: rest => count_visit countLeafKeys value + each rest
         end) items
  | _ => 0
  end.

(** [s.split(sep)] for a one-character separator: never empty, [[""]] on
    the empty string. *)
Fixpoint split_on (sep : ascii) (s : string) : list string :=
  match s with
  | EmptyString => [""]
  | String c rest =>
      if Ascii.eqb c sep then "" :: split_on sep rest
      else
        match split_on sep rest with
        | seg :: segs => String c seg :: segs
        | [] => [String c ""]
        end
  end.

(** [parts.join(sep)] *)
Fixpoint join_with (sep : string) (parts : list string) : string :=
  match parts with
  | [] => ""
  | [p] => p
  | p :: rest => p +:+ sep +:+ join_with sep rest
  end.

Definition dot : ascii := "."%char.

(** The loop of [getValueAtPath] over the segments of the key path, each
    step being [get_prop]: the lookup of the code for key paths whose
    segments are own properties where they exist ([own_segments] when a
    segment may be missing). *)
Fixpoint walk (current : JV) (parts : list string) : option JV :=
  match parts with
  | [] => Some current
  | part :: rest =>
      if is_object current then
        match get_prop current part with
        | Some next => walk next rest
        | None => None
        end
      else None
  end.

Definition getValueAtPath (obj : JV) (keyPath : string) : option JV :=
  walk obj (split_on dot keyPath).

(** No segment of the key path is an inherited name: the lookups along the
    path find own properties or nothing. *)
Definition own_segments (keyPath : string) : bool :=
  forallb (fun part => negb (inherited_name part)) (split_on dot keyPath).

(** [getParentSection]: [parts.slice(0, -1).join(".")] when there are at
    least two segments. *)
Definition getParentSection (keyPath : string) : string :=
  let parts := split_on dot keyPath in
  if (1 <? List.length parts)%nat then join_with "." (removelast parts) else "".

Inductive ValueType : Type := TString | TObject | TUndefined.

Definition ValueType_eqb (a b : ValueType) : bool :=
  match a, b with
  | TString, TString | TObject, TObject | TUndefined, TUndefined => true
  | _, _ => false
  end.

(** [getValueType]: every primitive other than [undefined] counts as a
    string ("fallback for other primitive types"), [null] included. *)
Definition getValueType (value : option JV) : ValueType :=
  match value with
  | None => TUndefined
  | Some (JStr _) => TString
  | Some v => if is_object v then TObject else TString
  end.

(** ** Structural reconciler *)

(** The element function of the [sourceVal.map] of [reorderToMatchSource]. *)
Definition merge_item (rec : JV -> JV -> JV) (sourceItem contentItem : JV) : JV :=
  if is_object sourceItem && is_object contentItem
  then rec sourceItem contentItem
  else contentItem.

(** [sourceVal.map((sourceItem, i) => ... contentVal[i] ...)], called only
    when both arrays have the same length, so that [contentVal[i]] is the
    element facing [sourceItem]. *)
Fixpoint merge_items (rec : JV -> JV -> JV) (sourceItems contentItems : list JV)
  : list JV :=
  match sourceItems, contentItems with
  | sourceItem :: srest, contentItem :: crest =>
      merge_item rec sourceItem contentItem :: merge_items rec srest crest
  | _, _ => []
  end.

(** What [reorderToMatchSource] assigns to [result[key]], from
    [sourceVal = source[key]] and [contentVal = content[key]]. *)
Definition merge_value (rec : JV -> JV -> JV) (sourceVal : JV)
    (contentVal : option JV) : JV :=
  match sourceVal with
  | JObj _ =>
      match contentVal with
      | Some (JObj cprops) => rec sourceVal (JObj cprops)
      | _ => sourceVal
      end
  | JArr sitems =>
      match contentVal with
      | Some (JArr citems) =>
          if (List.length citems =? List.length sitems)%nat
          then JArr (merge_items rec sitems citems)
          else sourceVal
      | _ => sourceVal
      end
  | _ =>
      match contentVal with
      | Some c => c
      | None => sourceVal
      end
  end.

(** [reorderToMatchSource]: the result is a fresh plain object that
    receives one property per key of [Object.keys(source)], in that order.
    The keys being distinct, each assignment appends a property.  This is
    the function on two containers, the keys of the source being no
    inherited names ([own_names]): [result["__proto__"] = ...] would reach
    the setter that the fresh object inherits and create no property,
    [content[key]] would find the inherited member where the content lacks
    such a key, and [Object.keys(null)] and [null[key]] throw. *)
Fixpoint reorderToMatchSource (source content : JV) {struct source} : JV :=
  match source with
  | JObj props =>
      JObj
        ((fix each (props : list (string * JV)) : list (string * JV) :=
            match props with
            | [] => []
            | (key, sourceVal) :: rest =>
                (key, merge_value reorderToMatchSource sourceVal
                        (get_prop content key)) :: each rest
            end) props)
  | JArr elems =>
      JObj
        ((fix each (i : nat) (elems : list JV) : list (string * JV) :=
            match elems with
            | [] => []
            | sourceVal :: rest =>
                (index_key i, merge_value reorderToMatchSource sourceVal
                                (get_prop content (index_key i)))
                  :: each (S i) rest
            end) 0 elems)
  | _ => JObj []
  end.

(** ** Diff engine (analyzer) *)

Record TypeMismatch : Type := mkTypeMismatch {
  path : string;
  sourceType : ValueType;
  targetType : ValueType
}.

Record Summary : Type := mkSummary {
  totalKeysInSource : nat;
  totalKeysInTarget : nat;
  missingCount : nat;
  extraCount : nat;
  typeMismatchCount : nat
}.

Record DiscrepancyReport : Type := mkReport {
  missingInTarget : list string;
  extraInTarget : list string;
  typeMismatches : list TypeMismatch;
  summary : Summary
}.

(** [new Set(keys)] and [set.has(key)] *)
Definition key_set (keys : list string) : gset string := list_to_set keys.

Definition has (s : gset string) (key : string) : bool := bool_decide (key ∈ s).

(** The body of the type-mismatch loop of [compareTranslations] for one
    source key: the entries it pushes. *)
Definition mismatch_visit (source target : JV) (targetKeySet : gset string)
    (key : string) : list TypeMismatch :=
  if has targetKeySet key then
    let sourceValue := getValueAtPath source key in
    let targetValue := getValueAtPath target key in
    let sourceType := getValueType sourceValue in
    let targetType := getValueType targetValue in
    if negb (ValueType_eqb sourceType targetType)
       && negb (ValueType_eqb sourceType TUndefined)
       && negb (ValueType_eqb targetType TUndefined)
    then [mkTypeMismatch key sourceType targetType]
    else []
  else [].

Definition compareTranslations (source target : JV) : DiscrepancyReport :=
  let sourceKeys := flattenKeys source "" in
  let targetKeys := flattenKeys target "" in
  let sourceKeySet := key_set sourceKeys in
  let targetKeySet := key_set targetKeys in
  let missingInTarget := List.filter (fun key => negb (has targetKeySet key)) sourceKeys in
  let extraInTarget := List.filter (fun key => negb (has sourceKeySet key)) targetKeys in
  let typeMismatches := flat_map (mismatch_visit source target targetKeySet) sourceKeys in
  mkReport missingInTarget extraInTarget typeMismatches
    (mkSummary (List.length sourceKeys) (List.length targetKeys)
       (List.length missingInTarget) (List.length extraInTarget)
       (List.length typeMismatches)).

(** ** Content classifier *)

Record LinkedContentPattern : Type := mkPattern {
  descriptionPattern : string;
  linksKey : string;
  linkTextField : string;
  linkHrefField : string
}.

(** The part of [Transl8Config] the translator reads. *)
Record Transl8Config : Type := mkConfig {
  concurrency : nat;
  linkedContentPatterns : list LinkedContentPattern;
  hrefPatterns : list string
}.

(** [getConfig()] without an active configuration. *)
Definition defaultConfig : Transl8Config := mkConfig 50 [] ["*.href"].

(** [s.endsWith(suffix)] *)
Fixpoint endsWith (s suffix : string) : bool :=
  String.eqb s suffix
  || match s with
     | EmptyString => false
     | String _ rest => endsWith rest suffix
     end.

(** [pattern.replace(/^\*/, "")] *)
Definition strip_star (pattern : string) : string :=
  match pattern with
  | String c rest => if Ascii.eqb c "*"%char then rest else pattern
  | EmptyString => pattern
  end.

Definition isHrefKey (keyPath : string) (hrefPatterns : list string) : bool :=
  existsb (fun pattern => endsWith keyPath (strip_star pattern)) hrefPatterns.

(** [patterns.length > 0 ? patterns[0].linksKey : "links"] *)
Definition linksKey_of (patterns : list LinkedContentPattern) : string :=
  match patterns with
  | p :: _ => linksKey p
  | [] => "links"
  end.

(** [patterns.length > 0 ? patterns[0].linkTextField : "text"] *)
Definition textField_of (patterns : list LinkedContentPattern) : string :=
  match patterns with
  | p :: _ => linkTextField p
  | [] => "text"
  end.

Definition getDescriptionParentPath (keyPath : string)
    (patterns : list LinkedContentPattern) : option string :=
  match patterns with
  | [] =>
      if endsWith keyPath ".description" then Some (getParentSection keyPath)
      else None
  | _ =>
      if existsb (fun p => endsWith keyPath (strip_star (descriptionPattern p)))
           patterns
      then Some (getParentSection keyPath)
      else None
  end.

Definition sectionHasLinks (obj : JV) (parentPath : string)
    (patterns : list LinkedContentPattern) : bool :=
  match getValueAtPath obj parentPath with
  | Some parent =>
      is_object parent
      && match get_prop parent (linksKey_of patterns) with
         | Some (JArr links) =>
             (0 <? List.length links)%nat
             && forallb
                  (fun item =>
                     is_object item
                     && match get_prop item (textField_of patterns) with
                        | Some (JStr _) => true
                        | _ => false
                        end)
                  links
         | _ => false
         end
  | None => false
  end.

Definition getLinkTextKeyPaths (parentPath : string) (linksCount : nat)
    (patterns : list LinkedContentPattern) : list string :=
  map
    (fun i =>
       parentPath +:+ "." +:+ linksKey_of patterns +:+ "." +:+ index_key i
         +:+ "." +:+ textField_of patterns)
    (seq 0 linksCount).

Definition getLinkTextsFromSection (obj : JV) (parentPath : string)
    (patterns : list LinkedContentPattern) : list string :=
  match getValueAtPath obj parentPath with
  | Some parent =>
      if is_object parent then
        match get_prop parent (linksKey_of patterns) with
        | Some (JArr links) =>
            flat_map
              (fun item =>
                 if is_object item then
                   match get_prop item (textField_of patterns) with
                   | Some (JStr t) => [t]
                   | _ => []
                   end
                 else [])
              links
        | _ => []
        end
      else []
  | None => []
  end.

(** The groups [translateMissingKeys] computes from the string keys. *)
Record Classification : Type := mkClassification {
  hrefKeys : list string;
  descriptionKeysWithLinks : list string;
  linkTextKeysToSkip : gset string;
  normalKeys : list string
}.

(** [parentPath && sectionHasLinks(englishFile, parentPath, patterns)]:
    the empty parent path is falsy. *)
Definition hasLinkedSection (englishFile : JV)
    (patterns : list LinkedContentPattern) (key : string) : bool :=
  match getDescriptionParentPath key patterns with
  | Some parentPath =>
      negb (String.eqb parentPath "")
      && sectionHasLinks englishFile parentPath patterns
  | None => false
  end.

(** The link-text key paths one description key adds to
    [linkTextKeysToSkip]. *)
Definition skipped_for (englishFile : JV)
    (patterns : list LinkedContentPattern) (descKey : string) : list string :=
  match getDescriptionParentPath descKey patterns with
  | Some parentPath =>
      match getValueAtPath englishFile parentPath with
      | Some parent =>
          match get_prop parent (linksKey_of patterns) with
          | Some (JArr links) =>
              getLinkTextKeyPaths parentPath (List.length links) patterns
          | _ => []
          end
      | None => []
      end
  | None => []
  end.

Definition stringKeys_of (englishFile : JV) (missingKeys : list string)
  : list string :=
  List.filter
    (fun key =>
       match getValueAtPath englishFile key with
       | Some v => is_string v
       | None => false
       end)
    missingKeys.

Definition classify (config : Transl8Config) (englishFile : JV)
    (stringKeys : list string) : Classification :=
  let patterns := linkedContentPatterns config in
  let hrefKeys := List.filter (fun key => isHrefKey key (hrefPatterns config)) stringKeys in
  let descriptionKeysWithLinks :=
    List.filter (hasLinkedSection englishFile patterns) stringKeys in
  let linkTextKeysToSkip : gset string :=
    list_to_set (flat_map (skipped_for englishFile patterns) descriptionKeysWithLinks) in
  let normalKeys :=
    List.filter
      (fun key =>
         negb (isHrefKey key (hrefPatterns config))
         && negb (bool_decide (key ∈ descriptionKeysWithLinks))
         && negb (has linkTextKeysToSkip key))
      stringKeys in
  mkClassification hrefKeys descriptionKeysWithLinks linkTextKeysToSkip normalKeys.

(** ** Translator *)

(** The fields of [TranslationContext] the orchestrator reads. *)
Record TranslationContext : Type := mkContext {
  ctx_key : string;
  englishValue : string;
  parentSection : string
}.

(** [translatedValue] is typed [string] in the source, but
    [translateDescriptionWithLinks] stores [parsed.linkTexts[i]] unchecked,
    which is any JSON value. *)
Record TranslationResult : Type := mkResult {
  key : string;
  originalValue : string;
  translatedValue : JV;
  targetLanguage : string
}.

(** What one call of [translateString] settles to: the provider's answer
    after [cleanupTranslation], or a rejection (the provider call threw).
    The provider is external; its answer is an input of the model. *)
Inductive CallOutcome : Type :=
| Fulfilled (translated : string)
| Rejected.

(** [translateString]: the result it builds from its context. *)
Definition translateString (context : TranslationContext) (code : string)
    (answer : CallOutcome) : option TranslationResult :=
  match answer with
  | Fulfilled translated =>
      Some (mkResult (ctx_key context) (englishValue context) (JStr translated) code)
  | Rejected => None
  end.

(** What [JSON.parse(raw)] does on the provider's response. *)
Inductive ParseOutcome : Type :=
| ParseThrows
| Parsed (value : JV).

(** The results pushed for [parsed.linkTexts]: one per index below both
    lengths. *)
Fixpoint link_results (parentPath links textField code : string) (i : nat)
    (linkTexts : list string) (translated : list JV) : list TranslationResult :=
  match linkTexts, translated with
  | original :: lrest, t :: trest =>
      mkResult
        (parentPath +:+ "." +:+ links +:+ "." +:+ index_key i +:+ "." +:+ textField)
        original t code
        :: link_results parentPath links textField code (S i) lrest trest
  | _, _ => []
  end.

(** The [try] block of [translateDescriptionWithLinks] on a value that is
    not [null]. *)
Definition structured_results (patterns : list LinkedContentPattern)
    (descriptionKey description : string) (linkTexts : list string)
    (code : string) (parsed : JV) : list TranslationResult :=
  match get_prop parsed "description" with
  | Some (JStr d) => [mkResult descriptionKey description (JStr d) code]
  | _ => []
  end
  ++ match get_prop parsed "linkTexts" with
     | Some (JArr translated) =>
         link_results (getParentSection descriptionKey) (linksKey_of patterns)
           (textField_of patterns) code 0 linkTexts translated
     | _ => []
     end.

(** [translateDescriptionWithLinks], from the provider's response on.
    [fallback] is what the [translateString] call of the [catch] block
    settles to; [None] is a rejected promise.  Reading a property of [null]
    throws inside the [try] block, before anything is pushed. *)
Definition translateDescriptionWithLinks (patterns : list LinkedContentPattern)
    (descriptionKey description : string) (linkTexts : list string)
    (code : string) (response : ParseOutcome) (fallback : CallOutcome)
  : option (list TranslationResult) :=
  let caught :=
    match translateString
            (mkContext descriptionKey description (getParentSection descriptionKey))
            code fallback with
    | Some r => Some [r]
    | None => None
    end in
  match response with
  | ParseThrows => caught
  | Parsed JNull => caught
  | Parsed parsed =>
      Some (structured_results patterns descriptionKey description linkTexts code parsed)
  end.

(** *** The bounded pool of [translateBatch]

    The promise machinery is a transition system: a state holds the
    counters and the positional [results] array of the closure, the calls
    in flight, and the value the promise was resolved with.  A step is the
    settlement of one call in flight, in any order. *)

Record Pool : Type := mkPool {
  completed : nat;
  running : nat;
  index : nat;
  results : list (option TranslationResult);
  inflight : list nat;
  progress : list (nat * nat);
  resolved : option (list (option TranslationResult))
}.

Section TranslateBatch.
Variable contexts : list TranslationContext.
Variable code : string.
Variable cap : nat.
(** The provider's answer to the call made for each input position. *)
Variable answer : nat -> CallOutcome.

(** [new Array(contexts.length)], nothing started. *)
Definition pool_start : Pool :=
  mkPool 0 0 0 (replicate (List.length contexts) None) [] [] None.

(** One turn of the [while] loop of [runNext]. *)
Definition dispatch (st : Pool) : Pool :=
  mkPool (completed st) (S (running st)) (S (index st)) (results st)
    (inflight st ++ [index st]) (progress st) (resolved st).

Fixpoint runNext_loop (fuel : nat) (st : Pool) : Pool :=
  match fuel with
  | O => st
  | S fuel' =>
      if (running st <? cap)%nat && (index st <? List.length contexts)%nat
      then runNext_loop fuel' (dispatch st)
      else st
  end.

(** [runNext]: every turn of the loop advances [index], so
    [contexts.length - index] turns exhaust it. *)
Definition runNext (st : Pool) : Pool :=
  runNext_loop (List.length contexts - index st) st.

(** The [.catch] handler: the fallback entry. *)
Definition fallback_result (context : TranslationContext) : TranslationResult :=
  mkResult (ctx_key context) (englishValue context)
    (JStr (englishValue context)) code.

(** What is stored at [results[currentIndex]] when the call settles. *)
Definition settled_result (currentIndex : nat) : option TranslationResult :=
  match contexts !! currentIndex with
  | Some context =>
      match translateString context code (answer currentIndex) with
      | Some result => Some result
      | None => Some (fallback_result context)
      end
  | None => None
  end.

(** The [.then]/[.catch]/[.finally] chain of the call at
    [currentIndex]. *)
Definition settle (currentIndex : nat) (st : Pool) : Pool :=
  let results' := <[currentIndex := settled_result currentIndex]> (results st) in
  let running' := pred (running st) in
  let completed' := S (completed st) in
  let progress' := progress st ++ [(completed', List.length contexts)] in
  let inflight' := List.filter (fun j => negb (Nat.eqb j currentIndex)) (inflight st) in
  if (completed' =? List.length contexts)%nat
  then mkPool completed' running' (index st) results' inflight' progress'
         (match resolved st with
          | Some r => Some r
          | None => Some results'
          end)
  else runNext
         (mkPool completed' running' (index st) results' inflight' progress'
            (resolved st)).

(** The state when [translateBatch] returns its promise. *)
Definition pool_init : Pool := runNext pool_start.

Inductive pool_step : Pool -> Pool -> Prop :=
| step_settle (st : Pool) (currentIndex : nat) :
    In currentIndex (inflight st) ->
    pool_step st (settle currentIndex st).

Inductive pool_steps : nat -> Pool -> Pool -> Prop :=
| steps_refl (st : Pool) : pool_steps 0 st st
| steps_more (n : nat) (st st' st'' : Pool) :
    pool_step st st' -> pool_steps n st' st'' -> pool_steps (S n) st st''.

(** Running a given settlement order; a position that is not in flight
    cannot settle. *)
Fixpoint run_schedule (order : list nat) (st : Pool) : option Pool :=
  match order with
  | [] => Some st
  | currentIndex :: rest =>
      if bool_decide (currentIndex ∈ inflight st)
      then run_schedule rest (settle currentIndex st)
      else None
  end.

(** The entry the specification expects at position [i]. *)
Definition expected_result (i : nat) (context : TranslationContext)
  : TranslationResult :=
  match answer i with
  | Fulfilled translated =>
      mkResult (ctx_key context) (englishValue context) (JStr translated) code
  | Rejected =>
      mkResult (ctx_key context) (englishValue context)
        (JStr (englishValue context)) code
  end.
End TranslateBatch.

(** The result sequence the specification expects: one entry per context,
    in input order. *)
Definition expected_results (contexts : list TranslationContext) (code : string)
    (answer : nat -> CallOutcome) : list (option TranslationResult) :=
  imap (fun i context => Some (expected_result code answer i context)) contexts.

(** *** [translateMissingKeys] *)

(** How a promise ends. *)
Inductive Settlement (A : Type) : Type :=
| Resolves (a : A)
| Rejects
| NeverSettles.
Arguments Resolves {A} a.
Arguments Rejects {A}.
Arguments NeverSettles {A}.

(** What the promise returned by [translateBatch] settles to.  The pool
    resolves it at the last completion, whatever the order of the
    completions (theorem [translateBatch_pool_integrity]); nothing resolves
    it when no call is ever started. *)
Definition translateBatch_outcome (contexts : list TranslationContext)
    (code : string) (cap : nat) (answer : nat -> CallOutcome)
  : Settlement (list (option TranslationResult)) :=
  match contexts, cap with
  | [], _ => NeverSettles
  | _, O => NeverSettles
  | _, _ => Resolves (expected_results contexts code answer)
  end.

(** [getValueAtPath(englishFile, key) as string] *)
Definition string_at (englishFile : JV) (key : string) : string :=
  match getValueAtPath englishFile key with
  | Some (JStr s) => s
  | _ => ""
  end.

(** [buildTranslationContext], without the examples offered to the
    provider. *)
Definition buildTranslationContext (englishFile : JV) (keyPath : string)
  : TranslationContext :=
  mkContext keyPath (string_at englishFile keyPath) (getParentSection keyPath).

(** The pass-through results: the source value under both fields. *)
Definition passthrough_results (englishFile : JV) (code : string)
    (hrefKeys : list string) : list TranslationResult :=
  map
    (fun key =>
       mkResult key (string_at englishFile key)
         (JStr (string_at englishFile key)) code)
    hrefKeys.

(** The sequential loop over the description keys.  [provider key] is the
    parsed response to the joint request for [key] and the outcome of the
    fallback call; a rejected call rejects the whole run. *)
Fixpoint joint_results (patterns : list LinkedContentPattern) (englishFile : JV)
    (code : string) (provider : string -> ParseOutcome * CallOutcome)
    (descKeys : list string) : option (list TranslationResult) :=
  match descKeys with
  | [] => Some []
  | descKey :: rest =>
      let parentPath :=
        match getDescriptionParentPath descKey patterns with
        | Some p => p
        | None => ""
        end in
      match translateDescriptionWithLinks patterns descKey
              (string_at englishFile descKey)
              (getLinkTextsFromSection englishFile parentPath patterns)
              code (fst (provider descKey)) (snd (provider descKey)) with
      | Some combinedResults =>
          match joint_results patterns englishFile code provider rest with
          | Some more => Some (combinedResults ++ more)
          | None => None
          end
      | None => None
      end
  end.

(** [translateMissingKeys] without [dryRun], from the loaded source file
    on. *)
Definition translateMissingKeys (config : Transl8Config) (englishFile : JV)
    (missingKeys : list string) (code : string)
    (provider : string -> ParseOutcome * CallOutcome)
    (answer : nat -> CallOutcome)
  : Settlement (list (option TranslationResult)) :=
  let stringKeys := stringKeys_of englishFile missingKeys in
  match stringKeys with
  | [] => Resolves []
  | _ =>
      let groups := classify config englishFile stringKeys in
      let copied := passthrough_results englishFile code (hrefKeys groups) in
      match joint_results (linkedContentPatterns config) englishFile code
              provider (descriptionKeysWithLinks groups) with
      | None => Rejects
      | Some joint =>
          let contexts :=
            map (buildTranslationContext englishFile) (normalKeys groups) in
          match translateBatch_outcome contexts code (concurrency config) answer with
          | Resolves batchResults =>
              Resolves (map Some (copied ++ joint) ++ batchResults)
          | Rejects => Rejects
          | NeverSettles => NeverSettles
          end
      end
  end.

(** The keys of the results of a run. *)
Definition result_keys (rs : list (option TranslationResult)) : list string :=
  flat_map (fun r => match r with Some r => [key r] | None => [] end) rs.

(** ** Similarity index *)

(** [similarityScore]: the quotient of two integers, kept exact.  The
    JavaScript number is this rational rounded to the nearest double. *)
Definition overlap_count (a b : gset string) : nat :=
  List.length (List.filter (fun word => has b word) (elements a)).

Definition similarityScore (a b : gset string) : Q :=
  if (size a =? 0)%nat || (size b =? 0)%nat then 0%Q
  else
    let overlap := overlap_count a b in
    if (overlap =? 0)%nat then 0%Q
    else
      let union := (size a + size b - overlap)%nat in
      (Z.of_nat overlap # Pos.of_nat union)%Q.

(** ** Structural induction on JSON values *)

Section JV_induction.
Variable P : JV -> Prop.
Hypothesis Hnull : P JNull.
Hypothesis Hbool : forall b, P (JBool b).
Hypothesis Hnum : forall n, P (JNum n).
Hypothesis Hstr : forall s, P (JStr s).
Hypothesis Harr : forall items, Forall P items -> P (JArr items).
Hypothesis Hobj : forall props, Forall (fun kv => P (snd kv)) props -> P (JObj props).

Fixpoint JV_ind (v : JV) : P v :=
  match v with
  | JNull => Hnull
  | JBool b => Hbool b
  | JNum n => Hnum n
  | JStr s => Hstr s
  | JArr items =>
      Harr items
        ((fix all (l : list JV) : Forall P l :=
            match l with
            | [] => List.Forall_nil P
            | x :: r => List.Forall_cons P x r (JV_ind x) (all r)
            end) items)
  | JObj props =>
      Hobj props
        ((fix all (l : list (string * JV)) : Forall (fun kv => P (snd kv)) l :=
            match l with
            | [] => List.Forall_nil _
            | kv :: r => List.Forall_cons _ kv r (JV_ind (snd kv)) (all r)
            end) props)
  end.
End JV_induction.

(** ** Notions used to state the properties of the reconciler *)

(** Descent along a key path that crosses plain mappings only. *)
Fixpoint walk_maps (current : JV) (parts : list string) : option JV :=
  match parts with
  | [] => Some current
  | part :: rest =>
      match current with
      | JObj props =>
          match assoc part props with
          | Some next => walk_maps next rest
          | None => None
          end
      | _ => None
      end
  end.


(** Wherever [reorderToMatchSource] takes a value of the content in place
    of a leaf or of an array element of the source, the two have the same
    container/leaf shape.  The recursion is that of the merge. *)
Definition agree_item (rec : JV -> JV -> bool) (sourceItem contentItem : JV) : bool :=
  if is_object sourceItem && is_object contentItem
  then rec sourceItem contentItem
  else negb (is_object sourceItem) && negb (is_object contentItem).

Fixpoint agree_items (rec : JV -> JV -> bool) (sourceItems contentItems : list JV)
  : bool :=
  match sourceItems, contentItems with
  | sourceItem :: srest, contentItem :: crest =>
      agree_item rec sourceItem contentItem && agree_items rec srest crest
  | _, _ => true
  end.

Definition agree_value (rec : JV -> JV -> bool) (sourceVal : JV)
    (contentVal : option JV) : bool :=
  match sourceVal with
  | JObj _ =>
      match contentVal with
      | Some (JObj cprops) => rec sourceVal (JObj cprops)
      | _ => true
      end
  | JArr sitems =>
      match contentVal with
      | Some (JArr citems) =>
          if (List.length citems =? List.length sitems)%nat
          then agree_items rec sitems citems
          else true
      | _ => true
      end
  | _ =>
      match contentVal with
      | Some c => negb (is_object c)
      | None => true
      end
  end.

Fixpoint shapes_agree (source content : JV) {struct source} : bool :=
  match source with
  | JObj props =>
      (fix each (props : list (string * JV)) : bool :=
         match props with
         | [] => true
         | (key, sourceVal) :: rest =>
             agree_value shapes_agree sourceVal (get_prop content key)
             && each rest
         end) props
  | JArr elems =>
      (fix each (i : nat) (elems : list JV) : bool :=
         match elems with
         | [] => true
         | sourceVal :: rest =>
             agree_value shapes_agree sourceVal (get_prop content (index_key i))
             && each (S i) rest
         end) 0 elems
  | _ => true
  end.

(** The keys of every mapping of the tree are pairwise distinct: what a
    JavaScript object guarantees. *)
Fixpoint keys_distinct (v : JV) : bool :=
  match v with
  | JObj props =>
      bool_decide (NoDup (map fst props))
      && (fix each (props : list (string * JV)) : bool :=
            match props with
            | [] => true
            | (_, x) :: rest => keys_distinct x && each rest
            end) props
  | JArr items =>
      (fix each (items : list JV) : bool :=
         match items with
         | [] => true
         | x :: rest => keys_distinct x && each rest
         end) items
  | _ => true
  end.

(** No array is itself an element of an array. *)
Fixpoint arrays_flat (v : JV) : bool :=
  match v with
  | JObj props =>
      (fix each (props : list (string * JV)) : bool :=
         match props with
         | [] => true
         | (_, x) :: rest => arrays_flat x && each rest
         end) props
  | JArr items =>
      (fix each (items : list JV) : bool :=
         match items with
         | [] => true
         | x :: rest => negb (isArray x) && arrays_flat x && each rest
         end) items
  | _ => true
  end.

(** ** Canonical keys

    A key path is canonical when no segment contains the delimiter; a tree
    can be addressed by key paths when its keys are such segments, and not
    empty. *)

Fixpoint dot_free (s : string) : bool :=
  match s with
  | EmptyString => true
  | String c rest => negb (Ascii.eqb c dot) && dot_free rest
  end.

Definition segment_ok (k : string) : bool :=
  negb (String.eqb k "") && dot_free k.

Fixpoint keys_canonical (v : JV) : bool :=
  match v with
  | JObj props =>
      (fix each (props : list (string * JV)) : bool :=
         match props with
         | [] => true
         | (k, x) :: rest => segment_ok k && keys_canonical x && each rest
         end) props
  | JArr items =>
      (fix each (items : list JV) : bool :=
         match items with
         | [] => true
         | x :: rest => keys_canonical x && each rest
         end) items
  | _ => true
  end.

(** A tree as [JSON.parse] yields it for a file with canonical keys. *)
Definition well_formed (v : JV) : bool := keys_distinct v && keys_canonical v.

(** ** Notions used to state the invisibility of empty containers *)

(** [{}] or [[]] *)
Definition is_empty_container (v : JV) : bool :=
  match v with
  | JObj [] | JArr [] => true
  | _ => false
  end.

(** A position inside a tree: under a key of a mapping or at an index of
    an array, at any depth. *)
Inductive Position : Type :=
| Here
| InKey (pre : list (string * JV)) (key : string) (inner : Position)
    (post : list (string * JV))
| InIndex (pre : list JV) (inner : Position) (post : list JV).

(** The tree with [v] at the position. *)
Fixpoint plug (c : Position) (v : JV) : JV :=
  match c with
  | Here => v
  | InKey pre k inner post => JObj (pre ++ (k, plug inner v) :: post)
  | InIndex pre inner post => JArr (pre ++ plug inner v :: post)
  end.

(** The parts of two reports that are computed from the flattened key
    paths alone. *)
Definition same_diff (r r' : DiscrepancyReport) : Prop :=
  missingInTarget r = missingInTarget r'
  /\ extraInTarget r = extraInTarget r'
  /\ totalKeysInSource (summary r) = totalKeysInSource (summary r')
  /\ totalKeysInTarget (summary r) = totalKeysInTarget (summary r')
  /\ missingCount (summary r) = missingCount (summary r')
  /\ extraCount (summary r) = extraCount (summary r').

(** ** Invariant of the bounded pool *)

(** What holds of the closure of [translateBatch] between two settlements:
    the counters account for the calls in flight, and the positional array
    holds the entry of every call that has settled and nothing else. *)
Definition pool_consistent (contexts : list TranslationContext) (code : string)
    (answer : nat -> CallOutcome) (st : Pool) : Prop :=
  List.length (results st) = List.length contexts
  /\ (index st <= List.length contexts)%nat
  /\ List.NoDup (inflight st)
  /\ (forall j, In j (inflight st) -> (j < index st)%nat)
  /\ running st = List.length (inflight st)
  /\ (completed st + running st = index st)%nat
  /\ (forall i, (i < index st)%nat -> ~ In i (inflight st) ->
        results st !! i = Some (settled_result contexts code answer i))
  /\ (forall i, (i < List.length contexts)%nat ->
        (index st <= i)%nat \/ In i (inflight st) ->
        results st !! i = Some None).

(** The pool is saturated after [runNext], and the promise is resolved
    exactly when every call has settled. *)
Definition pool_settled (contexts : list TranslationContext) (cap : nat)
    (st : Pool) : Prop :=
  ((completed st < List.length contexts)%nat ->
     resolved st = None
     /\ ((cap <= running st)%nat \/ index st = List.length contexts))
  /\ (completed st = List.length contexts -> resolved st = Some (results st)).

(** ** Notions used to state the fallback of the joint translation *)

(** The response is a structure with a string description and a list of
    link texts. *)
Definition interpretable (response : ParseOutcome) : Prop :=
  match response with
  | Parsed v =>
      (exists d, get_prop v "description" = Some (JStr d))
      /\ (exists l, get_prop v "linkTexts" = Some (JArr l))
  | ParseThrows => False
  end.

(** The result of the independent translation of the description leaf. *)
Definition description_only (descriptionKey description code : string)
    (fallback : CallOutcome) : option (list TranslationResult) :=
  match fallback with
  | Fulfilled translated =>
      Some [mkResult descriptionKey description (JStr translated) code]
  | Rejected => None
  end.

(** The last character of a string, used to tell suffixes apart. *)
Fixpoint last_char (s : string) : option ascii :=
  match s with
  | EmptyString => None
  | String c EmptyString => Some c
  | String _ rest => last_char rest
  end.

(** ** Inputs used in examples *)

(** [{a: "x"}] and [{a: {b: "y"}}] *)
Definition leaf_source : JV := JObj [("a", JStr "x")].
Definition container_content : JV := JObj [("a", JObj [("b", JStr "y")])].

(** [{a: [["x"]]}]: an array that is an element of an array. *)
Definition nested_array_source : JV := JObj [("a", JArr [JArr [JStr "x"]])].

(** [{hero: {title: "Welcome", description: "Read the docs",
             links: [{text: "docs", href: "https://x"}]}}] *)
Definition hero_file : JV :=
  JObj [("hero",
         JObj [("title", JStr "Welcome");
               ("description", JStr "Read the docs");
               ("links",
                JArr [JObj [("text", JStr "docs"); ("href", JStr "https://x")]])])].

(** A configuration that also marks descriptions as pass-through keys. *)
Definition overlapping_config : Transl8Config :=
  mkConfig 50 [] ["*.href"; "*.description"].

(** A provider that answers the joint request with the structure asked
    for, and every single request with ["T"]. *)
Definition good_provider (descKey : string) : ParseOutcome * CallOutcome :=
  (Parsed (JObj [("description", JStr "Lies die Doku");
                 ("linkTexts", JArr [JStr "Doku"])]),
   Fulfilled "T").

Definition always_T (i : nat) : CallOutcome := Fulfilled "T".

(** Five items, of which the third fails. *)
Definition five_contexts : list TranslationContext :=
  [mkContext "k1" "one" ""; mkContext "k2" "two" ""; mkContext "k3" "three" "";
   mkContext "k4" "four" ""; mkContext "k5" "five" ""].

Definition third_fails (i : nat) : CallOutcome :=
  if (i =? 2)%nat then Rejected else Fulfilled "ok".

(** * Further parts of the code

    The functions below are the ones the tree utilities, the analyzer, the
    translator and the command-line entry use besides those above. *)

(** ** Key names *)

(** [getKeyName]: [parts[parts.length - 1]]. *)
Definition getKeyName (keyPath : string) : string :=
  List.last (split_on dot keyPath) "".

(** ** String primitives of the engine *)

(** [s.startsWith(prefix)] *)
Definition startsWith (s prefix : string) : bool := String.prefix prefix s.

(** [s.includes(c)] for a one-character string. *)
Fixpoint includes_char (s : string) (c : ascii) : bool :=
  match s with
  | EmptyString => false
  | String d rest => Ascii.eqb d c || includes_char rest c
  end.

(** [s.slice(start, end)], negative positions counting from the end. *)
Definition js_slice (s : string) (start stop : Z) : string :=
  let len := Z.of_nat (String.length s) in
  let from := if (start <? 0)%Z then Z.max (len + start) 0 else Z.min start len in
  let to := if (stop <? 0)%Z then Z.max (len + stop) 0 else Z.min stop len in
  String.substring (Z.to_nat from) (Z.to_nat (to - from)) s.

Definition quote : string := String (ascii_of_nat 34) "".

(** ** Quote repair (command [fix-quotes]) and clean-up of an answer *)

(** [fixExtraQuotes] *)
Definition fixExtraQuotes (translated original : string) : string :=
  let originalStartsWithQuote := startsWith original quote in
  let originalEndsWithQuote := endsWith original quote in
  let result :=
    if negb originalStartsWithQuote && negb originalEndsWithQuote
    then
      if startsWith translated quote && endsWith translated quote
      then js_slice translated 1 (-1)
      else translated
    else translated in
  if negb originalStartsWithQuote && startsWith result quote
  then
    let originalHasInnerQuotes := includes_char original (ascii_of_nat 34) in
    if originalHasInnerQuotes && endsWith result quote
    then js_slice result 1 (-1)
    else result
  else result.

(** [cleanupTranslation].  [trim] is [String.prototype.trim]. *)
Definition cleanupTranslation (trim : string -> string)
    (translated original : string) : string :=
  let originalStartsWithQuote := startsWith original quote in
  let originalEndsWithQuote := endsWith original quote in
  let result1 :=
    if negb originalStartsWithQuote && negb originalEndsWithQuote
    then
      if startsWith translated quote && endsWith translated quote
      then js_slice translated 1 (-1)
      else translated
    else translated in
  let result2 :=
    if negb originalStartsWithQuote && startsWith result1 quote
    then
      if includes_char original (ascii_of_nat 34) && endsWith result1 quote
      then js_slice result1 1 (-1)
      else result1
    else result1 in
  let result3 :=
    if startsWith result2 "`" && endsWith result2 "`"
    then js_slice result2 1 (-1)
    else result2 in
  if startsWith result3 "```" && endsWith result3 "```"
  then trim (js_slice result3 3 (-3))
  else result3.

(** [truncate] *)
Definition truncate (str : string) (maxLength : Z) : string :=
  if (Z.of_nat (String.length str) <=? maxLength)%Z then str
  else js_slice str 0 (maxLength - 3) +:+ "...".

(** ** Placeholders

    The pattern [\{[^}]+\}] matches, from an opening brace, the longest run
    of characters other than the closing brace, when that run is not empty
    and a closing brace follows it; an opening brace inside the run belongs
    to it.  A scan keeps the run read since the opening brace. *)

Definition open_brace : ascii := "{"%char.
Definition close_brace : ascii := "}"%char.

(** [str.match(/\{([^}]+)\}/g)] followed by [m.slice(1, -1)]: the runs
    between the braces of the successive matches.  [inside] is the run read
    since the opening brace of the match under way. *)
Fixpoint placeholders_from (inside : option string) (s : string) : list string :=
  match s with
  | EmptyString => []
  | String c rest =>
      match inside with
      | None =>
          if Ascii.eqb c open_brace then placeholders_from (Some "") rest
          else placeholders_from None rest
      | Some run =>
          if Ascii.eqb c close_brace then
            match run with
            | EmptyString => placeholders_from None rest
            | _ => run :: placeholders_from None rest
            end
          else placeholders_from (Some (run +:+ String c "")) rest
      end
  end.

Definition extractPlaceholders (str : string) : list string :=
  placeholders_from None str.

(** [/\{[^}]+\}/.test(str)]: [inside] tells whether an opening brace was
    read, and whether a character followed it. *)
Fixpoint has_match_from (inside : option bool) (s : string) : bool :=
  match s with
  | EmptyString => false
  | String c rest =>
      match inside with
      | None =>
          if Ascii.eqb c open_brace then has_match_from (Some false) rest
          else has_match_from None rest
      | Some nonempty =>
          if Ascii.eqb c close_brace then
            if nonempty then true else has_match_from None rest
          else has_match_from (Some true) rest
      end
  end.

Definition hasPlaceholders (str : string) : bool := has_match_from None str.

(** [matches === null]: the global match found nothing. *)
Definition no_placeholder (l : list string) : bool :=
  match l with
  | [] => true
  | _ => false
  end.

(** ** Writing into a tree

    [setValueAtPath], [removeKeyAtPath] and [cleanEmptyObjects] mutate the
    tree they are given.  A tree built by [JSON.parse] or [deepClone]
    shares no node, so that the mutation of a node is the replacement of
    the value under its key; the functions below return the new tree.  An
    assignment or a deletion that leaves the JSON shapes (a hole or a named
    property in an array, the [length] of an array) is reported as such. *)

Inductive Outcome : Type :=
| Updated (obj : JV)
| ThrowsTypeError
| NotModelled.

(** The integer a key denotes when it is an array index: the key is the
    canonical numeral of an integer below [2^32 - 1]. *)
Definition index_of (key : string) : option N :=
  match NilEmpty.uint_of_string key with
  | Some d =>
      if Decimal.uint_beq (Decimal.unorm d) d && (N.of_uint d <? 4294967295)%N
      then Some (N.of_uint d)
      else None
  | None => None
  end.

(** Replacing the value of the first property named [key]. *)
Fixpoint replace_prop (key : string) (v : JV) (props : list (string * JV))
  : list (string * JV) :=
  match props with
  | [] => []
  | (k, x) :: rest =>
      if String.eqb key k then (k, v) :: rest
      else (k, x) :: replace_prop key v rest
  end.

(** A new property whose key is the array index [n] is enumerated after
    the array indices below [n] and before every other property. *)
Fixpoint insert_index (n : N) (key : string) (v : JV)
    (props : list (string * JV)) : list (string * JV) :=
  match props with
  | [] => [(key, v)]
  | (k, x) :: rest =>
      match index_of k with
      | Some m =>
          if (m <? n)%N then (k, x) :: insert_index n key v rest
          else (key, v) :: props
      | None => (key, v) :: props
      end
  end.

(** [obj[key] = v] on a plain object. *)
Definition obj_assign (props : list (string * JV)) (key : string) (v : JV)
  : list (string * JV) :=
  match assoc key props with
  | Some _ => replace_prop key v props
  | None =>
      match index_of key with
      | Some n => insert_index n key v props
      | None => props ++ [(key, v)]
      end
  end.

(** [items[key] = v] on an array whose elements from position [i] on are
    [items]: the element at the index is replaced, the index one past the
    end appends; any other key would leave a hole or a named property. *)
Fixpoint arr_assign_from (i : nat) (items : list JV) (key : string) (v : JV)
  : option (list JV) :=
  match items with
  | [] => if String.eqb key (index_key i) then Some [v] else None
  | x :: rest =>
      if String.eqb key (index_key i) then Some (v :: rest)
      else
        match arr_assign_from (S i) rest key v with
        | Some rest' => Some (x :: rest')
        | None => None
        end
  end.

(** [__proto__] where the object has no own property of that name: the
    name then reaches the accessor inherited from [Object.prototype], which
    reads and writes the prototype; this is outside the JSON shapes. *)
Definition inherited_proto (props : list (string * JV)) (key : string) : bool :=
  String.eqb key "__proto__"
  && match assoc key props with
     | Some _ => false
     | None => true
     end.

(** [current[key] = v].  The modules are strict code: assigning to a
    property of [null] or of a primitive throws. *)
Definition assign_prop (current : JV) (key : string) (v : JV) : Outcome :=
  match current with
  | JObj props =>
      if inherited_proto props key then NotModelled
      else Updated (JObj (obj_assign props key v))
  | JArr items =>
      match arr_assign_from 0 items key v with
      | Some items' => Updated (JArr items')
      | None => NotModelled
      end
  | _ => ThrowsTypeError
  end.

(** [typeof v === "object"], which holds of [null]. *)
Definition typeof_object (v : JV) : bool :=
  match v with
  | JNull | JArr _ | JObj _ => true
  | _ => false
  end.

(** The container [setValueAtPath] creates for a missing intermediate:
    [Array.isArray(refCurrent?.[part]) ? [] : {}]. *)
Definition fresh_container (refCurrent : option JV) (part : string) : JV :=
  match refCurrent with
  | Some r =>
      match get_prop r part with
      | Some (JArr _) => JArr []
      | _ => JObj []
      end
  | None => JObj []
  end.

(** The reference followed one segment down. *)
Definition ref_step (refCurrent : option JV) (part : string) : option JV :=
  match refCurrent with
  | Some r =>
      match get_prop r part with
      | Some x => if typeof_object x then Some x else None
      | None => None
      end
  | None => None
  end.

(** The loop of [setValueAtPath] and its final assignment, on the segments
    of the key path.  [part in current] throws when [current] is [null] (or
    a primitive). *)
Fixpoint set_parts (current : JV) (refCurrent : option JV) (parts : list string)
    (value : JV) : Outcome :=
  match parts with
  | [] => Updated current
  | [last] => assign_prop current last value
  | part :: rest =>
      if is_object current then
        match get_prop current part with
        | Some child =>
            if typeof_object child then
              match set_parts child (ref_step refCurrent part) rest value with
              | Updated child' => assign_prop current part child'
              | failure => failure
              end
            else
              match assign_prop current part (fresh_container refCurrent part) with
              | Updated _ =>
                  match set_parts (fresh_container refCurrent part)
                          (ref_step refCurrent part) rest value with
                  | Updated child' => assign_prop current part child'
                  | failure => failure
                  end
              | failure => failure
              end
        | None =>
            match assign_prop current part (fresh_container refCurrent part) with
            | Updated _ =>
                match set_parts (fresh_container refCurrent part)
                        (ref_step refCurrent part) rest value with
                | Updated child' => assign_prop current part child'
                | failure => failure
                end
            | failure => failure
            end
        end
      else ThrowsTypeError
  end.

Definition setValueAtPath (obj : JV) (keyPath : string) (value : JV)
    (referenceObj : option JV) : Outcome :=
  set_parts obj referenceObj (split_on dot keyPath) value.

(** The body of [set_parts] on a segment that is not the last one, given
    what is done below it. *)
Definition set_parts_turn (current : JV) (refCurrent : option JV) (part : string)
    (below : JV -> Outcome) : Outcome :=
  if is_object current then
    match get_prop current part with
    | Some child =>
        if typeof_object child then
          match below child with
          | Updated child' => assign_prop current part child'
          | failure => failure
          end
        else
          match assign_prop current part (fresh_container refCurrent part) with
          | Updated _ =>
              match below (fresh_container refCurrent part) with
              | Updated child' => assign_prop current part child'
              | failure => failure
              end
          | failure => failure
          end
    | None =>
        match assign_prop current part (fresh_container refCurrent part) with
        | Updated _ =>
            match below (fresh_container refCurrent part) with
            | Updated child' => assign_prop current part child'
            | failure => failure
            end
        | failure => failure
        end
    end
  else ThrowsTypeError.

(** [delete current[key]].  Deleting an element of an array leaves a hole;
    deleting a missing property does nothing. *)
Definition delete_prop (current : JV) (key : string) : Outcome :=
  match current with
  | JObj props =>
      Updated (JObj (List.filter (fun kv => negb (String.eqb key (fst kv))) props))
  | JArr items =>
      match get_prop current key with
      | Some _ => NotModelled
      | None => Updated current
      end
  | JNull => ThrowsTypeError
  | _ => NotModelled
  end.

(** [removeKeyAtPath] on the segments of the key path. *)
Fixpoint remove_parts (current : JV) (parts : list string) : Outcome :=
  match parts with
  | [] => Updated current
  | [last] => delete_prop current last
  | part :: rest =>
      if is_object current then
        match get_prop current part with
        | Some child =>
            if typeof_object child then
              match remove_parts child rest with
              | Updated child' => assign_prop current part child'
              | failure => failure
              end
            else Updated current
        | None =>
            if inherited_proto (own_entries current) part then NotModelled
            else Updated current
        end
      else ThrowsTypeError
  end.

Definition removeKeyAtPath (obj : JV) (keyPath : string) : Outcome :=
  remove_parts obj (split_on dot keyPath).

(** What [cleanEmptyObjects] leaves of a container: a tree, an array all of
    whose elements were deleted (it has no key left, and its parent deletes
    it), or an array with some holes. *)
Inductive Cleaned : Type :=
| CleanTo (v : JV)
| AllHoles
| SomeHoles.

(** The decision of the loop of [cleanEmptyObjects] on one value: [None]
    when the key is deleted. *)
Definition clean_visit (rec : JV -> Cleaned) (value : JV) : option Cleaned :=
  if is_object value then
    match rec value with
    | CleanTo v' =>
        match own_entries v' with
        | [] => None
        | _ => Some (CleanTo v')
        end
    | AllHoles => None
    | SomeHoles => Some SomeHoles
    end
  else Some (CleanTo value).

(** The elements of an array after the loop: [Some] of the elements when
    none was deleted, with the number of deleted ones otherwise. *)
Fixpoint clean_elements (visited : list (option Cleaned))
  : option (list (option JV)) :=
  match visited with
  | [] => Some []
  | Some (CleanTo v) :: rest =>
      match clean_elements rest with
      | Some l => Some (Some v :: l)
      | None => None
      end
  | None :: rest =>
      match clean_elements rest with
      | Some l => Some (None :: l)
      | None => None
      end
  | Some _ :: _ => None
  end.

Fixpoint all_some (l : list (option JV)) : option (list JV) :=
  match l with
  | [] => Some []
  | Some v :: rest =>
      match all_some rest with
      | Some r => Some (v :: r)
      | None => None
      end
  | None :: _ => None
  end.

Fixpoint cleanEmptyObjects (obj : JV) : Cleaned :=
  match obj with
  | JObj props =>
      (fix each (props : list (string * JV)) : Cleaned :=
         match props with
         | [] => CleanTo (JObj [])
         | (key, value) :: rest =>
             match clean_visit cleanEmptyObjects value, each rest with
             | Some (CleanTo v'), CleanTo (JObj kept) => CleanTo (JObj ((key, v') :: kept))
             | None, CleanTo (JObj kept) => CleanTo (JObj kept)
             | _, _ => SomeHoles
             end
         end) props
  | JArr items =>
      match
        clean_elements
          ((fix each (items : list JV) : list (option Cleaned) :=
              match items with
              | [] => []
              | value :: rest => clean_visit cleanEmptyObjects value :: each rest
              end) items)
      with
      | Some elements =>
          match all_some elements with
          | Some dense => CleanTo (JArr dense)
          | None =>
              if forallb (fun e => match e with None => true | Some _ => false end)
                   elements
              then AllHoles
              else SomeHoles
          end
      | None => SomeHoles
      end
  | _ => CleanTo obj
  end.

(** ** Notions used to state the properties of the tree utilities *)

(** Descent through the own properties of the containers, segment by
    segment: what [getValueAtPath] does, the [length] of arrays apart. *)
Fixpoint own_walk (current : JV) (parts : list string) : option JV :=
  match parts with
  | [] => Some current
  | part :: rest =>
      match assoc part (own_entries current) with
      | Some next => own_walk next rest
      | None => None
      end
  end.

(** A tree of plain mappings and of leaves other than [null]: the trees of
    the declared type [TranslationFile], primitives apart. *)
Fixpoint plain_tree (v : JV) : bool :=
  match v with
  | JObj props =>
      (fix each (props : list (string * JV)) : bool :=
         match props with
         | [] => true
         | (_, x) :: rest => plain_tree x && each rest
         end) props
  | JArr _ | JNull => false
  | _ => true
  end.

(** No property of the tree, at any depth, holds a container without
    keys. *)
Fixpoint no_empty_values (v : JV) : bool :=
  match v with
  | JObj props =>
      (fix each (props : list (string * JV)) : bool :=
         match props with
         | [] => true
         | (_, x) :: rest =>
             negb (is_empty_container x) && no_empty_values x && each rest
         end) props
  | JArr items =>
      (fix each (items : list JV) : bool :=
         match items with
         | [] => true
         | x :: rest =>
             negb (is_empty_container x) && no_empty_values x && each rest
         end) items
  | _ => true
  end.

(** ** Synchronisation check (analyzer)

    [checkFileSync] on the two files once loaded. *)

Definition checkFileSync (reference target : JV) : bool * DiscrepancyReport :=
  let report := compareTranslations reference target in
  let inSync :=
    (missingCount (summary report) =? 0)%nat
    && (typeMismatchCount (summary report) =? 0)%nat in
  (inSync, report).

(** ** Applying the results of a run

    The loops of the command [translate] and of [createFullTranslation]
    that write every result into the target, in order, with the source as
    the reference ([setValueAtKeyPath] of the translator has the body of
    [setValueAtPath]). *)

Fixpoint apply_results (target : JV) (results : list TranslationResult)
    (reference : option JV) : Outcome :=
  match results with
  | [] => Updated target
  | result :: rest =>
      match setValueAtPath target (key result) (translatedValue result) reference with
      | Updated next => apply_results next rest reference
      | failure => failure
      end
  end.

(** The value of the last result written for a key path. *)
Fixpoint last_written (keyPath : string) (results : list TranslationResult)
  : option JV :=
  match results with
  | [] => None
  | result :: rest =>
      match last_written keyPath rest with
      | Some v => Some v
      | None =>
          if String.eqb (key result) keyPath then Some (translatedValue result)
          else None
      end
  end.

(** ** The command [prune]

    The body of the command on the two loaded files, when it is not a dry
    run: the extra keys are grouped by section for display, they are
    removed from a clone of the target, the empty containers are cleaned,
    and the result is reconciled with the source before it is saved. *)

(** The grouping loop, [if (!grouped[section]) grouped[section] = [];
    grouped[section].push(key)] on a fresh plain object [grouped], with
    [section = key.split(".")[0]]: for a section named like a member of
    [Object.prototype] the lookup finds that member, which has no [push],
    and the call throws. *)
Definition grouping_throws (keyPaths : list string) : bool :=
  existsb (fun key => object_inherited (List.hd "" (split_on dot key))) keyPaths.

Fixpoint remove_keys (prunedTarget : JV) (keyPaths : list string) : Outcome :=
  match keyPaths with
  | [] => Updated prunedTarget
  | keyPath :: rest =>
      match removeKeyAtPath prunedTarget keyPath with
      | Updated next => remove_keys next rest
      | failure => failure
      end
  end.

Inductive Pruned : Type :=
| NoExtraKeys
| Saved (file : JV)
| PruneThrows
| PruneNotModelled.

Definition prune (source target : JV) : Pruned :=
  let report := compareTranslations source target in
  match extraInTarget report with
  | [] => NoExtraKeys
  | keyPaths =>
      if grouping_throws keyPaths then PruneThrows
      else
        match remove_keys target keyPaths with
        | Updated prunedTarget =>
            match cleanEmptyObjects prunedTarget with
            | CleanTo cleaned => Saved (reorderToMatchSource source cleaned)
            | _ => PruneNotModelled
            end
        | ThrowsTypeError => PruneThrows
        | NotModelled => PruneNotModelled
        end
  end.

(** ** Examples from existing translations

    The index is a [Map], kept as the list of its entries in insertion
    order; [tokenize] is taken as it is, and the scores are the exact
    quotients of [similarityScore]. *)

Record TranslationPair : Type := mkPair {
  pair_english : string;
  pair_translated : string;
  pair_key : string
}.

(** [index.set(key, value)] *)
Fixpoint map_set (key : string) (value : TranslationPair)
    (entries : list (string * TranslationPair)) : list (string * TranslationPair) :=
  match entries with
  | [] => [(key, value)]
  | (k, v) :: rest =>
      if String.eqb key k then (k, value) :: rest
      else (k, v) :: map_set key value rest
  end.

(** [index.get(key)] *)
Fixpoint map_get (key : string) (entries : list (string * TranslationPair))
  : option TranslationPair :=
  match entries with
  | [] => None
  | (k, v) :: rest => if String.eqb key k then Some v else map_get key rest
  end.

(** The body of the loop of [buildTranslationPairIndex] for one key. *)
Definition pair_visit (englishFile targetFile : JV)
    (index : list (string * TranslationPair)) (key : string)
  : list (string * TranslationPair) :=
  match getValueAtPath englishFile key, getValueAtPath targetFile key with
  | Some (JStr eng), Some (JStr tgt) =>
      if String.eqb eng tgt then index else map_set key (mkPair eng tgt key) index
  | _, _ => index
  end.

Definition buildTranslationPairIndex (englishFile targetFile : JV)
  : list (string * TranslationPair) :=
  fold_left (pair_visit englishFile targetFile) (flattenKeys englishFile "") [].




Section SimilarExamples.
Variable tokenize : string -> gset string.


End SimilarExamples.

(** * Properties *)

Lemma index_entries_values i items : map snd (index_entries i items) = items.
Proof.
  revert i. induction items as [|x r IH]; intros i; simpl; [reflexivity|].
  now rewrite IH.
Qed.

Lemma index_entries_length i items :
  List.length (index_entries i items) = List.length items.
Proof. rewrite <- (index_entries_values i items) at 2. now rewrite length_map. Qed.

(** Induction over the values held by the own properties of a container. *)
Lemma JV_entries_ind (P : JV -> Prop) :
  (forall v, (forall k x, In (k, x) (own_entries v) -> P x) -> P v) ->
  forall v, P v.
Proof.
  intros step. induction v as [| | | |items IH|props IH] using JV_ind;
    apply step; simpl; try tauto.
  - intros k x Hin.
    assert (Hx : In x items).
    { rewrite <- (index_entries_values 0 items). now apply (in_map snd) in Hin. }
    rewrite List.Forall_forall in IH. now apply IH.
  - intros k x Hin. rewrite List.Forall_forall in IH. now apply (IH (k, x)).
Qed.

(** Induction over the values directly held by a container. *)
Lemma JV_children_ind (P : JV -> Prop) :
  (forall v, (forall x, In x (map snd (own_entries v)) -> P x) -> P v) ->
  forall v, P v.
Proof.
  intros step. apply JV_entries_ind. intros v IH. apply step.
  intros x Hx. apply in_map_iff in Hx as [[k y] [<- Hin]]. now apply (IH k).
Qed.

(** ** The loops as maps over the own properties *)

Lemma flattenKeys_entries obj prefix :
  flattenKeys obj prefix =
  flat_map (fun kv => flatten_visit flattenKeys prefix (fst kv) (snd kv))
    (own_entries obj).
Proof.
  destruct obj as [| | | |items|props]; try reflexivity.
  - simpl. generalize 0%nat. induction items as [|x r IH]; intros i; simpl.
    + reflexivity.
    + now rewrite IH.
  - simpl. induction props as [|[k x] r IH]; simpl.
    + reflexivity.
    + now rewrite IH.
Qed.

Lemma countLeafKeys_entries obj :
  countLeafKeys obj =
  list_sum (map (fun kv => count_visit countLeafKeys (snd kv)) (own_entries obj)).
Proof.
  destruct obj as [| | | |items|props]; try reflexivity.
  - cbn [own_entries].
    rewrite <- (map_map snd (count_visit countLeafKeys)), index_entries_values.
    simpl. induction items as [|x r IH]; simpl.
    + reflexivity.
    + now rewrite IH.
  - simpl. induction props as [|[k x] r IH]; simpl.
    + reflexivity.
    + now rewrite IH.
Qed.

Lemma reorderToMatchSource_entries source content :
  reorderToMatchSource source content =
  JObj (map (fun kv => (fst kv,
                        merge_value reorderToMatchSource (snd kv)
                          (get_prop content (fst kv))))
          (own_entries source)).
Proof.
  destruct source as [| | | |items|props]; try reflexivity.
  - simpl. f_equal. generalize 0%nat. induction items as [|x r IH]; intros i.
    + reflexivity.
    + simpl. now rewrite IH.
  - simpl. f_equal. induction props as [|[k x] r IH].
    + reflexivity.
    + simpl. now rewrite IH.
Qed.

(** ** Leaf count *)

(** C9. For every translation tree [t] (and every prefix), the number of
    key paths returned by [flattenKeys] is [countLeafKeys t]: the flatten
    traversal emits exactly one key path per leaf the counter counts. *)
Theorem flattenKeys_length_countLeafKeys :
  forall (t : JV) (prefix : string),
    List.length (flattenKeys t prefix) = countLeafKeys t.
Proof.
  induction t as [t IH] using JV_entries_ind. intros prefix.
  rewrite flattenKeys_entries, countLeafKeys_entries.
  induction (own_entries t) as [|[k x] r IHr]; simpl.
  - reflexivity.
  - rewrite length_app, IHr.
    + f_equal. unfold flatten_visit, count_visit.
      destruct (is_object x); [|reflexivity].
      apply (IH k). now left.
    + intros k' x' Hin. apply (IH k'). now right.
Qed.

(** ** Shape of the reconciled tree *)

Lemma get_prop_JObj props k : get_prop (JObj props) k = assoc k props.
Proof. unfold get_prop. simpl. now destruct (assoc k props). Qed.

Lemma assoc_map (f : string -> JV -> JV) k props :
  assoc k (map (fun kv => (fst kv, f (fst kv) (snd kv))) props) =
  option_map (f k) (assoc k props).
Proof.
  induction props as [|[k' x] r IH]; simpl; [reflexivity|].
  destruct (String.eqb k k') eqn:E; [|exact IH].
  apply String.eqb_eq in E. now subst.
Qed.


Lemma merge_items_length rec ss cs :
  List.length cs = List.length ss ->
  List.length (merge_items rec ss cs) = List.length ss.
Proof.
  revert cs. induction ss as [|s ss IH]; intros [|c cs] Hlen; simpl in *;
    try reflexivity; try discriminate.
  f_equal. apply IH. now injection Hlen.
Qed.

Lemma walk_maps_nonmapping v part rest :
  (forall props, v <> JObj props) -> walk_maps v (part :: rest) = None.
Proof. intros Hv. destruct v; try reflexivity. now destruct (Hv props). Qed.





(** ** Key order of the reconciled tree *)

Lemma shapes_agree_entries source content :
  shapes_agree source content =
  forallb (fun kv => agree_value shapes_agree (snd kv) (get_prop content (fst kv)))
    (own_entries source).
Proof.
  destruct source as [| | | |items|props]; try reflexivity.
  - simpl. generalize 0%nat. induction items as [|x r IH]; intros i.
    + reflexivity.
    + simpl. now rewrite IH.
  - simpl. induction props as [|[k x] r IH].
    + reflexivity.
    + simpl. now rewrite IH.
Qed.


Lemma flat_map_ext_in {A B} (f g : A -> list B) l :
  (forall x, In x l -> f x = g x) -> flat_map f l = flat_map g l.
Proof.
  induction l as [|x l IH]; intros H; simpl; [reflexivity|].
  rewrite (H x (or_introl eq_refl)), IH; [reflexivity|].
  intros y Hy. apply H. now right.
Qed.

(** Flattening the array built by [merge_items] gives the key paths of the
    source array, when element shapes agree and each merged element
    flattens like its source element. *)
Lemma flatten_merge_items prefix ss :
  (forall s, In s ss -> forall content p,
      shapes_agree s content = true ->
      flattenKeys (reorderToMatchSource s content) p = flattenKeys s p) ->
  forall cs i,
    agree_items shapes_agree ss cs = true ->
    List.length cs = List.length ss ->
    flat_map (fun kv => flatten_visit flattenKeys prefix (fst kv) (snd kv))
      (index_entries i (merge_items reorderToMatchSource ss cs)) =
    flat_map (fun kv => flatten_visit flattenKeys prefix (fst kv) (snd kv))
      (index_entries i ss).
Proof.
  induction ss as [|s ss IH]; intros Hs [|c cs] i Hag Hlen; simpl in *;
    try reflexivity; try discriminate.
  apply andb_prop in Hag as [Hitem Hrest].
  rewrite (IH (fun s' Hin => Hs s' (or_intror Hin)) cs (S i) Hrest);
    [|now injection Hlen].
  f_equal. unfold merge_item, agree_item, flatten_visit in *.
  destruct (is_object s) eqn:Es, (is_object c) eqn:Ec; simpl in *;
    try discriminate.
  - rewrite (Hs s (or_introl eq_refl) c _ Hitem).
    now rewrite reorderToMatchSource_entries.
  - now rewrite Ec.
Qed.

(** The key paths below one key are those of the source when shapes agree. *)
Lemma flatten_merge_value sourceVal :
  (forall content p,
      shapes_agree sourceVal content = true ->
      flattenKeys (reorderToMatchSource sourceVal content) p
      = flattenKeys sourceVal p) ->
  (forall x, In x (map snd (own_entries sourceVal)) -> forall content p,
      shapes_agree x content = true ->
      flattenKeys (reorderToMatchSource x content) p = flattenKeys x p) ->
  forall contentVal prefix k,
    agree_value shapes_agree sourceVal contentVal = true ->
    flatten_visit flattenKeys prefix k
      (merge_value reorderToMatchSource sourceVal contentVal)
    = flatten_visit flattenKeys prefix k sourceVal.
Proof.
  intros Hself Hkids contentVal prefix k Hag.
  destruct sourceVal as [| | | |sitems|sp]; simpl in *.
  1-4: destruct contentVal as [c|]; [|reflexivity];
    unfold flatten_visit; simpl; apply negb_true_iff in Hag; now rewrite Hag.
  - destruct contentVal as [[| | | |citems|cp]|]; try reflexivity.
    destruct (List.length citems =? List.length sitems)%nat eqn:E; [|reflexivity].
    apply Nat.eqb_eq in E. unfold flatten_visit. cbn [is_object].
    rewrite !flattenKeys_entries. cbn [own_entries].
    rewrite index_entries_values in Hkids.
    now apply flatten_merge_items.
  - destruct contentVal as [[| | | |citems|cp]|]; try reflexivity.
    unfold flatten_visit.
    replace (is_object (reorderToMatchSource (JObj sp) (JObj cp))) with true
      by now rewrite reorderToMatchSource_entries.
    cbn [is_object]. now apply Hself.
Qed.

Lemma flat_map_map_fuse {A B C} (f : B -> list C) (g : A -> B) l :
  flat_map f (map g l) = flat_map (fun x => f (g x)) l.
Proof. induction l as [|x l IH]; simpl; [reflexivity|]. now rewrite IH. Qed.

(** When shapes agree, the reconciled tree flattens to the key paths of the
    source, and so does what the merge stores under each key. *)
Lemma flattenKeys_reorderToMatchSource_agree_both :
  forall source,
    (forall content prefix,
        shapes_agree source content = true ->
        flattenKeys (reorderToMatchSource source content) prefix
        = flattenKeys source prefix)
    /\ (forall contentVal prefix k,
           agree_value shapes_agree source contentVal = true ->
           flatten_visit flattenKeys prefix k
             (merge_value reorderToMatchSource source contentVal)
           = flatten_visit flattenKeys prefix k source).
Proof.
  induction source as [source IH] using JV_children_ind.
  assert (Hself : forall content prefix,
             shapes_agree source content = true ->
             flattenKeys (reorderToMatchSource source content) prefix
             = flattenKeys source prefix).
  { intros content prefix Hag.
    rewrite shapes_agree_entries in Hag. rewrite forallb_forall in Hag.
    rewrite (flattenKeys_entries source), reorderToMatchSource_entries.
    rewrite flattenKeys_entries. cbn [own_entries]. rewrite flat_map_map_fuse.
    apply flat_map_ext_in. intros [k x] Hin. cbn [fst snd].
    apply (IH x).
    - now apply (in_map snd) in Hin.
    - now apply (Hag (k, x)). }
  split; [exact Hself|].
  apply flatten_merge_value; [exact Hself|].
  intros x Hx. now apply (IH x).
Qed.




(** ** Merging twice *)

Lemma index_key_inj i j : index_key i = index_key j -> i = j.
Proof.
  unfold index_key. intros H. apply DecimalNat.Unsigned.to_uint_inj.
  assert (E : Some (Nat.to_uint i) = Some (Nat.to_uint j))
    by now rewrite <- !NilEmpty.usu, H.
  now injection E.
Qed.

Lemma index_entries_keys_from i items k :
  In k (map fst (index_entries i items)) ->
  exists j, (i <= j)%nat /\ k = index_key j.
Proof.
  revert i. induction items as [|x r IH]; intros i Hin; [contradiction|].
  simpl in Hin. destruct Hin as [<-|Hin].
  - exists i. split; [lia|reflexivity].
  - destruct (IH (S i) Hin) as [j [Hle ->]]. exists j. split; [lia|reflexivity].
Qed.

Lemma index_entries_keys_NoDup i items :
  List.NoDup (map fst (index_entries i items)).
Proof.
  revert i. induction items as [|x r IH]; intros i; simpl; constructor.
  - intros Hin. apply index_entries_keys_from in Hin as [j [Hle Heq]].
    apply index_key_inj in Heq. lia.
  - apply IH.
Qed.

Lemma keys_distinct_own_keys v :
  keys_distinct v = true -> List.NoDup (own_keys v).
Proof.
  unfold own_keys.
  destruct v as [| | | |items|props]; intros H; try (simpl; constructor).
  - apply index_entries_keys_NoDup.
  - simpl in H. apply andb_prop in H as [H _].
    apply bool_decide_eq_true in H. now apply NoDup_ListNoDup in H.
Qed.

Lemma keys_distinct_child v x :
  keys_distinct v = true -> In x (map snd (own_entries v)) ->
  keys_distinct x = true.
Proof.
  destruct v as [| | | |items|props]; try contradiction.
  - cbn [own_entries]. rewrite index_entries_values. simpl.
    induction items as [|y r IH]; intros H Hin; [contradiction|].
    apply andb_prop in H as [Hy Hr]. destruct Hin as [<-|Hin]; auto.
  - simpl. intros H. apply andb_prop in H as [_ H]. revert H.
    induction props as [|[k y] r IH]; intros H Hin; [contradiction|].
    apply andb_prop in H as [Hy Hr]. destruct Hin as [<-|Hin]; auto.
Qed.

Lemma arrays_flat_child v x :
  arrays_flat v = true -> In x (map snd (own_entries v)) ->
  arrays_flat x = true.
Proof.
  destruct v as [| | | |items|props]; try contradiction.
  - cbn [own_entries]. rewrite index_entries_values. simpl.
    induction items as [|y r IH]; intros H Hin; [contradiction|].
    apply andb_prop in H as [Hy Hr]. apply andb_prop in Hy as [_ Hy].
    destruct Hin as [<-|Hin]; auto.
  - simpl. induction props as [|[k y] r IH]; intros H Hin; [contradiction|].
    apply andb_prop in H as [Hy Hr]. destruct Hin as [<-|Hin]; auto.
Qed.

Lemma arrays_flat_element items x :
  arrays_flat (JArr items) = true -> In x items -> isArray x = false.
Proof.
  simpl. induction items as [|y r IH]; intros H Hin; [contradiction|].
  apply andb_prop in H as [Hy Hr]. apply andb_prop in Hy as [Hy _].
  destruct Hin as [<-|Hin]; [now apply negb_true_iff in Hy|auto].
Qed.

Lemma assoc_In_NoDup props k x :
  List.NoDup (map fst props) -> In (k, x) props -> assoc k props = Some x.
Proof.
  induction props as [|[k' y] r IH]; intros Hnd Hin; [contradiction|].
  simpl in *. inversion Hnd as [|? ? Hnotin Hnd']; subst.
  destruct Hin as [E|Hin].
  - injection E as -> ->. now rewrite String.eqb_refl.
  - destruct (String.eqb k k') eqn:E.
    + apply String.eqb_eq in E. subst k'. destruct Hnotin.
      now apply (in_map fst) in Hin.
    + now apply IH.
Qed.

(** With distinct keys, a container holds under each of its keys the value
    enumerated with it. *)
Lemma get_prop_own_entry v k x :
  List.NoDup (own_keys v) -> In (k, x) (own_entries v) -> get_prop v k = Some x.
Proof.
  intros Hnd Hin. unfold get_prop.
  now rewrite (assoc_In_NoDup (own_entries v) k x Hnd Hin).
Qed.

Lemma is_object_reorderToMatchSource source content :
  is_object (reorderToMatchSource source content) = true.
Proof. now rewrite reorderToMatchSource_entries. Qed.

Lemma merge_items_self ss :
  (forall s, In s ss -> isArray s = false) ->
  (forall s, In s ss -> merge_value reorderToMatchSource s (Some s) = s) ->
  merge_items reorderToMatchSource ss ss = ss.
Proof.
  induction ss as [|s ss IH]; intros Hflat Hself; simpl; [reflexivity|].
  rewrite IH;
    [| intros; apply Hflat; now right | intros; apply Hself; now right].
  f_equal. unfold merge_item.
  pose proof (Hflat s (or_introl eq_refl)) as Hs.
  pose proof (Hself s (or_introl eq_refl)) as Hm.
  destruct s; try reflexivity; [discriminate Hs|exact Hm].
Qed.

Lemma merge_items_twice ss cs :
  (forall s, In s ss -> forall c,
      reorderToMatchSource s (reorderToMatchSource s c)
      = reorderToMatchSource s c) ->
  merge_items reorderToMatchSource ss (merge_items reorderToMatchSource ss cs)
  = merge_items reorderToMatchSource ss cs.
Proof.
  revert cs. induction ss as [|s ss IH]; intros [|c cs] Hrec; simpl;
    try reflexivity.
  rewrite IH by (intros; apply Hrec; now right).
  f_equal. unfold merge_item.
  destruct (is_object s && is_object c) eqn:E.
  - apply andb_prop in E as [Es _].
    rewrite Es, is_object_reorderToMatchSource. simpl.
    now apply Hrec; left.
  - now rewrite E.
Qed.

(** Merging a second time, for a source with distinct keys and no array
    nested directly in an array: the reconciliation is idempotent, a value
    merged with itself is unchanged, and so is a merged value merged
    again. *)
Lemma reorderToMatchSource_twice_all :
  forall v,
    keys_distinct v = true -> arrays_flat v = true ->
    (forall C, reorderToMatchSource v (reorderToMatchSource v C)
               = reorderToMatchSource v C)
    /\ merge_value reorderToMatchSource v (Some v) = v
    /\ (forall cv,
           merge_value reorderToMatchSource v
             (Some (merge_value reorderToMatchSource v cv))
           = merge_value reorderToMatchSource v cv).
Proof.
  induction v as [v IH] using JV_children_ind. intros Hkeys Hflat.
  pose proof (keys_distinct_own_keys v Hkeys) as Hnd.
  assert (Hkid : forall x, In x (map snd (own_entries v)) ->
            (forall C, reorderToMatchSource x (reorderToMatchSource x C)
                       = reorderToMatchSource x C)
            /\ merge_value reorderToMatchSource x (Some x) = x
            /\ (forall cv,
                   merge_value reorderToMatchSource x
                     (Some (merge_value reorderToMatchSource x cv))
                   = merge_value reorderToMatchSource x cv)).
  { intros x Hx. apply IH; [exact Hx| |].
    - now apply (keys_distinct_child v).
    - now apply (arrays_flat_child v). }
  assert (Htwice : forall C, reorderToMatchSource v (reorderToMatchSource v C)
                             = reorderToMatchSource v C).
  { intros C. rewrite (reorderToMatchSource_entries v (reorderToMatchSource v C)).
    etransitivity; [|symmetry; apply reorderToMatchSource_entries]. f_equal.
    apply map_ext_in. intros [k x] Hin. cbn [fst snd]. f_equal.
    assert (Hget : get_prop (reorderToMatchSource v C) k
                   = Some (merge_value reorderToMatchSource x (get_prop C k))).
    { rewrite reorderToMatchSource_entries, get_prop_JObj.
      rewrite (assoc_map
                 (fun key sourceVal =>
                    merge_value reorderToMatchSource sourceVal (get_prop C key))).
      now rewrite (assoc_In_NoDup (own_entries v) k x Hnd Hin). }
    rewrite Hget. apply (Hkid x). now apply (in_map snd) in Hin. }
  assert (Hself : merge_value reorderToMatchSource v (Some v) = v).
  { destruct v as [| | | |items|props]; try reflexivity.
    - simpl. rewrite Nat.eqb_refl. f_equal.
      cbn [own_entries] in Hkid. rewrite index_entries_values in Hkid.
      apply merge_items_self.
      + intros s Hs. now apply (arrays_flat_element items).
      + intros s Hs. now apply (Hkid s).
    - cbn [merge_value]. rewrite reorderToMatchSource_entries.
      cbn [own_entries] in *. f_equal.
      rewrite <- (map_id props) at 2. apply map_ext_in.
      intros [k x] Hin. cbn [fst snd]. f_equal.
      rewrite get_prop_JObj, (assoc_In_NoDup props k x Hnd Hin).
      apply (Hkid x). now apply (in_map snd) in Hin. }
  split; [exact Htwice|]. split; [exact Hself|].
  intros cv. destruct v as [| | | |items|props].
  1-4: now destruct cv.
  - destruct cv as [[| | | |citems|cp]|]; try exact Hself.
    cbn [merge_value].
    destruct (List.length citems =? List.length items)%nat eqn:E;
      [|exact Hself].
    apply Nat.eqb_eq in E. cbn [merge_value].
    rewrite (merge_items_length _ _ _ E), Nat.eqb_refl. f_equal.
    apply merge_items_twice. intros s Hs.
    cbn [own_entries] in Hkid. rewrite index_entries_values in Hkid.
    now apply (Hkid s).
  - destruct cv as [[| | | |citems|cp]|]; try exact Hself.
    cbn [merge_value].
    rewrite (reorderToMatchSource_entries (JObj props) (JObj cp)) at 1.
    cbn [merge_value]. rewrite <- reorderToMatchSource_entries.
    apply Htwice.
Qed.

(** C6 at the input [S = {a: [["x"]]}], [C = {}]: the first merge returns
    the source, whose inner array the second merge turns into the mapping
    [{"0": "x"}].  Merging the merged content changes it. *)
Theorem reorderToMatchSource_twice_nested_array :
  let once := reorderToMatchSource nested_array_source (JObj []) in
  let twice := reorderToMatchSource nested_array_source once in
  once = JObj [("a", JArr [JArr [JStr "x"]])]
  /\ twice = JObj [("a", JArr [JObj [("0", JStr "x")]])]
  /\ twice <> once.
Proof. vm_compute. repeat split. discriminate. Qed.

(** Reconciliation is idempotent on every source whose keys are distinct
    and in which no array is directly an element of an array. *)
Theorem reorderToMatchSource_idempotent_flat :
  forall (S C : JV),
    keys_distinct S = true -> arrays_flat S = true ->
    reorderToMatchSource S (reorderToMatchSource S C)
    = reorderToMatchSource S C.
Proof.
  intros S C Hkeys Hflat.
  now apply (proj1 (reorderToMatchSource_twice_all S Hkeys Hflat)).
Qed.

(** ** Key paths and their segments *)

Lemma split_on_dot_free s : dot_free s = true -> split_on dot s = [s].
Proof.
  induction s as [|c s IH]; simpl; [reflexivity|].
  intros H. apply andb_prop in H as [Hc Hs]. apply negb_true_iff in Hc.
  now rewrite Hc, (IH Hs).
Qed.

Lemma split_on_segment_dot s t :
  dot_free s = true -> split_on dot (s +:+ "." +:+ t) = s :: split_on dot t.
Proof.
  induction s as [|c s IH]; simpl; [reflexivity|].
  intros H. apply andb_prop in H as [Hc Hs]. apply negb_true_iff in Hc.
  now rewrite Hc, (IH Hs).
Qed.

(** Splitting a joined key path gives its segments back. *)
Lemma split_on_join_with parts :
  parts <> [] -> forallb dot_free parts = true ->
  split_on dot (join_with "." parts) = parts.
Proof.
  induction parts as [|p [|q r] IH]; intros Hne Hok.
  - now destruct Hne.
  - simpl in *. apply andb_prop in Hok as [Hp _]. now apply split_on_dot_free.
  - cbn [join_with]. cbn [forallb] in Hok. apply andb_prop in Hok as [Hp Hr].
    rewrite (split_on_segment_dot _ _ Hp). f_equal. now apply IH.
Qed.

Lemma append_empty_l s t : s +:+ t = "" -> s = "".
Proof. now destruct s. Qed.

Lemma join_with_nonempty parts :
  parts <> [] -> forallb segment_ok parts = true -> join_with "." parts <> "".
Proof.
  destruct parts as [|p r]; intros Hne Hok; [now destruct Hne|].
  cbn [forallb] in Hok. apply andb_prop in Hok as [Hp _].
  unfold segment_ok in Hp. apply andb_prop in Hp as [Hp _].
  apply negb_true_iff, String.eqb_neq in Hp.
  destruct r; simpl; [exact Hp|].
  intros E. now apply append_empty_l in E.
Qed.

Lemma append_assoc3 (s t u : string) : (s +:+ t) +:+ u = s +:+ (t +:+ u).
Proof.
  induction s as [|c s IH]; [reflexivity|].
  change (String c ((s +:+ t) +:+ u) = String c (s +:+ t +:+ u)).
  now f_equal.
Qed.

Lemma join_with_snoc parts k :
  parts <> [] -> join_with "." (parts ++ [k]) = join_with "." parts +:+ "." +:+ k.
Proof.
  induction parts as [|p [|q r] IH]; intros Hne.
  - now destruct Hne.
  - reflexivity.
  - change ((p :: q :: r) ++ [k]) with (p :: (q :: r) ++ [k]).
    cbn [join_with app]. cbn [join_with app] in IH. rewrite IH by discriminate.
    destruct (r ++ [k]) eqn:E; [now destruct r|].
    now rewrite !append_assoc3.
Qed.

Lemma string_of_uint_dot_free d : dot_free (NilEmpty.string_of_uint d) = true.
Proof. induction d; simpl; auto. Qed.

Lemma to_uint_not_Nil i : Nat.to_uint i <> Decimal.Nil.
Proof.
  pose proof (DecimalNat.Unsigned.to_of (Nat.to_uint i)) as E.
  rewrite DecimalNat.Unsigned.of_to in E. rewrite E.
  apply DecimalFacts.unorm_nonnil.
Qed.

Lemma index_key_segment_ok i : segment_ok (index_key i) = true.
Proof.
  unfold segment_ok, index_key. rewrite string_of_uint_dot_free, andb_true_r.
  pose proof (to_uint_not_Nil i) as H. now destruct (Nat.to_uint i).
Qed.

Lemma keys_canonical_entry v k x :
  keys_canonical v = true -> In (k, x) (own_entries v) ->
  segment_ok k = true /\ keys_canonical x = true.
Proof.
  destruct v as [| | | |items|props]; try contradiction.
  - cbn [own_entries]. simpl. generalize 0%nat.
    induction items as [|y r IH]; intros i H Hin; [contradiction|].
    apply andb_prop in H as [Hy Hr]. destruct Hin as [E|Hin].
    + injection E as <- <-. split; [apply index_key_segment_ok|exact Hy].
    + now apply (IH (S i)).
  - simpl. induction props as [|[k' y] r IH]; intros H Hin; [contradiction|].
    apply andb_prop in H as [Hy Hr]. apply andb_prop in Hy as [Hk Hy].
    destruct Hin as [E|Hin].
    + injection E as <- <-. now split.
    + now apply IH.
Qed.

Lemma own_entries_is_object v kv : In kv (own_entries v) -> is_object v = true.
Proof. now destruct v. Qed.

Lemma join_path_join_with pp k :
  forallb segment_ok pp = true ->
  join_path (join_with "." pp) k = join_with "." (pp ++ [k]).
Proof.
  intros Hok. unfold join_path. destruct pp as [|p r]; [reflexivity|].
  rewrite join_with_snoc by discriminate.
  pose proof (join_with_nonempty (p :: r) ltac:(discriminate) Hok) as Hne.
  apply String.eqb_neq in Hne. now rewrite Hne.
Qed.

Lemma forallb_segment_dot_free parts :
  forallb segment_ok parts = true -> forallb dot_free parts = true.
Proof.
  induction parts as [|p r IH]; simpl; [reflexivity|].
  intros H. apply andb_prop in H as [Hp Hr]. unfold segment_ok in Hp.
  apply andb_prop in Hp as [_ Hp]. now rewrite Hp, IH.
Qed.

(** In a well-formed tree, every key path of [flattenKeys] is the join of
    the prefix segments and of segments that lead to a leaf. *)
Lemma flattenKeys_segments :
  forall v,
    keys_distinct v = true -> keys_canonical v = true ->
    forall pp keyPath,
      forallb segment_ok pp = true ->
      In keyPath (flattenKeys v (join_with "." pp)) ->
      exists parts leaf,
        parts <> [] /\ forallb segment_ok parts = true
        /\ keyPath = join_with "." (pp ++ parts)
        /\ walk v parts = Some leaf /\ is_object leaf = false.
Proof.
  induction v as [v IH] using JV_entries_ind.
  intros Hkeys Hcan pp keyPath Hpp Hin.
  rewrite flattenKeys_entries in Hin. apply in_flat_map in Hin as [[k x] [Hkx Hin]].
  cbn [fst snd] in Hin. unfold flatten_visit in Hin.
  rewrite (join_path_join_with pp k Hpp) in Hin.
  destruct (keys_canonical_entry v k x Hcan Hkx) as [Hk Hx].
  assert (Hget : get_prop v k = Some x)
    by (apply get_prop_own_entry; [now apply keys_distinct_own_keys|exact Hkx]).
  assert (Hwalk : forall rest, walk v (k :: rest) = walk x rest).
  { intros rest. cbn [walk].
    now rewrite (own_entries_is_object v _ Hkx), Hget. }
  destruct (is_object x) eqn:Ex.
  - assert (Hpp' : forallb segment_ok (pp ++ [k]) = true).
    { rewrite forallb_app, Hpp. simpl. now rewrite Hk. }
    assert (Hxk : keys_distinct x = true).
    { apply (keys_distinct_child v x Hkeys). now apply (in_map snd) in Hkx. }
    destruct (IH k x Hkx Hxk Hx (pp ++ [k]) keyPath Hpp' Hin)
      as [parts [leaf [Hne [Hok [Hjoin [Hw Hleaf]]]]]].
    exists (k :: parts), leaf. repeat split.
    + discriminate.
    + simpl. now rewrite Hk, Hok.
    + now rewrite <- app_assoc in Hjoin.
    + now rewrite Hwalk.
    + exact Hleaf.
  - destruct Hin as [<-|[]]. exists [k], x. repeat split.
    + discriminate.
    + simpl. now rewrite Hk.
    + now rewrite Hwalk.
    + exact Ex.
Qed.

(** In a well-formed tree every flattened key path resolves to a leaf. *)
Lemma getValueAtPath_flattenKeys v keyPath :
  well_formed v = true -> In keyPath (flattenKeys v "") ->
  exists leaf, getValueAtPath v keyPath = Some leaf /\ is_object leaf = false.
Proof.
  intros Hwf Hin. apply andb_prop in Hwf as [Hkeys Hcan].
  destruct (flattenKeys_segments v Hkeys Hcan [] keyPath eq_refl Hin)
    as [parts [leaf [Hne [Hok [-> [Hw Hleaf]]]]]].
  exists leaf. split; [|exact Hleaf]. unfold getValueAtPath. simpl.
  rewrite split_on_join_with; auto using forallb_segment_dot_free.
Qed.

Lemma getValueType_leaf leaf :
  is_object leaf = false -> getValueType (Some leaf) = TString.
Proof. now destruct leaf. Qed.

Lemma has_key_set keys k : has (key_set keys) k = true -> In k keys.
Proof.
  unfold has, key_set. intros H. apply bool_decide_eq_true in H.
  apply elem_of_list_to_set in H. now apply list_elem_of_In.
Qed.

Lemma flat_map_nil {A B} (f : A -> list B) l :
  (forall x, In x l -> f x = []) -> flat_map f l = [].
Proof.
  induction l as [|x l IH]; intros H; simpl; [reflexivity|].
  rewrite (H x (or_introl eq_refl)), IH; [reflexivity|].
  intros y Hy. apply H. now right.
Qed.

(** The comparison never reports a type mismatch between well-formed
    trees: the loop only looks at key paths that are leaves on both
    sides. *)
Theorem compareTranslations_no_mismatch_well_formed :
  forall S T : JV,
    well_formed S = true -> well_formed T = true ->
    typeMismatches (compareTranslations S T) = [].
Proof.
  intros S T HS HT. unfold compareTranslations. cbn [typeMismatches].
  apply flat_map_nil. intros keyPath Hin. unfold mismatch_visit.
  destruct (has (key_set (flattenKeys T "")) keyPath) eqn:Hhas; [|reflexivity].
  apply has_key_set in Hhas.
  destruct (getValueAtPath_flattenKeys S keyPath HS Hin) as [ls [-> Hls]].
  destruct (getValueAtPath_flattenKeys T keyPath HT Hhas) as [lt [-> Hlt]].
  now rewrite (getValueType_leaf ls Hls), (getValueType_leaf lt Hlt).
Qed.

(** C2 at the input [S = {a: "x"}], [T = {a: {b: "y"}}], and with the two
    trees exchanged: the path [a] is present on both sides, a leaf on one
    and a container on the other, and no type mismatch is reported; [a] is
    reported as missing (or extra) instead. *)
Theorem compareTranslations_leaf_against_container :
  getValueType (getValueAtPath leaf_source "a") = TString
  /\ getValueType (getValueAtPath container_content "a") = TObject
  /\ typeMismatches (compareTranslations leaf_source container_content) = []
  /\ missingInTarget (compareTranslations leaf_source container_content) = ["a"]
  /\ typeMismatches (compareTranslations container_content leaf_source) = []
  /\ extraInTarget (compareTranslations container_content leaf_source) = ["a"].
Proof. vm_compute. repeat split. Qed.

(** ** Empty containers *)

Lemma keys_distinct_object props :
  keys_distinct (JObj props)
  = bool_decide (NoDup (map fst props))
    && forallb (fun kv => keys_distinct (snd kv)) props.
Proof.
  simpl. f_equal. induction props as [|[k x] props IH]; simpl; [reflexivity|].
  now rewrite IH.
Qed.

Lemma keys_distinct_array items :
  keys_distinct (JArr items) = forallb keys_distinct items.
Proof.
  simpl. induction items as [|x items IH]; simpl; [reflexivity|]. now rewrite IH.
Qed.

Lemma keys_canonical_object props :
  keys_canonical (JObj props)
  = forallb (fun kv => segment_ok (fst kv) && keys_canonical (snd kv)) props.
Proof.
  simpl. induction props as [|[k x] props IH]; simpl; [reflexivity|].
  now rewrite IH.
Qed.

Lemma keys_canonical_array items :
  keys_canonical (JArr items) = forallb keys_canonical items.
Proof.
  simpl. induction items as [|x items IH]; simpl; [reflexivity|]. now rewrite IH.
Qed.

Lemma flattenKeys_empty_container e prefix :
  is_empty_container e = true -> flattenKeys e prefix = [].
Proof. now destruct e as [| | | |[|]|[|]]. Qed.

Lemma index_entries_app i l1 l2 :
  index_entries i (l1 ++ l2) =
  index_entries i l1 ++ index_entries (i + List.length l1) l2.
Proof.
  revert i. induction l1 as [|x l1 IH]; intros i; simpl.
  - now rewrite Nat.add_0_r.
  - rewrite IH. do 3 f_equal. lia.
Qed.

Lemma is_object_plug c v v' :
  is_object v = is_object v' -> is_object (plug c v) = is_object (plug c v').
Proof. now destruct c. Qed.

(** Replacing a subtree by one that flattens alike leaves the flattened
    key paths of the whole tree unchanged. *)
Lemma flattenKeys_plug c v v' :
  is_object v = is_object v' ->
  (forall prefix, flattenKeys v prefix = flattenKeys v' prefix) ->
  forall prefix, flattenKeys (plug c v) prefix = flattenKeys (plug c v') prefix.
Proof.
  intros Hobj Hflat. induction c as [|pre k c IH post|pre c IH post];
    intros prefix; [apply Hflat| |].
  - cbn [plug]. rewrite !flattenKeys_entries. cbn [own_entries].
    rewrite !flat_map_app. cbn [flat_map fst snd]. do 2 f_equal.
    unfold flatten_visit. rewrite (is_object_plug c v v' Hobj).
    now rewrite IH.
  - cbn [plug]. rewrite !flattenKeys_entries. cbn [own_entries].
    rewrite !index_entries_app. cbn [index_entries].
    rewrite !flat_map_app. cbn [flat_map fst snd]. do 2 f_equal.
    unfold flatten_visit. rewrite (is_object_plug c v v' Hobj).
    now rewrite IH.
Qed.

Lemma flattenKeys_drop_empty pre key e post prefix :
  is_empty_container e = true ->
  flattenKeys (JObj (pre ++ (key, e) :: post)) prefix
  = flattenKeys (JObj (pre ++ post)) prefix.
Proof.
  intros He. rewrite !flattenKeys_entries. cbn [own_entries].
  rewrite !flat_map_app. cbn [flat_map fst snd]. f_equal.
  unfold flatten_visit.
  replace (is_object e) with true by now destruct e as [| | | |[|]|[|]].
  now rewrite (flattenKeys_empty_container e _ He).
Qed.

(** The report depends on the source only through its flattened key paths,
    type mismatches apart. *)
Lemma same_diff_source S S' T :
  flattenKeys S "" = flattenKeys S' "" ->
  same_diff (compareTranslations S T) (compareTranslations S' T).
Proof.
  intros E. unfold same_diff, compareTranslations. cbn. rewrite E.
  repeat split.
Qed.

Lemma same_diff_target S T T' :
  flattenKeys T "" = flattenKeys T' "" ->
  same_diff (compareTranslations S T) (compareTranslations S T').
Proof.
  intros E. unfold same_diff, compareTranslations. cbn. rewrite E.
  repeat split.
Qed.

(** The paths of the reported type mismatches are flattened key paths of
    both trees. *)
Lemma typeMismatches_paths S T m :
  In m (typeMismatches (compareTranslations S T)) ->
  In (path m) (flattenKeys S "") /\ In (path m) (flattenKeys T "").
Proof.
  unfold compareTranslations. cbn [typeMismatches]. intros Hin.
  apply in_flat_map in Hin as [keyPath [Hk Hm]]. unfold mismatch_visit in Hm.
  destruct (has (key_set (flattenKeys T "")) keyPath) eqn:Hhas; [|contradiction].
  apply has_key_set in Hhas.
  destruct (_ && _); [|contradiction]. destruct Hm as [<-|[]]. now split.
Qed.

(** A report is determined by the flattened key paths of the two trees and
    by the type mismatches. *)
Lemma compareTranslations_eq S S' T T' :
  flattenKeys S "" = flattenKeys S' "" ->
  flattenKeys T "" = flattenKeys T' "" ->
  typeMismatches (compareTranslations S T)
  = typeMismatches (compareTranslations S' T') ->
  compareTranslations S T = compareTranslations S' T'.
Proof.
  unfold compareTranslations. cbn [typeMismatches]. intros E1 E2 E3.
  rewrite E3, E1, E2. reflexivity.
Qed.

(** Replacing a subtree of a well-formed tree by a well-formed one leaves
    the tree well-formed. *)
Lemma well_formed_plug c v v' :
  (well_formed v = true -> well_formed v' = true) ->
  well_formed (plug c v) = true -> well_formed (plug c v') = true.
Proof.
  intros Hv. induction c as [|pre k c IH post|pre c IH post]; cbn [plug].
  - exact Hv.
  - unfold well_formed in *.
    rewrite !keys_distinct_object, !keys_canonical_object.
    rewrite !map_app, !forallb_app. cbn [map forallb fst snd].
    rewrite !andb_true_iff in *.
    intros [[Hnd [Hpre [Hk Hpost]]] [Hcpre [[Hseg Hck] Hcpost]]].
    destruct (IH (conj Hk Hck)) as [Hk' Hck']. tauto.
  - unfold well_formed in *.
    rewrite !keys_distinct_array, !keys_canonical_array.
    rewrite !forallb_app. cbn [forallb].
    rewrite !andb_true_iff in *.
    intros [[Hpre [Hk Hpost]] [Hcpre [Hck Hcpost]]].
    destruct (IH (conj Hk Hck)) as [Hk' Hck']. tauto.
Qed.

(** Dropping a key of a well-formed mapping leaves it well-formed. *)
Lemma well_formed_drop_key pre key e post :
  well_formed (JObj (pre ++ (key, e) :: post)) = true ->
  well_formed (JObj (pre ++ post)) = true.
Proof.
  unfold well_formed.
  rewrite !keys_distinct_object, !keys_canonical_object.
  rewrite !map_app, !forallb_app. cbn [map forallb fst snd].
  rewrite !andb_true_iff.
  intros [[Hnd [Hpre [Hk Hpost]]] [Hcpre [_ Hcpost]]].
  repeat split; try assumption.
  apply bool_decide_eq_true in Hnd. apply bool_decide_eq_true.
  apply NoDup_ListNoDup in Hnd. apply NoDup_ListNoDup.
  now apply List.NoDup_remove_1 in Hnd.
Qed.

(** C10, as amended.  A container without keys yields no key path under
    any prefix, the loop of [flattenKeys] pushes nothing for a key or an
    index that holds one, and it counts for no leaf.  A key of a mapping
    that holds one, at any depth of a tree, can be dropped without changing
    the flattened key paths, and so without changing [missingInTarget],
    [extraInTarget], the key totals or the counts of missing and extra
    keys of a comparison, whether the tree is the source or the target.
    When the keys of the tree and of the other tree are distinct, not
    empty and free of dots, no type mismatch is reported with the key or
    without it, and the whole report is unchanged. *)
Theorem empty_container_invisible :
  forall (e : JV),
    is_empty_container e = true ->
    (forall prefix, flattenKeys e prefix = [])
    /\ (forall prefix key, flatten_visit flattenKeys prefix key e = [])
    /\ countLeafKeys e = 0%nat
    /\ forall (c : Position) (pre post : list (string * JV)) (key : string)
              (other : JV),
        let with_key := plug c (JObj (pre ++ (key, e) :: post)) in
        let without := plug c (JObj (pre ++ post)) in
        flattenKeys with_key "" = flattenKeys without ""
        /\ same_diff (compareTranslations with_key other)
             (compareTranslations without other)
        /\ same_diff (compareTranslations other with_key)
             (compareTranslations other without)
        /\ (well_formed with_key = true -> well_formed other = true ->
            typeMismatches (compareTranslations with_key other) = []
            /\ typeMismatches (compareTranslations other with_key) = []
            /\ compareTranslations with_key other
               = compareTranslations without other
            /\ compareTranslations other with_key
               = compareTranslations other without).
Proof.
  intros e He. split; [|split; [|split]].
  - intros prefix. now apply flattenKeys_empty_container.
  - intros prefix key. unfold flatten_visit.
    rewrite (flattenKeys_empty_container e _ He). now destruct e.
  - now destruct e as [| | | |[|]|[|]].
  - intros c pre post key other with_key without.
    assert (Hflat : flattenKeys with_key "" = flattenKeys without "").
    { apply flattenKeys_plug; [reflexivity|].
      intros prefix. now apply flattenKeys_drop_empty. }
    split; [exact Hflat|]. split; [now apply same_diff_source|].
    split; [now apply same_diff_target|].
    intros Hwf Hother.
    assert (Hwf' : well_formed without = true).
    { revert Hwf. apply well_formed_plug, well_formed_drop_key. }
    pose proof (compareTranslations_no_mismatch_well_formed with_key other Hwf Hother)
      as H1.
    pose proof (compareTranslations_no_mismatch_well_formed other with_key Hother Hwf)
      as H2.
    pose proof (compareTranslations_no_mismatch_well_formed without other Hwf' Hother)
      as H3.
    pose proof (compareTranslations_no_mismatch_well_formed other without Hother Hwf')
      as H4.
    split; [exact H1|]. split; [exact H2|]. split.
    + apply compareTranslations_eq; [exact Hflat|reflexivity|]. now rewrite H1, H3.
    + apply compareTranslations_eq; [reflexivity|exact Hflat|]. now rewrite H2, H4.
Qed.

(** The source [{a: {b: "Hi", empty: {}}}] against the target
    [{a: {b: "Hallo"}}]. *)
Lemma empty_container_invisible_witness :
  flattenKeys (JObj [("a", JObj [("b", JStr "Hi"); ("empty", JObj [])])]) ""
  = ["a.b"]
  /\ compareTranslations
       (JObj [("a", JObj [("b", JStr "Hi"); ("empty", JObj [])])])
       (JObj [("a", JObj [("b", JStr "Hallo")])])
     = compareTranslations
         (JObj [("a", JObj [("b", JStr "Hi")])])
         (JObj [("a", JObj [("b", JStr "Hallo")])]).
Proof.
  destruct (empty_container_invisible (JObj []) eq_refl) as (_ & _ & _ & H).
  destruct (H (InKey [] "a" Here []) [("b", JStr "Hi")] [] "empty"
              (JObj [("a", JObj [("b", JStr "Hallo")])]))
    as [Hflat [_ [_ Hwf]]].
  destruct (Hwf eq_refl eq_refl) as [_ [_ [Hreport _]]].
  split; [exact Hflat|exact Hreport].
Defined.

(** C10 fails as stated: in the source [{a: {empty: {}}, "a.empty": "x"}]
    the key [a.empty], which holds a dot, lists the key path of the empty
    container; against the target [{a: {empty: "s"}}] a type mismatch is
    reported at [a.empty], with the shape of the empty container, and it is
    not reported once the empty container is dropped. *)
Lemma empty_container_counterexample :
  ~ (forall (c : Position) (pre post : list (string * JV)) (key : string)
            (e other : JV),
        is_empty_container e = true ->
        typeMismatches
          (compareTranslations (plug c (JObj (pre ++ (key, e) :: post))) other)
        = typeMismatches
            (compareTranslations (plug c (JObj (pre ++ post))) other)).
Proof.
  intros H.
  specialize (H (InKey [] "a" Here [("a.empty", JStr "x")]) [] [] "empty"
                (JObj []) (JObj [("a", JObj [("empty", JStr "s")])]) eq_refl).
  vm_compute in H. discriminate H.
Qed.

(** ** The bounded pool *)

Section PoolProperties.
Variable contexts : list TranslationContext.
Variable code : string.
Variable cap : nat.
Variable answer : nat -> CallOutcome.


Lemma filter_remove_absent (i : nat) (l : list nat) :
  ~ In i l -> List.filter (fun j => negb (j =? i)%nat) l = l.
Proof.
  induction l as [|x l IH]; intros Hnot; simpl; [reflexivity|].
  destruct (x =? i)%nat eqn:E.
  - apply Nat.eqb_eq in E. subst x. destruct Hnot. now left.
  - simpl. f_equal. apply IH. intros Hin. apply Hnot. now right.
Qed.

Lemma filter_remove_length (i : nat) (l : list nat) :
  List.NoDup l -> In i l ->
  S (List.length (List.filter (fun j => negb (j =? i)%nat) l)) = List.length l.
Proof.
  induction l as [|x l IH]; intros Hnd Hin; [contradiction|].
  inversion Hnd as [|? ? Hx Hl]; subst. simpl.
  destruct (x =? i)%nat eqn:E.
  - apply Nat.eqb_eq in E. subst x. simpl.
    now rewrite filter_remove_absent.
  - simpl. f_equal. apply IH; [exact Hl|].
    destruct Hin as [->|Hin]; [|exact Hin].
    now rewrite Nat.eqb_refl in E.
Qed.

Lemma filter_remove_In (i j : nat) (l : list nat) :
  In j (List.filter (fun j => negb (j =? i)%nat) l) <-> In j l /\ j <> i.
Proof.
  rewrite filter_In. rewrite negb_true_iff, Nat.eqb_neq. tauto.
Qed.

Lemma pool_start_consistent : pool_consistent contexts code answer (pool_start contexts).
Proof.
  unfold pool_consistent, pool_start. cbn.
  repeat split; try lia; try constructor; try contradiction.
  - apply length_replicate.
  - intros i Hi _. now apply lookup_replicate_2.
Qed.

Lemma dispatch_consistent st :
  pool_consistent contexts code answer st -> (index st < List.length contexts)%nat ->
  pool_consistent contexts code answer (dispatch st).
Proof.
  intros (Hlen & Hidx & Hnd & Hlt & Hrun & Hcnt & Hdone & Hhole) Hroom.
  unfold pool_consistent, dispatch. cbn. repeat split.
  - exact Hlen.
  - exact Hroom.
  - apply List.NoDup_app; [exact Hnd|repeat constructor; intros []|].
    intros j Hj [<-|[]]. apply Hlt in Hj. lia.
  - intros j Hj. apply in_app_or in Hj as [Hj|[<-|[]]]; [apply Hlt in Hj|]; lia.
  - rewrite length_app. simpl. lia.
  - lia.
  - intros i Hi Hnot. apply Hdone.
    + assert (i <> index st) by (intros ->; apply Hnot, in_or_app; right; now left).
      lia.
    + intros Hin. apply Hnot, in_or_app. now left.
  - intros i Hi [Hge|Hin]; apply Hhole; try exact Hi.
    + left. lia.
    + apply in_app_or in Hin as [Hin|[<-|[]]]; [now right|left; lia].
Qed.

Lemma runNext_loop_spec fuel st :
  pool_consistent contexts code answer st -> (List.length contexts - index st <= fuel)%nat ->
  let st' := runNext_loop contexts cap fuel st in
  pool_consistent contexts code answer st'
  /\ completed st' = completed st
  /\ resolved st' = resolved st
  /\ ((cap <= running st')%nat \/ index st' = List.length contexts).
Proof.
  revert st. induction fuel as [|fuel IH]; intros st Hst Hfuel; simpl.
  - pose proof Hst as (_ & Hidx & _).
    split; [exact Hst|]. do 2 (split; [reflexivity|]).
    right. lia.
  - destruct ((running st <? cap)%nat && (index st <? List.length contexts)%nat)
      eqn:E.
    + apply andb_prop in E as [_ E]. apply Nat.ltb_lt in E.
      destruct (IH (dispatch st)) as (H1 & H2 & H3 & H4).
      * now apply dispatch_consistent.
      * simpl. lia.
      * split; [exact H1|]. split; [exact H2|]. split; [exact H3|exact H4].
    + split; [exact Hst|]. do 2 (split; [reflexivity|]).
      apply andb_false_iff in E as [E|E]; apply Nat.ltb_ge in E.
      * now left.
      * right. destruct Hst as (_ & Hidx & _). lia.
Qed.

Lemma runNext_spec st :
  pool_consistent contexts code answer st ->
  let st' := runNext contexts cap st in
  pool_consistent contexts code answer st'
  /\ completed st' = completed st
  /\ resolved st' = resolved st
  /\ ((cap <= running st')%nat \/ index st' = List.length contexts).
Proof. intros Hst. now apply runNext_loop_spec. Qed.

(** The state [translateBatch] starts from satisfies the invariant. *)
Lemma pool_init_invariant :
  contexts <> [] ->
  pool_consistent contexts code answer (pool_init contexts cap)
  /\ pool_settled contexts cap (pool_init contexts cap)
  /\ completed (pool_init contexts cap) = 0%nat.
Proof.
  intros Hne. unfold pool_init.
  destruct (runNext_spec (pool_start contexts) pool_start_consistent)
    as (H1 & H2 & H3 & H4).
  split; [exact H1|]. split; [|exact H2].
  unfold pool_settled. rewrite H2, H3. simpl. split.
  - intros _. split; [reflexivity|exact H4].
  - intros E. destruct contexts; [now destruct Hne|discriminate].
Qed.

(** One settlement keeps the invariant and counts for one completion. *)
Lemma settle_invariant st i :
  pool_consistent contexts code answer st -> pool_settled contexts cap st ->
  In i (inflight st) ->
  let st' := settle contexts code cap answer i st in
  pool_consistent contexts code answer st'
  /\ pool_settled contexts cap st'
  /\ completed st' = S (completed st).
Proof.
  intros (Hlen & Hidx & Hnd & Hlt & Hrun & Hcnt & Hdone & Hhole) [Hopen Hclosed] Hin.
  pose proof (Hlt i Hin) as Hi.
  pose proof (filter_remove_length i (inflight st) Hnd Hin) as Hfl.
  set (mid := mkPool (S (completed st)) (pred (running st)) (index st)
                (<[i := settled_result contexts code answer i]> (results st))
                (List.filter (fun j => negb (j =? i)%nat) (inflight st))
                (progress st ++ [(S (completed st), List.length contexts)])
                (resolved st)).
  assert (Hmid : pool_consistent contexts code answer mid).
  { unfold pool_consistent, mid. cbn. repeat split.
    - now rewrite length_insert.
    - exact Hidx.
    - now apply List.NoDup_filter.
    - intros j Hj. apply filter_remove_In in Hj as [Hj _]. now apply Hlt.
    - lia.
    - lia.
    - intros j Hj Hnot. destruct (Nat.eq_dec j i) as [->|Hne].
      + apply list_lookup_insert_eq. lia.
      + rewrite list_lookup_insert_ne by congruence. apply Hdone; [exact Hj|].
        intros Hjin. apply Hnot, filter_remove_In. now split.
    - intros j Hj Hor.
      assert (Hne : j <> i).
      { destruct Hor as [Hge|Hjin]; [lia|].
        now apply filter_remove_In in Hjin as [_ Hne]. }
      rewrite list_lookup_insert_ne by congruence. apply Hhole; [exact Hj|].
      destruct Hor as [Hge|Hjin]; [now left|right].
      now apply filter_remove_In in Hjin as [Hjin _]. }
  assert (Hlt_n : (completed st < List.length contexts)%nat) by lia.
  destruct (Hopen Hlt_n) as [Hres _].
  unfold settle. fold mid.
  destruct (S (completed st) =? List.length contexts)%nat eqn:E.
  - apply Nat.eqb_eq in E. rewrite Hres.
    change (pool_consistent contexts code answer
              (mkPool (completed mid) (running mid) (index mid) (results mid)
                 (inflight mid) (progress mid) (Some (results mid)))
            /\ pool_settled contexts cap
                 (mkPool (completed mid) (running mid) (index mid) (results mid)
                    (inflight mid) (progress mid) (Some (results mid)))
            /\ S (completed st) = S (completed st)).
    split; [exact Hmid|]. split; [|reflexivity].
    unfold pool_settled. cbn. split; [lia|reflexivity].
  - apply Nat.eqb_neq in E.
    destruct (runNext_spec mid Hmid) as (H1 & H2 & H3 & H4).
    split; [exact H1|]. split; [|exact H2].
    unfold pool_settled. rewrite H2, H3. cbn. split.
    + intros _. now split.
    + intros E'. now destruct E.
Qed.

(** After [m] settlements from the start, [m] calls have completed. *)
Lemma pool_steps_invariant m st st' :
  pool_consistent contexts code answer st -> pool_settled contexts cap st ->
  pool_steps contexts code cap answer m st st' ->
  pool_consistent contexts code answer st'
  /\ pool_settled contexts cap st'
  /\ completed st' = (completed st + m)%nat.
Proof.
  intros Hc Hs Hsteps. induction Hsteps as [st|m st st1 st2 Hstep Hsteps IH].
  - split; [exact Hc|]. split; [exact Hs|lia].
  - destruct Hstep as [st i Hin].
    destruct (settle_invariant st i Hc Hs Hin) as (Hc1 & Hs1 & Hdone).
    destruct (IH Hc1 Hs1) as (Hc2 & Hs2 & Hcount).
    split; [exact Hc2|]. split; [exact Hs2|lia].
Qed.

(** When every call has settled, the array holds the expected entries. *)
Lemma pool_complete_results st :
  pool_consistent contexts code answer st -> completed st = List.length contexts ->
  results st = expected_results contexts code answer /\ inflight st = [].
Proof.
  intros (Hlen & Hidx & Hnd & Hlt & Hrun & Hcnt & Hdone & Hhole) Hall.
  assert (Hr : running st = 0%nat) by lia.
  assert (Hin : inflight st = []) by (destruct (inflight st); [reflexivity|simpl in Hrun; lia]).
  split; [|exact Hin].
  apply list_eq. intros i. unfold expected_results.
  rewrite list_lookup_imap.
  destruct (contexts !! i) as [context|] eqn:Hctx.
  - assert (Hi : (i < List.length contexts)%nat) by (apply lookup_lt_Some in Hctx; exact Hctx).
    rewrite Hdone; [|lia|rewrite Hin; intros []].
    unfold settled_result, expected_result, translateString, fallback_result.
    rewrite Hctx. simpl. now destruct (answer i).
  - apply lookup_ge_None in Hctx. apply lookup_ge_None. lia.
Qed.
End PoolProperties.

Lemma expected_results_length contexts code answer :
  List.length (expected_results contexts code answer) = List.length contexts.
Proof. unfold expected_results. apply length_imap. Qed.

(** Entry [i] of the expected sequence is built from context [i]; a failed
    call leaves the source value. *)
Lemma expected_results_entry contexts code answer i context :
  contexts !! i = Some context ->
  exists r,
    expected_results contexts code answer !! i = Some (Some r)
    /\ key r = ctx_key context
    /\ originalValue r = englishValue context
    /\ targetLanguage r = code
    /\ (answer i = Rejected -> translatedValue r = JStr (englishValue context))
    /\ (forall t, answer i = Fulfilled t -> translatedValue r = JStr t).
Proof.
  intros Hctx. exists (expected_result code answer i context).
  unfold expected_results. rewrite list_lookup_imap, Hctx. simpl.
  split; [reflexivity|]. unfold expected_result.
  destruct (answer i) as [t|]; simpl; repeat split; try congruence.
Qed.

(** Pool result integrity for a non-empty batch.  With at least one
    context and a cap of at least one, every execution of the pool, in any
    order of completion and for any set of failing calls, settles at most
    [n] calls; before the [n]-th completion the promise is unresolved and
    some call is in flight, so that the execution goes on; at the [n]-th
    completion the promise is resolved with [n] entries, entry [i] built
    from context [i], failed entries holding the source value. *)
Theorem translateBatch_pool_integrity :
  forall (contexts : list TranslationContext) (code : string) (cap : nat)
         (answer : nat -> CallOutcome),
    contexts <> [] -> (1 <= cap)%nat ->
    forall (m : nat) (st : Pool),
      pool_steps contexts code cap answer m (pool_init contexts cap) st ->
      (m <= List.length contexts)%nat
      /\ ((m < List.length contexts)%nat ->
          resolved st = None
          /\ exists st', pool_step contexts code cap answer st st')
      /\ (m = List.length contexts ->
          resolved st = Some (expected_results contexts code answer)
          /\ List.length (expected_results contexts code answer) = List.length contexts
          /\ (forall st', ~ pool_step contexts code cap answer st st')).
Proof.
  intros contexts code cap answer Hne Hcap m st Hsteps.
  destruct (pool_init_invariant contexts code cap answer Hne) as (Hc0 & Hs0 & Hz).
  destruct (pool_steps_invariant contexts code cap answer m _ _ Hc0 Hs0 Hsteps)
    as (Hc & [Hopen Hclosed] & Hm).
  rewrite Hz in Hm. simpl in Hm.
  pose proof Hc as (Hlen & Hidx & Hnd & Hlt & Hrun & Hcnt & Hdone & Hhole).
  split; [lia|]. split.
  - intros Hless. rewrite <- Hm in Hless. destruct (Hopen Hless) as [Hres Hsat].
    split; [exact Hres|].
    assert (Hpos : (0 < running st)%nat) by lia.
    rewrite Hrun in Hpos. destruct (inflight st) as [|i rest] eqn:E;
      [simpl in Hpos; lia|].
    exists (settle contexts code cap answer i st). constructor.
    rewrite E. now left.
  - intros Hall. rewrite <- Hm in Hall.
    destruct (pool_complete_results contexts code answer st Hc Hall) as [Hres Hnone].
    split; [rewrite (Hclosed Hall); now f_equal|].
    split; [apply expected_results_length|].
    intros st' Hstep. destruct Hstep as [st i Hin]. rewrite Hnone in Hin.
    contradiction.
Qed.

(** Five items with a cap of two, the third call failing: after any three
    settlements the promise is still unresolved. *)
Lemma translateBatch_pool_integrity_witness :
  forall st,
    pool_steps five_contexts "de" 2 third_fails 3 (pool_init five_contexts 2) st ->
    resolved st = None.
Proof.
  intros st Hsteps.
  destruct (translateBatch_pool_integrity five_contexts "de" 2 third_fails
              ltac:(discriminate) ltac:(lia) 3 st Hsteps) as (_ & Hopen & _).
  apply Hopen. simpl. lia.
Defined.

(** The fallback scenario of the specification, run in the completion
    order 1, 2, 0, 4, 3: the promise is resolved with the five entries in
    input order, the third being its source value. *)
Lemma translateBatch_scenario_fallback :
  option_map resolved
    (run_schedule five_contexts "de" 2 third_fails [1; 2; 0; 4; 3]%nat
       (pool_init five_contexts 2))
  = Some (Some (expected_results five_contexts "de" third_fails))
  /\ expected_results five_contexts "de" third_fails !! 2%nat
     = Some (Some (mkResult "k3" "three" (JStr "three") "de")).
Proof. split; reflexivity. Qed.

(** When no call can be started, on an empty batch or with a cap of zero,
    the pool has nothing in flight and an unresolved promise. *)
Lemma pool_init_idle contexts cap :
  contexts = [] \/ cap = 0%nat ->
  pool_init contexts cap = pool_start contexts.
Proof.
  intros [-> | ->]; [reflexivity|].
  unfold pool_init, runNext.
  now destruct (List.length contexts - index (pool_start contexts))%nat.
Qed.

(** C3 at the input [contexts = []]: [runNext] starts no call, so no
    completion ever runs the [finally] handler that calls [resolve].  The
    promise of [translateBatch] is never resolved: the only state an
    execution reaches is the initial one. *)
Theorem translateBatch_empty_never_resolves :
  forall (code : string) (cap : nat) (answer : nat -> CallOutcome)
         (m : nat) (st : Pool),
    pool_steps [] code cap answer m (pool_init [] cap) st ->
    m = 0%nat /\ st = pool_start [] /\ resolved st = None /\ inflight st = [].
Proof.
  intros code cap answer m st Hsteps.
  rewrite (pool_init_idle [] cap (or_introl eq_refl)) in Hsteps.
  inversion Hsteps as [st0|m' st0 st1 st2 Hstep Hrest]; subst.
  - repeat split.
  - inversion Hstep as [st0 i Hin]; subst. contradiction.
Qed.

(** The empty batch before any settlement. *)
Lemma translateBatch_empty_never_resolves_witness :
  resolved (pool_init [] 50) = None.
Proof.
  exact (proj1 (proj2 (proj2
           (translateBatch_empty_never_resolves "de" 50 always_T 0
              (pool_init [] 50) (steps_refl [] "de" 50 always_T _))))).
Defined.

(** The spelled-out outcome of [translateBatch] agrees with the pool: it
    resolves to the value every complete execution resolves the promise
    with. *)
Lemma translateBatch_outcome_pool contexts code cap answer st :
  contexts <> [] -> (1 <= cap)%nat ->
  pool_steps contexts code cap answer (List.length contexts)
    (pool_init contexts cap) st ->
  translateBatch_outcome contexts code cap answer
  = match resolved st with
    | Some rs => Resolves rs
    | None => NeverSettles
    end.
Proof.
  intros Hne Hcap Hsteps.
  destruct (translateBatch_pool_integrity contexts code cap answer Hne Hcap _ _ Hsteps)
    as (_ & _ & Hfull).
  destruct (Hfull eq_refl) as [-> _].
  unfold translateBatch_outcome. destruct contexts; [now destruct Hne|].
  destruct cap; [lia|reflexivity].
Qed.

(** When no call can be started, no execution resolves the promise, as
    the spelled-out outcome says. *)
Lemma translateBatch_outcome_idle contexts code cap answer m st :
  contexts = [] \/ cap = 0%nat ->
  pool_steps contexts code cap answer m (pool_init contexts cap) st ->
  resolved st = None
  /\ translateBatch_outcome contexts code cap answer = NeverSettles.
Proof.
  intros Hidle Hsteps. rewrite (pool_init_idle contexts cap Hidle) in Hsteps.
  split.
  - inversion Hsteps as [st0|m' st0 st1 st2 Hstep Hrest]; subst; [reflexivity|].
    inversion Hstep as [st0 i Hin]; subst. contradiction.
  - unfold translateBatch_outcome. destruct Hidle as [-> | ->]; [reflexivity|].
    now destruct contexts.
Qed.

(** A run whose only missing key is a pass-through key hands the empty
    batch to [translateBatch] and never returns its result. *)
Example scenario_only_pass_through :
  translateMissingKeys defaultConfig hero_file ["hero.links.0.href"] "de"
    good_provider always_T
  = NeverSettles.
Proof. reflexivity. Qed.

(** ** Joint translation of a description and its links *)

(** What [translateDescriptionWithLinks] returns, by response: the result
    of the independent translation of the description when reading the
    response throws (it is no JSON, or it is [null]); the results of the
    [try] block for any other response, and none when it has neither a
    string [description] nor an array [linkTexts]. *)
Lemma translateDescriptionWithLinks_cases :
  forall (patterns : list LinkedContentPattern)
         (descriptionKey description : string) (linkTexts : list string)
         (code : string) (fallback : CallOutcome),
    translateDescriptionWithLinks patterns descriptionKey description linkTexts
      code ParseThrows fallback
    = description_only descriptionKey description code fallback
    /\ translateDescriptionWithLinks patterns descriptionKey description linkTexts
         code (Parsed JNull) fallback
       = description_only descriptionKey description code fallback
    /\ forall parsed : JV,
        parsed <> JNull ->
        translateDescriptionWithLinks patterns descriptionKey description
          linkTexts code (Parsed parsed) fallback
        = Some (structured_results patterns descriptionKey description
                  linkTexts code parsed)
        /\ ((forall d, get_prop parsed "description" <> Some (JStr d)) ->
            (forall l, get_prop parsed "linkTexts" <> Some (JArr l)) ->
            translateDescriptionWithLinks patterns descriptionKey description
              linkTexts code (Parsed parsed) fallback
            = Some []).
Proof.
  intros patterns descriptionKey description linkTexts code fallback.
  split; [now destruct fallback|]. split; [now destruct fallback|].
  intros parsed Hnull.
  assert (E : translateDescriptionWithLinks patterns descriptionKey description
                linkTexts code (Parsed parsed) fallback
              = Some (structured_results patterns descriptionKey description
                        linkTexts code parsed))
    by (destruct parsed; [now destruct Hnull|reflexivity..]).
  split; [exact E|]. intros Hd Hl. rewrite E. unfold structured_results.
  destruct (get_prop parsed "description") as [[| | |d| |]|];
    try (now destruct (Hd d));
    destruct (get_prop parsed "linkTexts") as [[| | | |l|]|];
    try reflexivity; now destruct (Hl l).
Qed.

(** C5 at the response [{}], whatever the description, the link texts and
    the patterns: the response parses and is no structure with a string
    description and a list of link texts, and the joint translation
    returns no result at all, whatever the independent translation of the
    description would answer; the description is translated on its own
    only when reading the response throws, as for a response that is no
    JSON, where an independent translation that answers ["T"] gives the
    description result with ["T"]. *)
Theorem translateDescriptionWithLinks_empty_structure :
  forall (patterns : list LinkedContentPattern)
         (descriptionKey description : string) (linkTexts : list string)
         (code : string) (fallback : CallOutcome),
    ~ interpretable (Parsed (JObj []))
    /\ translateDescriptionWithLinks patterns descriptionKey description linkTexts
         code (Parsed (JObj [])) fallback
       = Some []
    /\ translateDescriptionWithLinks patterns descriptionKey description linkTexts
         code ParseThrows fallback
       = description_only descriptionKey description code fallback
    /\ description_only descriptionKey description code (Fulfilled "T")
       = Some [mkResult descriptionKey description (JStr "T") code].
Proof.
  intros patterns descriptionKey description linkTexts code fallback.
  split; [|split; [|split]].
  - intros [[d Hd] _]. discriminate Hd.
  - reflexivity.
  - now destruct fallback.
  - reflexivity.
Qed.

(** ** The classifier *)

(** C4 at the input where [hero.description] matches both a pass-through
    pattern and the description pattern of a section with links: the key is
    in both groups, and the run returns two results for it, the copied
    source value first and the joint translation after it. *)
Theorem classify_overlapping_patterns :
  let keys := ["hero.title"; "hero.description"; "hero.links.0.text";
               "hero.links.0.href"] in
  let groups := classify overlapping_config hero_file keys in
  hrefKeys groups = ["hero.description"; "hero.links.0.href"]
  /\ descriptionKeysWithLinks groups = ["hero.description"]
  /\ normalKeys groups = ["hero.title"]
  /\ option_map result_keys
       (match translateMissingKeys overlapping_config hero_file keys "de"
                good_provider always_T with
        | Resolves rs => Some rs
        | _ => None
        end)
     = Some ["hero.description"; "hero.links.0.href"; "hero.description";
             "hero.links.0.text"; "hero.title"].
Proof. vm_compute. repeat split. Qed.

(** ** Similarity score *)

Lemma overlap_members (a b : gset string) w :
  In w (List.filter (fun word => has b word) (elements a)) <-> w ∈ a ∩ b.
Proof.
  rewrite filter_In, <- list_elem_of_In, elem_of_elements, elem_of_intersection.
  unfold has. now rewrite bool_decide_eq_true.
Qed.

Lemma overlap_NoDup (a b : gset string) :
  List.NoDup (List.filter (fun word => has b word) (elements a)).
Proof. apply List.NoDup_filter, NoDup_ListNoDup, NoDup_elements. Qed.

(** The loop counts the words of the intersection. *)
Lemma overlap_count_intersection (a b : gset string) :
  overlap_count a b = size (a ∩ b).
Proof.
  unfold overlap_count, size, set_size. simpl.
  apply Permutation_length, NoDup_Permutation.
  - apply NoDup_ListNoDup, overlap_NoDup.
  - apply NoDup_elements.
  - intros w. now rewrite list_elem_of_In, overlap_members, elem_of_elements.
Qed.

Lemma overlap_count_comm (a b : gset string) :
  overlap_count a b = overlap_count b a.
Proof.
  rewrite !overlap_count_intersection. f_equal. apply leibniz_equiv.
  apply intersection_comm; apply _.
Qed.

Lemma overlap_count_le (a b : gset string) :
  (overlap_count a b <= size a)%nat /\ (overlap_count a b <= size b)%nat.
Proof.
  rewrite !overlap_count_intersection.
  split; apply subseteq_size; [apply intersection_subseteq_l|apply intersection_subseteq_r].
Qed.

(** C8.  The score is symmetric, lies between 0 and 1, is 0 when either
    set is empty, and is the quotient of the size of the intersection by
    the size of the union, [|A| + |B| - |A ∩ B|], otherwise. *)
Theorem similarityScore_symmetric_bounded :
  forall (A B : gset string),
    similarityScore A B = similarityScore B A
    /\ (0 <= similarityScore A B)%Q
    /\ (similarityScore A B <= 1)%Q
    /\ (size A = 0%nat \/ size B = 0%nat -> similarityScore A B = 0%Q)
    /\ (size A <> 0%nat -> size B <> 0%nat ->
        (similarityScore A B ==
         inject_Z (Z.of_nat (size (A ∩ B)))
         / inject_Z (Z.of_nat (size A + size B - size (A ∩ B))))%Q).
Proof.
  intros A B. pose proof (overlap_count_le A B) as [HleA HleB].
  pose proof (overlap_count_comm A B) as Hcomm.
  pose proof (overlap_count_intersection A B) as Hinter.
  repeat split.
  - unfold similarityScore. rewrite <- Hcomm, (orb_comm (size B =? 0)%nat).
    now rewrite (Nat.add_comm (size B)).
  - unfold similarityScore. destruct (_ || _); [discriminate|].
    destruct (overlap_count A B =? 0)%nat; [discriminate|].
    unfold Qle. simpl. lia.
  - unfold similarityScore. destruct (_ || _); [discriminate|].
    destruct (overlap_count A B =? 0)%nat eqn:E; [discriminate|].
    apply Nat.eqb_neq in E. unfold Qle. simpl.
    rewrite Z.mul_1_r, Z.mul_1_l.
    rewrite <- positive_nat_Z, Nat2Pos.id by lia. lia.
  - intros [E|E]; unfold similarityScore; rewrite E; simpl;
      [reflexivity|now rewrite orb_true_r].
  - intros HA HB. unfold similarityScore.
    apply Nat.eqb_neq in HA, HB. rewrite HA, HB. simpl. rewrite <- Hinter.
    destruct (overlap_count A B =? 0)%nat eqn:E.
    + apply Nat.eqb_eq in E. rewrite E. simpl. unfold Qdiv.
      now rewrite Qmult_0_l.
    + apply Nat.eqb_neq in E. rewrite Qmake_Qdiv.
      rewrite <- positive_nat_Z, Nat2Pos.id by lia. reflexivity.
Qed.

(** The token sets [{"save", "changes"}] and [{"changes", "discard", "now"}]
    share one word out of four. *)
Lemma similarityScore_symmetric_bounded_witness :
  (similarityScore (list_to_set ["save"; "changes"])
     (list_to_set ["changes"; "discard"; "now"])
   == inject_Z 1 / inject_Z 4)%Q.
Proof.
  destruct (similarityScore_symmetric_bounded
              (list_to_set ["save"; "changes"])
              (list_to_set ["changes"; "discard"; "now"]))
    as (_ & _ & _ & _ & H).
  apply H; vm_compute; discriminate.
Defined.

(** ** The groups of the classifier *)

Lemma last_char_append s t : t <> "" -> last_char (s +:+ t) = last_char t.
Proof.
  intros Ht. induction s as [|c s IH]; [reflexivity|].
  change (last_char (String c (s +:+ t)) = last_char t).
  cbn [last_char]. destruct (s +:+ t) eqn:E; [|exact IH].
  apply append_empty_l in E as Hs. subst s. simpl in E. now destruct Ht.
Qed.

Lemma endsWith_last_char s suffix :
  endsWith s suffix = true -> suffix <> "" -> last_char s = last_char suffix.
Proof.
  intros H Hne. induction s as [|c s IH]; cbn [endsWith] in H.
  - rewrite orb_false_r in H. apply String.eqb_eq in H. now subst.
  - apply orb_prop in H as [H|H].
    + apply String.eqb_eq in H. now subst.
    + rewrite <- (IH H). cbn [last_char]. destruct s; [|reflexivity].
      cbn [endsWith] in H. rewrite orb_false_r in H. apply String.eqb_eq in H.
      now destruct Hne.
Qed.

Lemma skipped_for_last_char englishFile descKey k :
  In k (skipped_for englishFile [] descKey) -> last_char k = Some "t"%char.
Proof.
  unfold skipped_for. destruct (getDescriptionParentPath descKey []) as [p|];
    [|contradiction].
  destruct (getValueAtPath englishFile p) as [parent|]; [|contradiction].
  destruct (get_prop parent (linksKey_of [])) as [[| | | |links|]|];
    try contradiction.
  unfold getLinkTextKeyPaths. intros Hin. apply in_map_iff in Hin as [i [<- _]].
  cbn [textField_of linksKey_of].
  rewrite <- !append_assoc3. now rewrite last_char_append.
Qed.

(** What the classifier guarantees: every string key is in some group;
    the ordinary group is disjoint from the pass-through group and from the
    joint group (description keys and skipped link-text keys); with the
    default patterns, the pass-through group is disjoint from the joint
    group as well. *)
Theorem classify_partition :
  forall (config : Transl8Config) (englishFile : JV) (stringKeys : list string)
         (k : string),
    In k stringKeys ->
    let groups := classify config englishFile stringKeys in
    (In k (hrefKeys groups) \/ In k (descriptionKeysWithLinks groups)
     \/ k ∈ linkTextKeysToSkip groups \/ In k (normalKeys groups))
    /\ (In k (normalKeys groups) ->
        ~ In k (hrefKeys groups) /\ ~ In k (descriptionKeysWithLinks groups)
        /\ k ∉ linkTextKeysToSkip groups)
    /\ (hrefPatterns config = ["*.href"] -> linkedContentPatterns config = [] ->
        In k (hrefKeys groups) ->
        ~ In k (descriptionKeysWithLinks groups)
        /\ k ∉ linkTextKeysToSkip groups).
Proof.
  intros config englishFile stringKeys k Hk groups. subst groups.
  unfold classify. cbn [hrefKeys descriptionKeysWithLinks linkTextKeysToSkip normalKeys].
  set (patterns := linkedContentPatterns config).
  set (descs := List.filter (hasLinkedSection englishFile patterns) stringKeys).
  set (skip := list_to_set (flat_map (skipped_for englishFile patterns) descs)
               : gset string).
  rewrite !filter_In. split; [|split].
  - destruct (isHrefKey k (hrefPatterns config)) eqn:Eh; [now left; split|].
    destruct (bool_decide (k ∈ descs)) eqn:Ed.
    { right. left. apply bool_decide_eq_true in Ed.
      now apply list_elem_of_In in Ed. }
    destruct (has skip k) eqn:Es.
    { right. right. left. unfold has in Es. now apply bool_decide_eq_true in Es. }
    right. right. right. now split.
  - intros [_ Hn]. apply andb_prop in Hn as [Hn Hs]. apply andb_prop in Hn as [Hh Hd].
    apply negb_true_iff in Hh, Hd, Hs. repeat split.
    + intros [_ Hh']. congruence.
    + intros Hin. apply bool_decide_eq_false in Hd. apply Hd.
      now apply list_elem_of_In.
    + intros Hin. unfold has in Hs. now apply bool_decide_eq_false in Hs.
  - intros Hhref Hpat [_ Hh]. subst patterns. rewrite Hhref in Hh.
    unfold isHrefKey in Hh. simpl in Hh. rewrite orb_false_r in Hh.
    pose proof (endsWith_last_char k ".href" Hh ltac:(discriminate)) as Hlast.
    simpl in Hlast. split.
    + intros Hd. unfold descs in Hd. apply filter_In in Hd as [_ Hd].
      unfold hasLinkedSection in Hd. rewrite Hpat in Hd.
      unfold getDescriptionParentPath in Hd.
      destruct (endsWith k ".description") eqn:Ee; [|discriminate].
      pose proof (endsWith_last_char k ".description" Ee ltac:(discriminate)) as Hl.
      simpl in Hl. congruence.
    + intros Hin. unfold skip in Hin. apply elem_of_list_to_set in Hin.
      apply list_elem_of_In, in_flat_map in Hin as [descKey [_ Hin]].
      rewrite Hpat in Hin. apply skipped_for_last_char in Hin. congruence.
Qed.

(** With the default configuration, [hero.links.0.href] is copied and
    belongs to no other group. *)
Lemma classify_partition_witness :
  ~ In "hero.links.0.href"
      (descriptionKeysWithLinks
         (classify defaultConfig hero_file
            ["hero.title"; "hero.description"; "hero.links.0.text";
             "hero.links.0.href"])).
Proof.
  destruct (classify_partition defaultConfig hero_file
              ["hero.title"; "hero.description"; "hero.links.0.text";
               "hero.links.0.href"]
              "hero.links.0.href" ltac:(simpl; tauto)) as (_ & _ & H).
  apply H; [reflexivity|reflexivity|vm_compute; tauto].
Defined.

(** ** Scenarios of the specification *)

(** Basic diff: the source [{a: {b: "Hi", c: "Bye"}}] against the target
    [{a: {b: "Hallo"}}]. *)
Example scenario_basic_diff :
  let report :=
    compareTranslations
      (JObj [("a", JObj [("b", JStr "Hi"); ("c", JStr "Bye")])])
      (JObj [("a", JObj [("b", JStr "Hallo")])]) in
  missingInTarget report = ["a.c"]
  /\ extraInTarget report = []
  /\ typeMismatches report = [].
Proof. vm_compute. repeat split. Qed.

(** Reconciliation with a shape conflict: [links] keeps the array of the
    source. *)
Example scenario_shape_conflict :
  reorderToMatchSource
    (JObj [("links", JArr [JObj [("text", JStr "Go")]])])
    (JObj [("links", JStr "oops")])
  = JObj [("links", JArr [JObj [("text", JStr "Go")]])].
Proof. reflexivity. Qed.

(** Inside an array of matching length the element of the content is
    taken as it is when it is a leaf, also where the source element is a
    container. *)
Example scenario_array_element_shape :
  reorderToMatchSource
    (JObj [("links", JArr [JObj [("text", JStr "Go")]])])
    (JObj [("links", JArr [JStr "oops"])])
  = JObj [("links", JArr [JStr "oops"])].
Proof. reflexivity. Qed.

(** Pass-through key: [a.href] matches the default pattern. *)
Example scenario_pass_through :
  isHrefKey "a.href" (hrefPatterns defaultConfig) = true
  /\ passthrough_results (JObj [("a", JObj [("href", JStr "https://x")])])
       "de" ["a.href"]
     = [mkResult "a.href" "https://x" (JStr "https://x") "de"].
Proof. split; reflexivity. Qed.

(** A source with distinct keys and flat arrays, merged twice. *)
Example scenario_idempotent :
  let S := JObj [("a", JObj [("b", JStr "Hi")]);
                 ("l", JArr [JObj [("t", JStr "Go")]; JStr "x"])] in
  let C := JObj [("a", JStr "oops"); ("l", JArr [JStr "y"; JObj []])] in
  reorderToMatchSource S (reorderToMatchSource S C) = reorderToMatchSource S C.
Proof. now apply reorderToMatchSource_idempotent_flat. Qed.

(** * Properties of the further parts *)

(** ** Key paths as strings *)

Lemma split_on_not_nil sep s : split_on sep s <> [].
Proof.
  destruct s as [|c s]; simpl; [discriminate|].
  destruct (Ascii.eqb c sep); [discriminate|].
  destruct (split_on sep s); discriminate.
Qed.

Lemma join_with_cons_char c seg segs :
  join_with "." (String c seg :: segs) = String c (join_with "." (seg :: segs)).
Proof. now destruct segs. Qed.

(** [keyPath.split(".").join(".")] is [keyPath]. *)
Lemma join_with_split_on s : join_with "." (split_on dot s) = s.
Proof.
  induction s as [|c s IH]; [reflexivity|]. cbn [split_on].
  destruct (Ascii.eqb c dot) eqn:E.
  - apply Ascii.eqb_eq in E. subst c.
    pose proof (split_on_not_nil dot s) as Hne.
    destruct (split_on dot s) as [|seg segs]; [now destruct Hne|].
    change (join_with "." ("" :: seg :: segs))
      with ("" +:+ "." +:+ join_with "." (seg :: segs)).
    now rewrite IH.
  - pose proof (split_on_not_nil dot s) as Hne.
    destruct (split_on dot s) as [|seg segs]; [now destruct Hne|].
    rewrite join_with_cons_char. now rewrite IH.
Qed.

Lemma split_on_append_dot a b :
  split_on dot (a +:+ "." +:+ b) = split_on dot a ++ split_on dot b.
Proof.
  induction a as [|c a IH]; [reflexivity|].
  change (String c a +:+ "." +:+ b) with (String c (a +:+ "." +:+ b)).
  cbn [split_on]. rewrite IH.
  destruct (Ascii.eqb c dot); [reflexivity|].
  pose proof (split_on_not_nil dot a) as Hne.
  now destruct (split_on dot a).
Qed.

Lemma dot_free_includes s : dot_free s = negb (includes_char s dot).
Proof.
  induction s as [|c s IH]; [reflexivity|]. simpl. rewrite IH.
  now destruct (Ascii.eqb c dot).
Qed.

Lemma split_on_two_segments s :
  includes_char s dot = true -> (1 < List.length (split_on dot s))%nat.
Proof.
  induction s as [|c s IH]; [discriminate|]. simpl.
  pose proof (split_on_not_nil dot s) as Hne.
  destruct (Ascii.eqb c dot); simpl.
  - intros _. destruct (split_on dot s); [now destruct Hne|simpl; lia].
  - intros H. specialize (IH H).
    destruct (split_on dot s) as [|seg segs]; simpl in *; lia.
Qed.

(** The segments of a key path hold no dot. *)
Lemma split_on_dot_free_segments s part :
  In part (split_on dot s) -> dot_free part = true.
Proof.
  revert part. induction s as [|c s IH]; intros part; cbn [split_on].
  - now intros [<-|[]].
  - destruct (Ascii.eqb c dot) eqn:E.
    + intros [<-|Hin]; [reflexivity|now apply IH].
    + pose proof (split_on_not_nil dot s) as Hne.
      destruct (split_on dot s) as [|seg segs]; [now destruct Hne|].
      intros [<-|Hin].
      * simpl. rewrite E. simpl. apply IH. now left.
      * apply IH. now right.
Qed.

(** X1.  A key path with a dot is its parent section, a dot and its key name; a
    key path without a dot has no parent section and is its own key
    name. *)
Theorem getParentSection_getKeyName :
  forall keyPath : string,
    (includes_char keyPath dot = true ->
     getParentSection keyPath +:+ "." +:+ getKeyName keyPath = keyPath)
    /\ (includes_char keyPath dot = false ->
        getParentSection keyPath = "" /\ getKeyName keyPath = keyPath).
Proof.
  intros keyPath. unfold getParentSection, getKeyName. split.
  - intros H. pose proof (split_on_two_segments keyPath H) as Hlen.
    apply Nat.ltb_lt in Hlen as Hb. rewrite Hb.
    pose proof (split_on_not_nil dot keyPath) as Hne.
    rewrite <- (join_with_split_on keyPath) at 3.
    rewrite (app_removelast_last "" Hne) at 3.
    rewrite join_with_snoc; [reflexivity|].
    destruct (split_on dot keyPath) as [|p [|q r]]; simpl in *; try lia.
    discriminate.
  - intros H.
    assert (Hfree : dot_free keyPath = true) by now rewrite dot_free_includes, H.
    now rewrite (split_on_dot_free keyPath Hfree).
Qed.

Lemma getParentSection_getKeyName_witness :
  getParentSection "hero.links.0.text" +:+ "." +:+ getKeyName "hero.links.0.text"
  = "hero.links.0.text".
Proof. exact (proj1 (getParentSection_getKeyName "hero.links.0.text") eq_refl). Defined.

(** ** Looking a key path up *)

Lemma walk_app v p q :
  walk v (p ++ q) =
  match walk v p with
  | Some x => walk x q
  | None => None
  end.
Proof.
  revert v. induction p as [|k p IH]; intros v; [reflexivity|]. simpl.
  destruct (is_object v); [|reflexivity].
  destruct (get_prop v k); [apply IH|reflexivity].
Qed.

Lemma walk_leaf leaf parts :
  is_object leaf = false -> parts <> [] -> walk leaf parts = None.
Proof. intros H Hne. destruct parts; [now destruct Hne|]. simpl. now rewrite H. Qed.

Lemma getValueAtPath_compose_eq obj a b :
  getValueAtPath obj (a +:+ "." +:+ b)
  = match getValueAtPath obj a with
    | Some x => getValueAtPath x b
    | None => None
    end.
Proof. unfold getValueAtPath. now rewrite split_on_append_dot, walk_app. Qed.

(** X2.  Looking up [a.b] is looking up [b] in what [a] resolves to; below a
    missing key and below a leaf everything is absent. *)
Theorem getValueAtPath_compose :
  forall (obj : JV) (a b : string),
    getValueAtPath obj (a +:+ "." +:+ b)
    = match getValueAtPath obj a with
      | Some x => getValueAtPath x b
      | None => None
      end
    /\ (forall leaf,
           getValueAtPath obj a = Some leaf -> is_object leaf = false ->
           getValueAtPath obj (a +:+ "." +:+ b) = None).
Proof.
  intros obj a b.
  assert (E : getValueAtPath obj (a +:+ "." +:+ b)
              = match getValueAtPath obj a with
                | Some x => getValueAtPath x b
                | None => None
                end).
  { unfold getValueAtPath. now rewrite split_on_append_dot, walk_app. }
  split; [exact E|]. intros leaf Ha Hleaf. rewrite E, Ha.
  unfold getValueAtPath. apply walk_leaf; [exact Hleaf|apply split_on_not_nil].
Qed.

Lemma getValueAtPath_compose_witness :
  getValueAtPath hero_file "hero.title.more" = None.
Proof.
  exact (proj2 (getValueAtPath_compose hero_file "hero.title" "more")
           (JStr "Welcome") eq_refl eq_refl).
Defined.

(** ** Flattened key paths and lookups *)

Lemma assoc_Some_In key props x : assoc key props = Some x -> In (key, x) props.
Proof.
  induction props as [|[k y] props IH]; simpl; [discriminate|].
  destruct (String.eqb key k) eqn:E.
  - apply String.eqb_eq in E. subst k. intros [= ->]. now left.
  - intros H. right. now apply IH.
Qed.

Lemma own_walk_leaf leaf parts :
  is_object leaf = false -> parts <> [] -> own_walk leaf parts = None.
Proof.
  intros H Hne. destruct parts; [now destruct Hne|].
  now destruct leaf.
Qed.

(** A descent through own properties is a lookup. *)
Lemma own_walk_walk parts :
  forall v x, own_walk v parts = Some x -> walk v parts = Some x.
Proof.
  induction parts as [|k rest IH]; intros v x; [trivial|]. cbn [own_walk walk].
  destruct (assoc k (own_entries v)) as [next|] eqn:E; [|discriminate].
  intros H. apply assoc_Some_In in E as Hin.
  rewrite (own_entries_is_object v _ Hin). unfold get_prop. rewrite E.
  now apply IH.
Qed.

(** A lookup that never asks for [length] is a descent through own
    properties. *)
Lemma walk_own_walk parts :
  forallb (fun p => negb (String.eqb p "length")) parts = true ->
  forall v x, walk v parts = Some x -> own_walk v parts = Some x.
Proof.
  induction parts as [|k rest IH]; intros Hparts v x; [trivial|].
  simpl in Hparts. apply andb_prop in Hparts as [Hk Hrest].
  cbn [own_walk walk]. destruct (is_object v); [|discriminate].
  unfold get_prop. destruct (assoc k (own_entries v)) as [next|].
  - now apply IH.
  - destruct v; try discriminate.
    apply negb_true_iff in Hk. rewrite Hk. discriminate.
Qed.

(** In a well-formed tree, every key path of [flattenKeys] is the join of
    the prefix segments and of segments that descend through own
    properties to a leaf. *)
Lemma flattenKeys_own_segments :
  forall v,
    keys_distinct v = true -> keys_canonical v = true ->
    forall pp keyPath,
      forallb segment_ok pp = true ->
      In keyPath (flattenKeys v (join_with "." pp)) ->
      exists parts leaf,
        parts <> [] /\ forallb segment_ok parts = true
        /\ keyPath = join_with "." (pp ++ parts)
        /\ own_walk v parts = Some leaf /\ is_object leaf = false.
Proof.
  induction v as [v IH] using JV_entries_ind.
  intros Hkeys Hcan pp keyPath Hpp Hin.
  rewrite flattenKeys_entries in Hin. apply in_flat_map in Hin as [[k x] [Hkx Hin]].
  cbn [fst snd] in Hin. unfold flatten_visit in Hin.
  rewrite (join_path_join_with pp k Hpp) in Hin.
  destruct (keys_canonical_entry v k x Hcan Hkx) as [Hk Hx].
  assert (Hget : assoc k (own_entries v) = Some x).
  { apply assoc_In_NoDup; [|exact Hkx]. now apply keys_distinct_own_keys. }
  assert (Hwalk : forall rest, own_walk v (k :: rest) = own_walk x rest).
  { intros rest. cbn [own_walk]. now rewrite Hget. }
  destruct (is_object x) eqn:Ex.
  - assert (Hpp' : forallb segment_ok (pp ++ [k]) = true).
    { rewrite forallb_app, Hpp. simpl. now rewrite Hk. }
    assert (Hxk : keys_distinct x = true).
    { apply (keys_distinct_child v x Hkeys). now apply (in_map snd) in Hkx. }
    destruct (IH k x Hkx Hxk Hx (pp ++ [k]) keyPath Hpp' Hin)
      as [parts [leaf [Hne [Hok [Hjoin [Hw Hleaf]]]]]].
    exists (k :: parts), leaf. repeat split.
    + discriminate.
    + simpl. now rewrite Hk, Hok.
    + now rewrite <- app_assoc in Hjoin.
    + now rewrite Hwalk.
    + exact Hleaf.
  - destruct Hin as [<-|[]]. exists [k], x. repeat split.
    + discriminate.
    + simpl. now rewrite Hk.
    + now rewrite Hwalk.
    + exact Ex.
Qed.

(** Every descent through own properties to a leaf is listed by
    [flattenKeys]. *)
Lemma own_walk_flattenKeys parts :
  forall v pp leaf,
    keys_canonical v = true -> forallb segment_ok pp = true ->
    parts <> [] -> own_walk v parts = Some leaf -> is_object leaf = false ->
    In (join_with "." (pp ++ parts)) (flattenKeys v (join_with "." pp)).
Proof.
  induction parts as [|k rest IH]; intros v pp leaf Hcan Hpp Hne Hw Hleaf;
    [now destruct Hne|].
  cbn [own_walk] in Hw.
  destruct (assoc k (own_entries v)) as [x|] eqn:E; [|discriminate].
  apply assoc_Some_In in E as Hkx.
  destruct (keys_canonical_entry v k x Hcan Hkx) as [Hk Hx].
  rewrite flattenKeys_entries. apply in_flat_map. exists (k, x).
  split; [exact Hkx|]. cbn [fst snd]. unfold flatten_visit.
  rewrite (join_path_join_with pp k Hpp).
  destruct (is_object x) eqn:Ex.
  - assert (Hpp' : forallb segment_ok (pp ++ [k]) = true).
    { rewrite forallb_app, Hpp. simpl. now rewrite Hk. }
    assert (Hrest : rest <> []).
    { intros ->. simpl in Hw. injection Hw as ->. congruence. }
    pose proof (IH x (pp ++ [k]) leaf Hx Hpp' Hrest Hw Hleaf) as H.
    now rewrite <- app_assoc in H.
  - destruct rest as [|k' rest'].
    + now left.
    + rewrite own_walk_leaf in Hw; [discriminate|exact Ex|discriminate].
Qed.

(** X3.  In a well-formed container the key paths of [flattenKeys] are the
    key paths that [getValueAtPath] resolves to a leaf through own
    properties: every listed key path resolves to a leaf, and every key
    path that resolves to a leaf is listed, when none of its segments is
    [length] or an inherited name. *)
Theorem flattenKeys_lists_resolving_paths :
  forall (v : JV) (keyPath : string),
    is_object v = true -> well_formed v = true ->
    (In keyPath (flattenKeys v "") ->
     exists leaf, getValueAtPath v keyPath = Some leaf /\ is_object leaf = false)
    /\ (forall leaf,
           getValueAtPath v keyPath = Some leaf -> is_object leaf = false ->
           own_segments keyPath = true ->
           forallb (fun p => negb (String.eqb p "length")) (split_on dot keyPath) = true ->
           In keyPath (flattenKeys v "")).
Proof.
  intros v keyPath _ Hwf. pose proof Hwf as Hwf'.
  apply andb_prop in Hwf' as [Hkeys Hcan]. split.
  - intros Hin.
    destruct (flattenKeys_own_segments v Hkeys Hcan [] keyPath eq_refl Hin)
      as [parts [leaf [Hne [Hok [-> [Hw Hleaf]]]]]].
    exists leaf. split; [|exact Hleaf]. unfold getValueAtPath. simpl.
    rewrite split_on_join_with; auto using forallb_segment_dot_free.
    now apply own_walk_walk.
  - intros leaf Hget Hleaf _ Hlen. unfold getValueAtPath in Hget.
    apply (walk_own_walk _ Hlen) in Hget.
    pose proof (own_walk_flattenKeys (split_on dot keyPath) v [] leaf Hcan eq_refl
                  (split_on_not_nil dot keyPath) Hget Hleaf) as H.
    simpl in H. now rewrite join_with_split_on in H.
Qed.

Lemma flattenKeys_lists_resolving_paths_witness :
  In "hero.links.0.text" (flattenKeys hero_file "").
Proof.
  exact (proj2 (flattenKeys_lists_resolving_paths hero_file "hero.links.0.text"
                  eq_refl eq_refl)
           (JStr "docs") eq_refl eq_refl eq_refl eq_refl).
Defined.

(** ** Assigning a property *)

Lemma assoc_replace_prop key v props :
  assoc key props <> None -> assoc key (replace_prop key v props) = Some v.
Proof.
  induction props as [|[k x] props IH]; simpl; [congruence|].
  destruct (String.eqb key k) eqn:E; simpl; rewrite E; auto.
Qed.

Lemma assoc_replace_prop_other key v props k' :
  k' <> key -> assoc k' (replace_prop key v props) = assoc k' props.
Proof.
  intros Hne. induction props as [|[k x] props IH]; simpl; [reflexivity|].
  destruct (String.eqb key k) eqn:E; simpl.
  - apply String.eqb_eq in E. subst k.
    apply String.eqb_neq in Hne. now rewrite Hne.
  - now rewrite IH.
Qed.

Lemma assoc_insert_index n key v props :
  assoc key props = None -> assoc key (insert_index n key v props) = Some v.
Proof.
  induction props as [|[k x] props IH]; simpl.
  - now rewrite String.eqb_refl.
  - destruct (String.eqb key k) eqn:E; [discriminate|]. intros H.
    destruct (index_of k) as [m|]; [destruct (m <? n)%N|]; simpl;
      rewrite ?E, ?String.eqb_refl; auto.
Qed.

Lemma assoc_insert_index_other n key v props k' :
  k' <> key -> assoc k' (insert_index n key v props) = assoc k' props.
Proof.
  intros Hne. apply String.eqb_neq in Hne.
  induction props as [|[k x] props IH]; simpl.
  - now rewrite Hne.
  - destruct (index_of k) as [m|]; [destruct (m <? n)%N|]; simpl;
      rewrite ?Hne, ?IH; reflexivity.
Qed.

Lemma assoc_app_None key props extra :
  assoc key props = None -> assoc key (props ++ extra) = assoc key extra.
Proof.
  induction props as [|[k x] props IH]; simpl; [reflexivity|].
  destruct (String.eqb key k); [discriminate|exact IH].
Qed.

Lemma assoc_app_other key props k v :
  key <> k -> assoc key (props ++ [(k, v)]) = assoc key props.
Proof.
  intros Hne. apply String.eqb_neq in Hne.
  induction props as [|[k0 x] props IH]; simpl.
  - now rewrite Hne.
  - now rewrite IH.
Qed.

Lemma assoc_obj_assign props key v : assoc key (obj_assign props key v) = Some v.
Proof.
  unfold obj_assign. destruct (assoc key props) eqn:E.
  - apply assoc_replace_prop. congruence.
  - destruct (index_of key).
    + now apply assoc_insert_index.
    + rewrite assoc_app_None by exact E. simpl. now rewrite String.eqb_refl.
Qed.

Lemma assoc_obj_assign_other props key v k' :
  k' <> key -> assoc k' (obj_assign props key v) = assoc k' props.
Proof.
  intros Hne. unfold obj_assign. destruct (assoc key props).
  - now apply assoc_replace_prop_other.
  - destruct (index_of key).
    + now apply assoc_insert_index_other.
    + now apply assoc_app_other.
Qed.

Lemma assoc_arr_assign_from key v items :
  forall i items',
    arr_assign_from i items key v = Some items' ->
    assoc key (index_entries i items') = Some v.
Proof.
  induction items as [|x items IH]; intros i items'; simpl.
  - destruct (String.eqb key (index_key i)) eqn:E; [|discriminate].
    intros [= <-]. simpl. now rewrite E.
  - destruct (String.eqb key (index_key i)) eqn:E.
    + intros [= <-]. simpl. now rewrite E.
    + destruct (arr_assign_from (S i) items key v) as [rest'|] eqn:Er; [|discriminate].
      intros [= <-]. simpl. rewrite E. now apply IH.
Qed.

Lemma assoc_arr_assign_from_other key v k' items :
  k' <> key ->
  forall i items',
    arr_assign_from i items key v = Some items' ->
    assoc k' (index_entries i items') = assoc k' (index_entries i items)
    \/ assoc k' (index_entries i items) = None
       /\ List.length items' = S (List.length items).
Proof.
  intros Hne. induction items as [|x items IH]; intros i items'; simpl.
  - destruct (String.eqb key (index_key i)) eqn:E; [|discriminate].
    intros [= <-]. now right.
  - destruct (String.eqb key (index_key i)) eqn:E.
    + intros [= <-]. left. simpl. apply String.eqb_eq in E. subst key.
      apply String.eqb_neq in Hne. now rewrite Hne.
    + destruct (arr_assign_from (S i) items key v) as [rest'|] eqn:Er; [|discriminate].
      intros [= <-]. simpl. destruct (String.eqb k' (index_key i)); [now left|].
      destruct (IH (S i) rest' Er) as [H|[H Hl]]; [now left|].
      right. split; [exact H|]. simpl. now rewrite Hl.
Qed.

Lemma assign_prop_object props key v current' :
  assign_prop (JObj props) key v = Updated current' ->
  current' = JObj (obj_assign props key v).
Proof.
  cbn [assign_prop]. destruct (inherited_proto props key); [discriminate|].
  now intros [= <-].
Qed.

Lemma assign_prop_own props key x v :
  assoc key props = Some x ->
  assign_prop (JObj props) key v = Updated (JObj (obj_assign props key v)).
Proof.
  intros H. cbn [assign_prop]. unfold inherited_proto. rewrite H.
  now rewrite andb_false_r.
Qed.

(** After [current[key] = v] the container holds [v] under [key]. *)
Lemma get_prop_assign_prop current key v current' :
  assign_prop current key v = Updated current' ->
  get_prop current' key = Some v /\ is_object current' = true
  /\ isArray current' = isArray current.
Proof.
  destruct current as [| | | |items|props]; try discriminate.
  - simpl. destruct (arr_assign_from 0 items key v) as [items'|] eqn:E; [|discriminate].
    intros [= <-]. unfold get_prop. cbn [own_entries].
    now rewrite (assoc_arr_assign_from key v items 0 items' E).
  - intros H. apply assign_prop_object in H as ->. unfold get_prop. cbn [own_entries].
    now rewrite assoc_obj_assign.
Qed.

(** [current[key] = v] on a mapping leaves the other keys as they are. *)
Lemma get_prop_assign_prop_other props key v current' k' :
  assign_prop (JObj props) key v = Updated current' -> k' <> key ->
  get_prop current' k' = get_prop (JObj props) k'.
Proof.
  intros H Hne. apply assign_prop_object in H as ->. unfold get_prop.
  cbn [own_entries]. now rewrite assoc_obj_assign_other.
Qed.

(** ** Writing at a key path *)

(** One turn of the loop of [setValueAtPath]: the container under [part],
    the one found there or a fresh one, is written into and put back. *)
Lemma set_parts_cons current refCurrent part rest value current' :
  rest <> [] ->
  set_parts current refCurrent (part :: rest) value = Updated current' ->
  exists child child',
    is_object current = true
    /\ set_parts child (ref_step refCurrent part) rest value = Updated child'
    /\ assign_prop current part child' = Updated current'
    /\ (get_prop current part = Some child /\ typeof_object child = true
        \/ child = fresh_container refCurrent part
           /\ (forall x, get_prop current part = Some x -> typeof_object x = false)).
Proof.
  intros Hne. destruct rest as [|part' rest']; [now destruct Hne|].
  change (set_parts current refCurrent (part :: part' :: rest') value)
    with (set_parts_turn current refCurrent part
            (fun child => set_parts child (ref_step refCurrent part) (part' :: rest') value)).
  generalize (part' :: rest'). intros rest. unfold set_parts_turn.
  destruct (is_object current); [|discriminate].
  destruct (get_prop current part) as [child|] eqn:Eget.
  - destruct (typeof_object child) eqn:Ety.
    + destruct (set_parts child (ref_step refCurrent part) rest value)
        as [child'| |] eqn:Eset; try discriminate.
      intros H. exists child, child'. repeat split; auto.
    + destruct (assign_prop current part (fresh_container refCurrent part));
        try discriminate.
      destruct (set_parts (fresh_container refCurrent part)
                  (ref_step refCurrent part) rest value)
        as [child'| |] eqn:Eset; try discriminate.
      intros H. exists (fresh_container refCurrent part), child'.
      repeat split; auto. right. split; [reflexivity|]. now intros x [= <-].
  - destruct (assign_prop current part (fresh_container refCurrent part));
      try discriminate.
    destruct (set_parts (fresh_container refCurrent part)
                (ref_step refCurrent part) rest value)
      as [child'| |] eqn:Eset; try discriminate.
    intros H. exists (fresh_container refCurrent part), child'.
    repeat split; auto. right. split; [reflexivity|]. discriminate.
Qed.

Lemma set_parts_last current refCurrent last value :
  set_parts current refCurrent [last] value = assign_prop current last value.
Proof. reflexivity. Qed.

(** Writing keeps a container a container of the same kind. *)
Lemma set_parts_kind parts :
  forall current refCurrent value current',
    parts <> [] ->
    set_parts current refCurrent parts value = Updated current' ->
    is_object current' = true /\ isArray current' = isArray current.
Proof.
  destruct parts as [|part rest]; intros current refCurrent value current' Hne H;
    [now destruct Hne|].
  destruct rest as [|part' rest'].
  - rewrite set_parts_last in H. now apply get_prop_assign_prop in H.
  - apply set_parts_cons in H as [child [child' [_ [_ [Hassign _]]]]];
      [|discriminate].
    now apply get_prop_assign_prop in Hassign.
Qed.

Lemma set_parts_walk parts :
  forall current refCurrent value current',
    parts <> [] ->
    set_parts current refCurrent parts value = Updated current' ->
    walk current' parts = Some value.
Proof.
  induction parts as [|part rest IH]; intros current refCurrent value current' Hne H;
    [now destruct Hne|].
  destruct rest as [|part' rest'].
  - rewrite set_parts_last in H.
    apply get_prop_assign_prop in H as [Hget [Hobj _]].
    cbn [walk]. now rewrite Hobj, Hget.
  - apply set_parts_cons in H as [child [child' [_ [Hset [Hassign _]]]]];
      [|discriminate].
    apply get_prop_assign_prop in Hassign as [Hget [Hobj _]].
    change (walk current' (part :: part' :: rest'))
      with (if is_object current' then
              match get_prop current' part with
              | Some next => walk next (part' :: rest')
              | None => None
              end
            else None).
    rewrite Hobj, Hget.
    apply (IH child (ref_step refCurrent part) value); [discriminate|exact Hset].
Qed.

(** X5.  Round trip: after a successful [setValueAtPath], [getValueAtPath]
    finds the value at the key path, whatever the tree held before. *)
Theorem getValueAtPath_setValueAtPath :
  forall (obj obj' : JV) (keyPath : string) (value : JV) (referenceObj : option JV),
    setValueAtPath obj keyPath value referenceObj = Updated obj' ->
    getValueAtPath obj' keyPath = Some value.
Proof.
  intros obj obj' keyPath value referenceObj H.
  unfold getValueAtPath. unfold setValueAtPath in H.
  apply (set_parts_walk _ obj referenceObj); [apply split_on_not_nil|exact H].
Qed.

Lemma getValueAtPath_setValueAtPath_witness :
  getValueAtPath
    (JObj [("a", JStr "x");
           ("hero", JObj [("links", JArr [JObj [("text", JStr "Doku")]])])])
    "hero.links.0.text"
  = Some (JStr "Doku").
Proof.
  exact (getValueAtPath_setValueAtPath (JObj [("a", JStr "x")]) _
           "hero.links.0.text" (JStr "Doku") (Some hero_file) eq_refl).
Defined.

(** X6.  Writing at a key path of a mapping changes nothing under the other
    top-level keys: a lookup whose first segment differs from the first
    segment of the written key path has the answer it had before. *)
Theorem setValueAtPath_other_sections :
  forall (props : list (string * JV)) (obj' : JV) (keyPath other : string)
         (value : JV) (referenceObj : option JV),
    setValueAtPath (JObj props) keyPath value referenceObj = Updated obj' ->
    List.hd "" (split_on dot other) <> List.hd "" (split_on dot keyPath) ->
    getValueAtPath obj' other = getValueAtPath (JObj props) other.
Proof.
  intros props obj' keyPath other value referenceObj H Hne.
  unfold getValueAtPath. unfold setValueAtPath in H.
  pose proof (split_on_not_nil dot keyPath) as Hk.
  pose proof (split_on_not_nil dot other) as Ho.
  destruct (split_on dot keyPath) as [|part rest]; [now destruct Hk|].
  destruct (split_on dot other) as [|o orest]; [now destruct Ho|].
  cbn [List.hd] in Hne.
  assert (Hassign : exists x, assign_prop (JObj props) part x = Updated obj').
  { destruct rest as [|part' rest'].
    - exists value. exact H.
    - apply set_parts_cons in H as [child [child' [_ [_ [Hassign _]]]]];
        [|discriminate].
      now exists child'. }
  destruct Hassign as [x Hassign].
  pose proof (get_prop_assign_prop_other props part x obj' o Hassign Hne) as Hget.
  apply get_prop_assign_prop in Hassign as [_ [Hobj _]].
  cbn [walk]. now rewrite Hobj, Hget.
Qed.

Lemma setValueAtPath_other_sections_witness :
  getValueAtPath
    (JObj [("a", JStr "x");
           ("hero", JObj [("links", JArr [JObj [("text", JStr "Doku")]])])])
    "a"
  = getValueAtPath (JObj [("a", JStr "x")]) "a".
Proof.
  apply (setValueAtPath_other_sections [("a", JStr "x")] _
           "hero.links.0.text" "a" (JStr "Doku") (Some hero_file) eq_refl).
  discriminate.
Defined.



(** X8.  [setValueAtPath] throws a [TypeError] when the tree holds [null] under
    a segment of the key path that is not the last one: [null] passes the
    test [typeof current[part] === "object"] and is then written into. *)
Theorem setValueAtPath_null_intermediate_throws :
  forall (obj : JV) (part rest : string) (value : JV) (referenceObj : option JV),
    is_object obj = true -> dot_free part = true ->
    get_prop obj part = Some JNull ->
    setValueAtPath obj (part +:+ "." +:+ rest) value referenceObj = ThrowsTypeError.
Proof.
  intros obj part rest value referenceObj Hobj Hpart Hget.
  unfold setValueAtPath.
  rewrite split_on_append_dot, (split_on_dot_free part Hpart). cbn [app].
  pose proof (split_on_not_nil dot rest) as Hne.
  destruct (split_on dot rest) as [|r rs]; [now destruct Hne|].
  change (set_parts obj referenceObj (part :: r :: rs) value)
    with (set_parts_turn obj referenceObj part
            (fun child => set_parts child (ref_step referenceObj part) (r :: rs) value)).
  unfold set_parts_turn. rewrite Hobj, Hget. cbn [typeof_object].
  now destruct rs.
Qed.

Lemma setValueAtPath_null_intermediate_throws_witness :
  setValueAtPath (JObj [("hero", JNull)]) "hero.title" (JStr "T") None
  = ThrowsTypeError.
Proof.
  exact (setValueAtPath_null_intermediate_throws (JObj [("hero", JNull)])
           "hero" "title" (JStr "T") None eq_refl eq_refl eq_refl).
Defined.

(** Replacing the value of an own property by one that flattens alike
    leaves the flattened key paths as they are. *)
Lemma flat_map_replace_prop {B} (f : string * JV -> list B) key x x' props :
  assoc key props = Some x ->
  f (key, x') = f (key, x) ->
  flat_map f (replace_prop key x' props) = flat_map f props.
Proof.
  intros Hassoc Hf. induction props as [|[k y] props IH]; [discriminate|].
  simpl in *. destruct (String.eqb key k) eqn:E.
  - apply String.eqb_eq in E. subst k. injection Hassoc as ->.
    simpl. now rewrite Hf.
  - simpl. now rewrite IH.
Qed.

Lemma flat_map_arr_assign_from {B} (f : string * JV -> list B) key x x' items :
  f (key, x') = f (key, x) ->
  forall i,
    assoc key (index_entries i items) = Some x ->
    exists items',
      arr_assign_from i items key x' = Some items'
      /\ flat_map f (index_entries i items') = flat_map f (index_entries i items).
Proof.
  intros Hf. induction items as [|y items IH]; intros i; simpl; [discriminate|].
  destruct (String.eqb key (index_key i)) eqn:E.
  - intros [= ->]. exists (x' :: items). split; [reflexivity|]. simpl.
    apply String.eqb_eq in E. subst key. now rewrite Hf.
  - intros H. destruct (IH (S i) H) as [items' [-> Hflat]].
    exists (y :: items'). split; [reflexivity|]. simpl. now rewrite Hflat.
Qed.

Lemma assign_prop_replace_flattenKeys current key x x' :
  assoc key (own_entries current) = Some x ->
  (forall prefix,
      flatten_visit flattenKeys prefix key x' = flatten_visit flattenKeys prefix key x) ->
  exists current',
    assign_prop current key x' = Updated current'
    /\ forall prefix, flattenKeys current' prefix = flattenKeys current prefix.
Proof.
  intros Hassoc Hvisit.
  destruct current as [| | | |items|props]; try discriminate; cbn [own_entries] in Hassoc.
  - assert (H : forall prefix, exists items',
                 arr_assign_from 0 items key x' = Some items'
                 /\ flat_map (fun kv => flatten_visit flattenKeys prefix (fst kv) (snd kv))
                      (index_entries 0 items')
                    = flat_map (fun kv => flatten_visit flattenKeys prefix (fst kv) (snd kv))
                        (index_entries 0 items)).
    { intros prefix. apply (flat_map_arr_assign_from _ key x x'); [apply Hvisit|exact Hassoc]. }
    destruct (H ""%string) as [items' [Eassign _]].
    exists (JArr items'). cbn [assign_prop]. rewrite Eassign. split; [reflexivity|].
    intros prefix. destruct (H prefix) as [items'' [Eassign' Hflat]].
    rewrite Eassign in Eassign'. injection Eassign' as <-.
    now rewrite !flattenKeys_entries.
  - exists (JObj (obj_assign props key x')).
    split; [now apply (assign_prop_own props key x)|].
    intros prefix. rewrite !flattenKeys_entries. cbn [own_entries].
    unfold obj_assign. rewrite Hassoc.
    apply (flat_map_replace_prop _ key x x'); [exact Hassoc|apply Hvisit].
Qed.

Lemma set_parts_overwrite value parts :
  is_object value = false ->
  forall current refCurrent leaf,
    parts <> [] -> own_walk current parts = Some leaf -> is_object leaf = false ->
    exists current',
      set_parts current refCurrent parts value = Updated current'
      /\ forall prefix, flattenKeys current' prefix = flattenKeys current prefix.
Proof.
  intros Hvalue.
  induction parts as [|part rest IH]; intros current refCurrent leaf Hne Hw Hleaf;
    [now destruct Hne|].
  cbn [own_walk] in Hw.
  destruct (assoc part (own_entries current)) as [x|] eqn:Hassoc; [|discriminate].
  destruct rest as [|part' rest'].
  - injection Hw as ->. rewrite set_parts_last.
    apply (assign_prop_replace_flattenKeys current part leaf value Hassoc).
    intros prefix. unfold flatten_visit. now rewrite Hvalue, Hleaf.
  - assert (Hx : is_object x = true).
    { destruct (is_object x) eqn:Ex; [reflexivity|].
      rewrite own_walk_leaf in Hw; [discriminate|exact Ex|discriminate]. }
    assert (Hne' : part' :: rest' <> []) by discriminate.
    destruct (IH x (ref_step refCurrent part) leaf Hne' Hw Hleaf)
      as [x' [Hset Hflat]].
    pose proof (set_parts_kind _ _ _ _ _ Hne' Hset) as [Hx' _].
    destruct (assign_prop_replace_flattenKeys current part x x' Hassoc)
      as [current' [Hassign Hflat']].
    { intros prefix. unfold flatten_visit. now rewrite Hx, Hx', Hflat. }
    exists current'. split; [|exact Hflat'].
    change (set_parts current refCurrent (part :: part' :: rest') value)
      with (set_parts_turn current refCurrent part
              (fun child => set_parts child (ref_step refCurrent part) (part' :: rest') value)).
    unfold set_parts_turn.
    apply assoc_Some_In in Hassoc as Hin.
    rewrite (own_entries_is_object current _ Hin).
    unfold get_prop. rewrite Hassoc.
    assert (Hty : typeof_object x = true) by now destruct x.
    now rewrite Hty, Hset.
Qed.

(** Overwriting a leaf: in a well-formed tree, writing a leaf at a key
    path that [flattenKeys] lists succeeds, with or without a reference,
    and leaves the flattened key paths, their order included, as they
    were. *)
Theorem setValueAtPath_overwrite_leaf :
  forall (obj : JV) (keyPath : string) (value : JV) (referenceObj : option JV),
    well_formed obj = true -> In keyPath (flattenKeys obj "") ->
    is_object value = false ->
    exists obj',
      setValueAtPath obj keyPath value referenceObj = Updated obj'
      /\ getValueAtPath obj' keyPath = Some value
      /\ forall prefix, flattenKeys obj' prefix = flattenKeys obj prefix.
Proof.
  intros obj keyPath value referenceObj Hwf Hin Hvalue.
  apply andb_prop in Hwf as [Hkeys Hcan].
  destruct (flattenKeys_own_segments obj Hkeys Hcan [] keyPath eq_refl Hin)
    as [parts [leaf [Hne [Hok [-> [Hw Hleaf]]]]]].
  destruct (set_parts_overwrite value parts Hvalue obj referenceObj leaf Hne Hw Hleaf)
    as [obj' [Hset Hflat]].
  exists obj'. unfold setValueAtPath, getValueAtPath. cbn [app].
  rewrite split_on_join_with; auto using forallb_segment_dot_free.
  split; [exact Hset|]. split; [|exact Hflat].
  now apply (set_parts_walk parts obj referenceObj).
Qed.

Lemma setValueAtPath_overwrite_leaf_witness :
  exists obj',
    setValueAtPath hero_file "hero.links.0.text" (JStr "Doku") None = Updated obj'
    /\ getValueAtPath obj' "hero.links.0.text" = Some (JStr "Doku")
    /\ forall prefix, flattenKeys obj' prefix = flattenKeys hero_file prefix.
Proof.
  apply (setValueAtPath_overwrite_leaf hero_file "hero.links.0.text" (JStr "Doku") None
           eq_refl).
  - vm_compute. tauto.
  - reflexivity.
Defined.

Lemma assoc_assign_prop current key v current' :
  assign_prop current key v = Updated current' ->
  assoc key (own_entries current') = Some v.
Proof.
  destruct current as [| | | |items|props]; try discriminate.
  - simpl. destruct (arr_assign_from 0 items key v) as [items'|] eqn:E; [|discriminate].
    intros [= <-]. apply (assoc_arr_assign_from key v items 0 items' E).
  - intros H. apply assign_prop_object in H as ->. apply assoc_obj_assign.
Qed.

Lemma set_parts_flattenKeys value parts :
  is_object value = false ->
  forall current refCurrent current' pp,
    parts <> [] -> forallb segment_ok parts = true -> forallb segment_ok pp = true ->
    set_parts current refCurrent parts value = Updated current' ->
    In (join_with "." (pp ++ parts)) (flattenKeys current' (join_with "." pp)).
Proof.
  intros Hvalue.
  induction parts as [|part rest IH]; intros current refCurrent current' pp Hne Hok Hpp H;
    [now destruct Hne|].
  cbn [forallb] in Hok. apply andb_prop in Hok as [Hpart Hrest].
  assert (Hpp' : forallb segment_ok (pp ++ [part]) = true).
  { rewrite forallb_app, Hpp. simpl. now rewrite Hpart. }
  rewrite flattenKeys_entries. apply in_flat_map.
  destruct rest as [|part' rest'].
  - rewrite set_parts_last in H. apply assoc_assign_prop, assoc_Some_In in H.
    exists (part, value). split; [exact H|]. cbn [fst snd]. unfold flatten_visit.
    rewrite Hvalue, (join_path_join_with pp part Hpp). now left.
  - assert (Hne' : part' :: rest' <> []) by discriminate.
    apply set_parts_cons in H as [child [child' [_ [Hset [Hassign _]]]]];
      [|exact Hne'].
    apply assoc_assign_prop, assoc_Some_In in Hassign.
    exists (part, child'). split; [exact Hassign|]. cbn [fst snd]. unfold flatten_visit.
    pose proof (set_parts_kind _ _ _ _ _ Hne' Hset) as [Hobj _].
    rewrite Hobj, (join_path_join_with pp part Hpp).
    pose proof (IH child (ref_step refCurrent part) child' (pp ++ [part])
                  Hne' Hrest Hpp' Hset) as Hin.
    now rewrite <- app_assoc in Hin.
Qed.

(** X10.  A written leaf is a listed key: after a successful [setValueAtPath]
    of a leaf at a key path without an empty segment, [flattenKeys] lists
    the key path, so that [compareTranslations] no longer reports it as
    missing, whatever the source. *)
Theorem setValueAtPath_key_no_longer_missing :
  forall (obj obj' : JV) (keyPath : string) (value : JV)
         (referenceObj : option JV) (source : JV),
    setValueAtPath obj keyPath value referenceObj = Updated obj' ->
    is_object value = false ->
    forallb (fun part => negb (String.eqb part "")) (split_on dot keyPath) = true ->
    In keyPath (flattenKeys obj' "")
    /\ ~ In keyPath (missingInTarget (compareTranslations source obj')).
Proof.
  intros obj obj' keyPath value referenceObj source H Hvalue Hparts.
  assert (Hin : In keyPath (flattenKeys obj' "")).
  { unfold setValueAtPath in H.
    pose proof (set_parts_flattenKeys value (split_on dot keyPath) Hvalue
                  obj referenceObj obj' [] (split_on_not_nil dot keyPath)) as Hset.
    cbn [app join_with] in Hset. rewrite join_with_split_on in Hset.
    apply Hset; [|reflexivity|exact H].
    apply forallb_forall. intros part Hpart. unfold segment_ok.
    rewrite forallb_forall in Hparts. rewrite (Hparts part Hpart). simpl.
    apply (split_on_dot_free_segments keyPath part Hpart). }
  split; [exact Hin|].
  unfold compareTranslations. cbn [missingInTarget]. intros Hmiss.
  apply filter_In in Hmiss as [_ Hnot]. apply negb_true_iff in Hnot.
  unfold has, key_set in Hnot. apply bool_decide_eq_false in Hnot.
  apply Hnot. apply elem_of_list_to_set. now apply list_elem_of_In.
Qed.

Lemma setValueAtPath_key_no_longer_missing_witness :
  In "hero.links.0.text"
    (flattenKeys
       (JObj [("a", JStr "x");
              ("hero", JObj [("links", JArr [JObj [("text", JStr "Doku")]])])]) "")
  /\ ~ In "hero.links.0.text"
         (missingInTarget
            (compareTranslations hero_file
               (JObj [("a", JStr "x");
                      ("hero", JObj [("links", JArr [JObj [("text", JStr "Doku")]])])]))).
Proof.
  exact (setValueAtPath_key_no_longer_missing (JObj [("a", JStr "x")]) _
           "hero.links.0.text" (JStr "Doku") (Some hero_file) hero_file
           eq_refl eq_refl eq_refl).
Defined.

(** ** Trees of plain mappings *)

Lemma plain_tree_entries props :
  plain_tree (JObj props) = forallb (fun kv => plain_tree (snd kv)) props.
Proof.
  simpl. induction props as [|[k x] props IH]; simpl; [reflexivity|].
  now rewrite IH.
Qed.

Lemma plain_tree_assoc props key x :
  plain_tree (JObj props) = true -> assoc key props = Some x -> plain_tree x = true.
Proof.
  rewrite plain_tree_entries. intros H Hassoc.
  apply assoc_Some_In in Hassoc. rewrite forallb_forall in H.
  apply (H (key, x) Hassoc).
Qed.

Lemma plain_tree_replace_prop key v props :
  plain_tree v = true ->
  forallb (fun kv => plain_tree (snd kv)) props = true ->
  forallb (fun kv => plain_tree (snd kv)) (replace_prop key v props) = true.
Proof.
  intros Hv. induction props as [|[k x] props IH]; simpl; [reflexivity|].
  intros H. apply andb_prop in H as [Hx Hr].
  destruct (String.eqb key k); simpl.
  - now rewrite Hv, Hr.
  - now rewrite Hx, IH.
Qed.

Lemma plain_tree_insert_index n key v props :
  plain_tree v = true ->
  forallb (fun kv => plain_tree (snd kv)) props = true ->
  forallb (fun kv => plain_tree (snd kv)) (insert_index n key v props) = true.
Proof.
  intros Hv. induction props as [|[k x] props IH]; simpl.
  - now rewrite Hv.
  - intros H. apply andb_prop in H as [Hx Hr].
    destruct (index_of k) as [m|]; [destruct (m <? n)%N|]; simpl;
      rewrite ?Hv, ?Hx, ?Hr, ?IH; auto.
Qed.

Lemma plain_tree_obj_assign props key v :
  plain_tree (JObj props) = true -> plain_tree v = true ->
  plain_tree (JObj (obj_assign props key v)) = true.
Proof.
  rewrite !plain_tree_entries. intros Hp Hv. unfold obj_assign.
  destruct (assoc key props).
  - now apply plain_tree_replace_prop.
  - destruct (index_of key).
    + now apply plain_tree_insert_index.
    + rewrite forallb_app, Hp. simpl. now rewrite Hv.
Qed.

Lemma assign_prop_named props key v :
  String.eqb key "__proto__" = false ->
  assign_prop (JObj props) key v = Updated (JObj (obj_assign props key v)).
Proof. intros H. cbn [assign_prop]. unfold inherited_proto. now rewrite H. Qed.

Lemma set_parts_plain value parts :
  plain_tree value = true ->
  forallb (fun part => negb (String.eqb part "__proto__")) parts = true ->
  forall props,
    parts <> [] -> plain_tree (JObj props) = true ->
    exists props',
      set_parts (JObj props) None parts value = Updated (JObj props')
      /\ plain_tree (JObj props') = true.
Proof.
  intros Hvalue.
  induction parts as [|part rest IH]; intros Hparts props Hne Hplain;
    [now destruct Hne|].
  cbn [forallb] in Hparts. apply andb_prop in Hparts as [Hpart Hrest].
  apply negb_true_iff in Hpart.
  destruct rest as [|part' rest'].
  - exists (obj_assign props part value). rewrite set_parts_last.
    split; [now apply assign_prop_named|]. now apply plain_tree_obj_assign.
  - assert (Hne' : part' :: rest' <> []) by discriminate.
    change (set_parts (JObj props) None (part :: part' :: rest') value)
      with (set_parts_turn (JObj props) None part
              (fun child => set_parts child None (part' :: rest') value)).
    unfold set_parts_turn. cbn [is_object fresh_container].
    rewrite !(assign_prop_named props part _ Hpart).
    assert (Hfresh : exists props',
               set_parts (JObj []) None (part' :: rest') value = Updated (JObj props')
               /\ plain_tree (JObj (obj_assign props part (JObj props'))) = true).
    { destruct (IH Hrest [] Hne' eq_refl) as [props' [Hset Hp]].
      exists props'. split; [exact Hset|]. now apply plain_tree_obj_assign. }
    unfold get_prop. cbn [own_entries].
    destruct (assoc part props) as [child|] eqn:Hassoc.
    + pose proof (plain_tree_assoc props part child Hplain Hassoc) as Hchild.
      destruct child as [| | | |items|cprops]; try discriminate; cbn [typeof_object];
        try (destruct Hfresh as [props' [-> Hp]];
             rewrite (assign_prop_named props part _ Hpart);
             now exists (obj_assign props part (JObj props'))).
      destruct (IH Hrest cprops Hne' Hchild) as [props' [-> Hp]].
      rewrite (assign_prop_named props part _ Hpart).
      exists (obj_assign props part (JObj props')). split; [reflexivity|].
      now apply plain_tree_obj_assign.
    + destruct Hfresh as [props' [-> Hp]].
      rewrite (assign_prop_named props part _ Hpart).
      now exists (obj_assign props part (JObj props')).
Qed.

(** X9.  On a tree of plain mappings and of leaves other than [null], as the
    type [TranslationFile] declares, [setValueAtPath] without a reference
    never throws, for any key path without a segment [__proto__]: it
    yields a tree of the same kind that holds the value at the key path. *)
Theorem setValueAtPath_plain_succeeds :
  forall (props : list (string * JV)) (keyPath : string) (value : JV),
    plain_tree (JObj props) = true -> plain_tree value = true ->
    forallb (fun part => negb (String.eqb part "__proto__")) (split_on dot keyPath)
    = true ->
    exists obj',
      setValueAtPath (JObj props) keyPath value None = Updated obj'
      /\ plain_tree obj' = true
      /\ getValueAtPath obj' keyPath = Some value.
Proof.
  intros props keyPath value Hplain Hvalue Hparts. unfold setValueAtPath.
  destruct (set_parts_plain value (split_on dot keyPath) Hvalue Hparts props
              (split_on_not_nil dot keyPath) Hplain) as [props' [Hset Hp]].
  exists (JObj props'). split; [exact Hset|]. split; [exact Hp|].
  unfold getValueAtPath.
  now apply (set_parts_walk _ (JObj props) None value (JObj props')
               (split_on_not_nil dot keyPath)).
Qed.

Lemma setValueAtPath_plain_succeeds_witness :
  exists obj',
    setValueAtPath (JObj [("a", JStr "x")]) "a.b..c" (JStr "T") None = Updated obj'
    /\ plain_tree obj' = true
    /\ getValueAtPath obj' "a.b..c" = Some (JStr "T").
Proof.
  exact (setValueAtPath_plain_succeeds [("a", JStr "x")] "a.b..c" (JStr "T")
           eq_refl eq_refl eq_refl).
Defined.

(** ** No key path is listed twice *)

Lemma NoDup_flat_map_keys {B} (f : string * JV -> list B) (l : list (string * JV)) :
  List.NoDup (map fst l) ->
  (forall kv, In kv l -> List.NoDup (f kv)) ->
  (forall kv kv' b, In kv l -> In kv' l -> In b (f kv) -> In b (f kv') ->
                    fst kv = fst kv') ->
  List.NoDup (flat_map f l).
Proof.
  induction l as [|a l IH]; intros Hkeys Heach Hdisj; simpl; [constructor|].
  simpl in Hkeys. inversion Hkeys as [|? ? Hnotin Hkeys']; subst.
  apply List.NoDup_app.
  - apply Heach. now left.
  - apply IH; [exact Hkeys'| |].
    + intros kv Hkv. apply Heach. now right.
    + intros kv kv' b Hkv Hkv'. apply Hdisj; now right.
  - intros b Hb Hb'. apply in_flat_map in Hb' as [kv' [Hkv' Hb']].
    apply Hnotin. rewrite (Hdisj a kv' b); auto; [|now left|now right].
    now apply in_map.
Qed.

(** The key paths listed under a property go through its key. *)
Lemma flatten_visit_through_key v k x pp keyPath :
  keys_distinct v = true -> keys_canonical v = true ->
  In (k, x) (own_entries v) -> forallb segment_ok pp = true ->
  In keyPath (flatten_visit flattenKeys (join_with "." pp) k x) ->
  exists parts,
    forallb segment_ok parts = true /\ keyPath = join_with "." (pp ++ k :: parts).
Proof.
  intros Hkeys Hcan Hkx Hpp Hin.
  destruct (keys_canonical_entry v k x Hcan Hkx) as [Hk Hx].
  unfold flatten_visit in Hin. rewrite (join_path_join_with pp k Hpp) in Hin.
  destruct (is_object x).
  - assert (Hpp' : forallb segment_ok (pp ++ [k]) = true).
    { rewrite forallb_app, Hpp. simpl. now rewrite Hk. }
    assert (Hxk : keys_distinct x = true).
    { apply (keys_distinct_child v x Hkeys). now apply (in_map snd) in Hkx. }
    destruct (flattenKeys_own_segments x Hxk Hx (pp ++ [k]) keyPath Hpp' Hin)
      as [parts [leaf [_ [Hok [Hjoin _]]]]].
    exists parts. split; [exact Hok|]. now rewrite <- app_assoc in Hjoin.
  - destruct Hin as [<-|[]]. now exists [].
Qed.

Lemma flattenKeys_NoDup_from :
  forall v,
    keys_distinct v = true -> keys_canonical v = true ->
    forall pp, forallb segment_ok pp = true ->
               List.NoDup (flattenKeys v (join_with "." pp)).
Proof.
  induction v as [v IH] using JV_entries_ind. intros Hkeys Hcan pp Hpp.
  rewrite flattenKeys_entries. apply NoDup_flat_map_keys.
  - now apply keys_distinct_own_keys.
  - intros [k x] Hkx. cbn [fst snd]. unfold flatten_visit.
    destruct (keys_canonical_entry v k x Hcan Hkx) as [Hk Hx].
    rewrite (join_path_join_with pp k Hpp).
    destruct (is_object x).
    + apply (IH k x Hkx); [|exact Hx|].
      * apply (keys_distinct_child v x Hkeys). now apply (in_map snd) in Hkx.
      * rewrite forallb_app, Hpp. simpl. now rewrite Hk.
    + repeat constructor. intros [].
  - intros [k x] [k' x'] b Hkx Hkx' Hb Hb'. cbn [fst snd] in *.
    destruct (flatten_visit_through_key v k x pp b Hkeys Hcan Hkx Hpp Hb)
      as [parts [Hok E]].
    destruct (flatten_visit_through_key v k' x' pp b Hkeys Hcan Hkx' Hpp Hb')
      as [parts' [Hok' E']].
    destruct (keys_canonical_entry v k x Hcan Hkx) as [Hk _].
    destruct (keys_canonical_entry v k' x' Hcan Hkx') as [Hk' _].
    assert (Hsplit : pp ++ k :: parts = pp ++ k' :: parts').
    { rewrite <- (split_on_join_with (pp ++ k :: parts)).
      - rewrite <- E, E'. apply split_on_join_with.
        + now destruct pp.
        + apply forallb_segment_dot_free. rewrite forallb_app, Hpp. simpl.
          now rewrite Hk', Hok'.
      - now destruct pp.
      - apply forallb_segment_dot_free. rewrite forallb_app, Hpp. simpl.
        now rewrite Hk, Hok. }
    apply app_inv_head in Hsplit. now injection Hsplit.
Qed.

(** X4.  In a well-formed tree [flattenKeys] lists no key path twice, so that
    the totals of [compareTranslations] count distinct key paths. *)
Theorem flattenKeys_NoDup :
  forall v : JV, well_formed v = true -> List.NoDup (flattenKeys v "").
Proof.
  intros v Hwf. apply andb_prop in Hwf as [Hkeys Hcan].
  apply (flattenKeys_NoDup_from v Hkeys Hcan [] eq_refl).
Qed.

Lemma flattenKeys_NoDup_witness : List.NoDup (flattenKeys hero_file "").
Proof. exact (flattenKeys_NoDup hero_file eq_refl). Defined.

(** ** Removing a key path *)

Lemma remove_parts_last current last :
  remove_parts current [last] = delete_prop current last.
Proof. reflexivity. Qed.

Lemma remove_parts_cons current part part' rest' :
  remove_parts current (part :: part' :: rest')
  = if is_object current then
      match get_prop current part with
      | Some child =>
          if typeof_object child then
            match remove_parts child (part' :: rest') with
            | Updated child' => assign_prop current part child'
            | failure => failure
            end
          else Updated current
      | None =>
          if inherited_proto (own_entries current) part then NotModelled
          else Updated current
      end
    else ThrowsTypeError.
Proof. reflexivity. Qed.

Lemma assoc_filter_removed key props :
  assoc key (List.filter (fun kv => negb (String.eqb key (fst kv))) props) = None.
Proof.
  induction props as [|[k x] props IH]; simpl; [reflexivity|].
  destruct (String.eqb key k) eqn:E; simpl; [exact IH|]. now rewrite E.
Qed.

Lemma get_prop_delete_prop current key current' :
  delete_prop current key = Updated current' ->
  get_prop current' key = None /\ is_object current' = is_object current.
Proof.
  destruct current as [| | | |items|props]; try discriminate.
  - unfold delete_prop. destruct (get_prop (JArr items) key) eqn:E; [discriminate|].
    intros [= <-]. now split.
  - intros [= <-]. split; [|reflexivity]. unfold get_prop. cbn [own_entries].
    now rewrite assoc_filter_removed.
Qed.

Lemma remove_parts_walk parts :
  forall current current',
    parts <> [] -> remove_parts current parts = Updated current' ->
    walk current' parts = None.
Proof.
  induction parts as [|part rest IH]; intros current current' Hne H;
    [now destruct Hne|].
  destruct rest as [|part' rest'].
  - rewrite remove_parts_last in H. apply get_prop_delete_prop in H as [Hget _].
    cbn [walk]. rewrite Hget. now destruct (is_object current').
  - assert (Hne' : part' :: rest' <> []) by discriminate.
    rewrite remove_parts_cons in H.
    change (walk current' (part :: part' :: rest'))
      with (if is_object current' then
              match get_prop current' part with
              | Some next => walk next (part' :: rest')
              | None => None
              end
            else None).
    destruct (is_object current) eqn:Hobj; [|discriminate].
    destruct (get_prop current part) as [child|] eqn:Hget.
    + destruct (typeof_object child) eqn:Hty.
      * destruct (remove_parts child (part' :: rest')) as [child'| |] eqn:Hrem;
          try discriminate.
        apply get_prop_assign_prop in H as [Hget' [Hobj' _]].
        rewrite Hobj', Hget'. now apply (IH child).
      * injection H as <-. rewrite Hobj, Hget. apply walk_leaf; [|exact Hne'].
        now destruct child.
    + destruct (inherited_proto (own_entries current) part); [discriminate|].
      injection H as <-. now rewrite Hobj, Hget.
Qed.

(** X12.  After a successful [removeKeyAtPath] of a key path none of whose
    segments is an inherited name, the key path resolves to nothing,
    whether a key was deleted or the path did not exist. *)
Theorem getValueAtPath_removeKeyAtPath :
  forall (obj obj' : JV) (keyPath : string),
    own_segments keyPath = true ->
    removeKeyAtPath obj keyPath = Updated obj' ->
    getValueAtPath obj' keyPath = None.
Proof.
  intros obj obj' keyPath _ H. unfold getValueAtPath.
  apply (remove_parts_walk _ obj); [apply split_on_not_nil|exact H].
Qed.

Lemma getValueAtPath_removeKeyAtPath_witness :
  getValueAtPath
    (JObj [("hero",
            JObj [("description", JStr "Read the docs");
                  ("links",
                   JArr [JObj [("text", JStr "docs"); ("href", JStr "https://x")]])])])
    "hero.title"
  = None.
Proof.
  exact (getValueAtPath_removeKeyAtPath hero_file _ "hero.title" eq_refl eq_refl).
Defined.

Lemma assoc_split props key x :
  assoc key props = Some x ->
  exists l1 l2, props = l1 ++ (key, x) :: l2 /\ assoc key l1 = None.
Proof.
  induction props as [|[k y] props IH]; simpl; [discriminate|].
  destruct (String.eqb key k) eqn:E.
  - apply String.eqb_eq in E. subst k. intros [= ->]. now exists [], props.
  - intros H. destruct (IH H) as [l1 [l2 [-> Hl1]]].
    exists ((k, y) :: l1), l2. split; [reflexivity|]. simpl. now rewrite E.
Qed.

Lemma filter_key_absent key (l : list (string * JV)) :
  ~ In key (map fst l) ->
  List.filter (fun kv => negb (String.eqb key (fst kv))) l = l.
Proof.
  induction l as [|[k y] l IH]; simpl; [reflexivity|]. intros Hnot.
  destruct (String.eqb key k) eqn:E.
  - apply String.eqb_eq in E. subst k. destruct Hnot. now left.
  - simpl. rewrite IH; [reflexivity|]. intros Hin. apply Hnot. now right.
Qed.

Lemma filter_key_split key x (l1 l2 : list (string * JV)) :
  List.NoDup (map fst (l1 ++ (key, x) :: l2)) ->
  List.filter (fun kv => negb (String.eqb key (fst kv))) (l1 ++ (key, x) :: l2)
  = l1 ++ l2.
Proof.
  intros Hnd. rewrite map_app in Hnd. cbn [map fst] in Hnd.
  apply NoDup_remove in Hnd as [_ Hnot].
  rewrite List.filter_app. cbn [List.filter fst]. rewrite String.eqb_refl. simpl.
  rewrite !filter_key_absent; [reflexivity| |];
    intros Hin; apply Hnot, in_or_app; auto.
Qed.

Lemma replace_prop_split key x x' l1 l2 :
  assoc key l1 = None ->
  replace_prop key x' (l1 ++ (key, x) :: l2) = l1 ++ (key, x') :: l2.
Proof.
  induction l1 as [|[k y] l1 IH]; simpl.
  - now rewrite String.eqb_refl.
  - destruct (String.eqb key k); [discriminate|]. intros H. now rewrite IH.
Qed.

Lemma arr_assign_from_split key x x' items :
  forall i,
    assoc key (index_entries i items) = Some x ->
    exists l1 l2 items',
      index_entries i items = l1 ++ (key, x) :: l2
      /\ arr_assign_from i items key x' = Some items'
      /\ index_entries i items' = l1 ++ (key, x') :: l2.
Proof.
  induction items as [|y items IH]; intros i; simpl; [discriminate|].
  destruct (String.eqb key (index_key i)) eqn:E.
  - apply String.eqb_eq in E. subst key. intros [= ->].
    now exists [], (index_entries (S i) items), (x' :: items).
  - intros H. destruct (IH (S i) H) as [l1 [l2 [items' [E1 [-> E2]]]]].
    exists ((index_key i, y) :: l1), l2, (y :: items'). simpl.
    now rewrite E1, E2.
Qed.

(** Assigning to an own property replaces its value in place. *)
Lemma assign_prop_existing current key x x' :
  assoc key (own_entries current) = Some x ->
  exists l1 l2 current',
    own_entries current = l1 ++ (key, x) :: l2
    /\ assign_prop current key x' = Updated current'
    /\ own_entries current' = l1 ++ (key, x') :: l2.
Proof.
  intros Hassoc.
  destruct current as [| | | |items|props]; try discriminate; cbn [own_entries] in *.
  - destruct (arr_assign_from_split key x x' items 0 Hassoc)
      as [l1 [l2 [items' [E1 [E2 E3]]]]].
    exists l1, l2, (JArr items'). cbn [assign_prop]. now rewrite E2.
  - destruct (assoc_split props key x Hassoc) as [l1 [l2 [-> Hl1]]].
    exists l1, l2, (JObj (replace_prop key x' (l1 ++ (key, x) :: l2))).
    split; [reflexivity|]. split.
    + rewrite (assign_prop_own _ key x x' Hassoc). unfold obj_assign.
      now rewrite Hassoc.
    + cbn [own_entries]. now apply replace_prop_split.
Qed.

Lemma remove_parts_kind parts :
  forall current current',
    parts <> [] -> remove_parts current parts = Updated current' ->
    is_object current' = is_object current.
Proof.
  destruct parts as [|part rest]; intros current current' Hne H; [now destruct Hne|].
  destruct rest as [|part' rest'].
  - rewrite remove_parts_last in H. now apply get_prop_delete_prop in H.
  - rewrite remove_parts_cons in H.
    destruct (is_object current) eqn:Hobj; [|discriminate].
    destruct (get_prop current part) as [child|];
      [|destruct (inherited_proto (own_entries current) part);
        [discriminate|now injection H as <-]].
    destruct (typeof_object child); [|now injection H as <-].
    destruct (remove_parts child (part' :: rest')); try discriminate.
    now apply get_prop_assign_prop in H.
Qed.

Lemma remove_parts_flattenKeys parts :
  forall current current' pp leaf,
    parts <> [] -> keys_distinct current = true -> keys_canonical current = true ->
    forallb segment_ok pp = true ->
    own_walk current parts = Some leaf -> is_object leaf = false ->
    remove_parts current parts = Updated current' ->
    exists before after,
      flattenKeys current (join_with "." pp)
      = before ++ join_with "." (pp ++ parts) :: after
      /\ flattenKeys current' (join_with "." pp) = before ++ after.
Proof.
  induction parts as [|part rest IH];
    intros current current' pp leaf Hne Hkeys Hcan Hpp Hw Hleaf H;
    [now destruct Hne|].
  cbn [own_walk] in Hw.
  destruct (assoc part (own_entries current)) as [x|] eqn:Hassoc; [|discriminate].
  apply assoc_Some_In in Hassoc as Hin.
  destruct (keys_canonical_entry current part x Hcan Hin) as [Hpart Hx].
  rewrite !flattenKeys_entries.
  destruct rest as [|part' rest'].
  - injection Hw as ->. rewrite remove_parts_last in H.
    destruct current as [| | | |items|props]; try discriminate.
    + unfold delete_prop, get_prop in H. now rewrite Hassoc in H.
    + injection H as <-. cbn [own_entries] in *.
      destruct (assoc_split props part leaf Hassoc) as [l1 [l2 [-> _]]].
      rewrite filter_key_split by now apply (keys_distinct_own_keys (JObj _)).
      rewrite !flat_map_app. cbn [flat_map fst snd]. unfold flatten_visit at 2.
      rewrite Hleaf, (join_path_join_with pp part Hpp).
      exists (flat_map (fun kv => flatten_visit flattenKeys (join_with "." pp) (fst kv) (snd kv)) l1),
             (flat_map (fun kv => flatten_visit flattenKeys (join_with "." pp) (fst kv) (snd kv)) l2).
      split; reflexivity.
  - assert (Hne' : part' :: rest' <> []) by discriminate.
    assert (Hobjx : is_object x = true).
    { destruct (is_object x) eqn:Ex; [reflexivity|].
      rewrite own_walk_leaf in Hw; [discriminate|exact Ex|exact Hne']. }
    rewrite remove_parts_cons in H.
    rewrite (own_entries_is_object current _ Hin) in H.
    unfold get_prop in H. rewrite Hassoc in H.
    assert (Hty : typeof_object x = true) by now destruct x.
    rewrite Hty in H.
    destruct (remove_parts x (part' :: rest')) as [x'| |] eqn:Hrem; try discriminate.
    assert (Hpp' : forallb segment_ok (pp ++ [part]) = true).
    { rewrite forallb_app, Hpp. simpl. now rewrite Hpart. }
    assert (Hxk : keys_distinct x = true).
    { apply (keys_distinct_child current x Hkeys). now apply (in_map snd) in Hin. }
    destruct (IH x x' (pp ++ [part]) leaf Hne' Hxk Hx Hpp' Hw Hleaf Hrem)
      as [before [after [Eb Ea]]].
    rewrite <- app_assoc in Eb. cbn [app] in Eb.
    destruct (assign_prop_existing current part x x' Hassoc)
      as [l1 [l2 [c' [E1 [E2 E3]]]]].
    rewrite E2 in H. injection H as <-. rewrite E1, E3.
    rewrite !flat_map_app. cbn [flat_map fst snd]. unfold flatten_visit at 2 5.
    rewrite Hobjx, (remove_parts_kind _ _ _ Hne' Hrem), Hobjx.
    rewrite (join_path_join_with pp part Hpp), Eb, Ea.
    exists (flat_map (fun kv => flatten_visit flattenKeys (join_with "." pp) (fst kv) (snd kv)) l1
            ++ before),
           (after
            ++ flat_map (fun kv => flatten_visit flattenKeys (join_with "." pp) (fst kv) (snd kv)) l2).
    split.
    + rewrite <- !app_assoc. cbn [app]. reflexivity.
    + rewrite <- !app_assoc. reflexivity.
Qed.

Lemma filter_remove_NoDup key (before after : list string) :
  List.NoDup (before ++ key :: after) ->
  List.filter (fun k => negb (String.eqb k key)) (before ++ key :: after)
  = before ++ after.
Proof.
  intros Hnd. apply NoDup_remove in Hnd as [_ Hnot].
  rewrite List.filter_app. cbn [List.filter]. rewrite String.eqb_refl. simpl.
  assert (Hkeep : forall l, ~ In key l ->
                            List.filter (fun k => negb (String.eqb k key)) l = l).
  { induction l as [|k l IHl]; simpl; [reflexivity|]. intros Hl.
    destruct (String.eqb k key) eqn:E.
    - apply String.eqb_eq in E. subst k. destruct Hl. now left.
    - simpl. rewrite IHl; [reflexivity|]. intros Hin. apply Hl. now right. }
  rewrite !Hkeep; [reflexivity| |]; intros Hin; apply Hnot, in_or_app; auto.
Qed.

(** X13.  Removing a listed key removes it and nothing else: in a well-formed
    tree, a successful [removeKeyAtPath] of a key path of [flattenKeys]
    leaves the other flattened key paths, in their order. *)
Theorem removeKeyAtPath_removes_exactly :
  forall (obj obj' : JV) (keyPath : string),
    well_formed obj = true -> In keyPath (flattenKeys obj "") ->
    removeKeyAtPath obj keyPath = Updated obj' ->
    flattenKeys obj' ""
    = List.filter (fun k => negb (String.eqb k keyPath)) (flattenKeys obj "").
Proof.
  intros obj obj' keyPath Hwf Hin H. apply andb_prop in Hwf as [Hkeys Hcan].
  pose proof (flattenKeys_NoDup_from obj Hkeys Hcan [] eq_refl) as Hnd.
  destruct (flattenKeys_own_segments obj Hkeys Hcan [] keyPath eq_refl Hin)
    as [parts [leaf [Hne [Hok [-> [Hw Hleaf]]]]]].
  unfold removeKeyAtPath in H. cbn [app] in H.
  rewrite split_on_join_with in H; auto using forallb_segment_dot_free.
  destruct (remove_parts_flattenKeys parts obj obj' [] leaf Hne Hkeys Hcan eq_refl
              Hw Hleaf H) as [before [after [Eb Ea]]].
  cbn [app join_with] in *. rewrite Ea. rewrite Eb in Hnd |- *.
  symmetry. now apply filter_remove_NoDup.
Qed.

Lemma removeKeyAtPath_removes_exactly_witness :
  flattenKeys
    (JObj [("hero",
            JObj [("description", JStr "Read the docs");
                  ("links",
                   JArr [JObj [("text", JStr "docs"); ("href", JStr "https://x")]])])])
    ""
  = List.filter (fun k => negb (String.eqb k "hero.title")) (flattenKeys hero_file "").
Proof.
  apply (removeKeyAtPath_removes_exactly hero_file _ "hero.title" eq_refl).
  - vm_compute. tauto.
  - reflexivity.
Defined.

(** ** Cleaning empty containers *)

Lemma cleanEmptyObjects_cons key value rest :
  cleanEmptyObjects (JObj ((key, value) :: rest))
  = match clean_visit cleanEmptyObjects value, cleanEmptyObjects (JObj rest) with
    | Some (CleanTo v'), CleanTo (JObj kept) => CleanTo (JObj ((key, v') :: kept))
    | None, CleanTo (JObj kept) => CleanTo (JObj kept)
    | _, _ => SomeHoles
    end.
Proof. reflexivity. Qed.

Lemma cleanEmptyObjects_array items :
  cleanEmptyObjects (JArr items)
  = match clean_elements (map (clean_visit cleanEmptyObjects) items) with
    | Some elements =>
        match all_some elements with
        | Some dense => CleanTo (JArr dense)
        | None =>
            if forallb (fun e => match e with None => true | Some _ => false end)
                 elements
            then AllHoles
            else SomeHoles
        end
    | None => SomeHoles
    end.
Proof.
  cbn [cleanEmptyObjects].
  replace ((fix each (items0 : list JV) : list (option Cleaned) :=
              match items0 with
              | [] => []
              | value :: rest => clean_visit cleanEmptyObjects value :: each rest
              end) items)
    with (map (clean_visit cleanEmptyObjects) items); [reflexivity|].
  induction items as [|x items IH]; simpl; [reflexivity|]. now rewrite IH.
Qed.

Lemma no_empty_values_object props :
  no_empty_values (JObj props)
  = forallb (fun kv => negb (is_empty_container (snd kv)) && no_empty_values (snd kv))
      props.
Proof.
  simpl. induction props as [|[k x] props IH]; simpl; [reflexivity|].
  now rewrite IH.
Qed.

Lemma no_empty_values_array items :
  no_empty_values (JArr items)
  = forallb (fun x => negb (is_empty_container x) && no_empty_values x) items.
Proof.
  simpl. induction items as [|x items IH]; simpl; [reflexivity|].
  now rewrite IH.
Qed.

Lemma no_empty_values_leaf v : is_object v = false -> no_empty_values v = true.
Proof. now destruct v. Qed.

Lemma is_empty_container_entries v :
  is_object v = true -> is_empty_container v = true -> own_entries v = [].
Proof. now destruct v as [| | | |[|]|[|]]. Qed.

Lemma not_empty_container_entries v :
  own_entries v <> [] -> is_empty_container v = false.
Proof. destruct v as [| | | |[|]|[|]]; simpl; congruence. Qed.

(** What the loop decides on one value, given what the recursive call
    does on it. *)
Lemma clean_visit_cases value :
  ((forall v', cleanEmptyObjects value = CleanTo v' ->
               (forall prefix, flattenKeys v' prefix = flattenKeys value prefix)
               /\ is_object v' = is_object value /\ no_empty_values v' = true)
   /\ (cleanEmptyObjects value = AllHoles ->
       forall prefix, flattenKeys value prefix = [])) ->
  match clean_visit cleanEmptyObjects value with
  | Some (CleanTo v') =>
      (forall prefix key,
          flatten_visit flattenKeys prefix key v'
          = flatten_visit flattenKeys prefix key value)
      /\ is_empty_container v' = false /\ no_empty_values v' = true
  | None =>
      forall prefix key, flatten_visit flattenKeys prefix key value = []
  | Some _ => True
  end.
Proof.
  intros [Hclean Hholes]. unfold clean_visit.
  destruct (is_object value) eqn:Hobj.
  - destruct (cleanEmptyObjects value) as [v'| |] eqn:E; [| |exact I].
    + destruct (Hclean v' eq_refl) as [Hflat [Hobj' Hne]].
      destruct (own_entries v') as [|e es] eqn:Ee.
      * intros prefix key. unfold flatten_visit.
        rewrite Hobj, <- Hflat, flattenKeys_entries. now rewrite Ee.
      * split; [|split; [|exact Hne]].
        -- intros prefix key. unfold flatten_visit. now rewrite Hobj', Hobj, Hflat.
        -- apply not_empty_container_entries. now rewrite Ee.
    + intros prefix key. unfold flatten_visit. rewrite Hobj. now apply Hholes.
  - split; [reflexivity|]. split; [now destruct value|].
    now apply no_empty_values_leaf.
Qed.

Lemma cleanEmptyObjects_object props :
  Forall (fun kv =>
            (forall v', cleanEmptyObjects (snd kv) = CleanTo v' ->
                        (forall prefix, flattenKeys v' prefix = flattenKeys (snd kv) prefix)
                        /\ is_object v' = is_object (snd kv)
                        /\ no_empty_values v' = true)
            /\ (cleanEmptyObjects (snd kv) = AllHoles ->
                forall prefix, flattenKeys (snd kv) prefix = [])) props ->
  match cleanEmptyObjects (JObj props) with
  | CleanTo v' =>
      exists kept,
        v' = JObj kept
        /\ (forall prefix, flattenKeys (JObj kept) prefix = flattenKeys (JObj props) prefix)
        /\ no_empty_values (JObj kept) = true
  | AllHoles => False
  | SomeHoles => True
  end.
Proof.
  induction props as [|[key value] props IH]; intros Hall.
  - exists []. now repeat split.
  - inversion Hall as [|? ? Hvalue Hrest]; subst. cbn [snd] in Hvalue.
    specialize (IH Hrest). rewrite cleanEmptyObjects_cons.
    pose proof (clean_visit_cases value Hvalue) as Hvisit.
    destruct (clean_visit cleanEmptyObjects value) as [[v'| |]|];
      destruct (cleanEmptyObjects (JObj props)) as [r| |]; try exact I;
      try contradiction; try (destruct r; exact I).
    + destruct IH as [kept [-> [Hflat Hne]]].
      destruct Hvisit as [Hv [Hnot Hne']].
      exists ((key, v') :: kept). split; [reflexivity|]. split.
      * intros prefix. specialize (Hflat prefix).
        rewrite !flattenKeys_entries in *. cbn [own_entries flat_map fst snd] in *.
        now rewrite Hv, Hflat.
      * rewrite no_empty_values_object in *. cbn [forallb snd].
        now rewrite Hnot, Hne', Hne.
    + destruct IH as [kept [-> [Hflat Hne]]].
      exists kept. split; [reflexivity|]. split; [|exact Hne].
      intros prefix. specialize (Hflat prefix).
      rewrite !flattenKeys_entries in *. cbn [own_entries flat_map fst snd] in *.
      now rewrite Hvisit, Hflat.
Qed.

Lemma cleanEmptyObjects_elements items :
  Forall (fun x =>
            (forall v', cleanEmptyObjects x = CleanTo v' ->
                        (forall prefix, flattenKeys v' prefix = flattenKeys x prefix)
                        /\ is_object v' = is_object x
                        /\ no_empty_values v' = true)
            /\ (cleanEmptyObjects x = AllHoles ->
                forall prefix, flattenKeys x prefix = [])) items ->
  forall elements,
    clean_elements (map (clean_visit cleanEmptyObjects) items) = Some elements ->
    (forall dense,
        all_some elements = Some dense ->
        (forall i prefix,
            flat_map (fun kv => flatten_visit flattenKeys prefix (fst kv) (snd kv))
              (index_entries i dense)
            = flat_map (fun kv => flatten_visit flattenKeys prefix (fst kv) (snd kv))
                (index_entries i items))
        /\ forallb (fun x => negb (is_empty_container x) && no_empty_values x) dense
           = true)
    /\ (forallb (fun e => match e with None => true | Some _ => false end) elements
        = true ->
        forall i prefix,
          flat_map (fun kv => flatten_visit flattenKeys prefix (fst kv) (snd kv))
            (index_entries i items)
          = []).
Proof.
  induction items as [|x items IH]; intros Hall elements.
  - simpl. intros [= <-]. split.
    + simpl. intros dense [= <-]. now split.
    + reflexivity.
  - inversion Hall as [|? ? Hx Hrest]; subst. specialize (IH Hrest).
    pose proof (clean_visit_cases x Hx) as Hvisit.
    cbn [map clean_elements].
    destruct (clean_visit cleanEmptyObjects x) as [[v'| |]|]; try discriminate.
    + destruct (clean_elements (map (clean_visit cleanEmptyObjects) items))
        as [l|]; [|discriminate].
      intros [= <-]. destruct (IH l eq_refl) as [IHdense _].
      destruct Hvisit as [Hv [Hnot Hne]]. split; [|discriminate].
      cbn [all_some]. intros dense Hdense.
      destruct (all_some l) as [r|]; [|discriminate]. injection Hdense as <-.
      destruct (IHdense r eq_refl) as [Hflat Hall']. split.
      * intros i prefix. cbn [index_entries flat_map fst snd].
        now rewrite Hv, Hflat.
      * cbn [forallb]. now rewrite Hnot, Hne, Hall'.
    + destruct (clean_elements (map (clean_visit cleanEmptyObjects) items))
        as [l|]; [|discriminate].
      intros [= <-]. destruct (IH l eq_refl) as [_ IHnone]. split.
      * cbn [all_some]. discriminate.
      * cbn [forallb]. intros Hl i prefix. cbn [index_entries flat_map fst snd].
        now rewrite Hvisit, (IHnone Hl).
Qed.

Lemma cleanEmptyObjects_invariant :
  forall obj,
    (forall obj', cleanEmptyObjects obj = CleanTo obj' ->
                  (forall prefix, flattenKeys obj' prefix = flattenKeys obj prefix)
                  /\ is_object obj' = is_object obj
                  /\ no_empty_values obj' = true)
    /\ (cleanEmptyObjects obj = AllHoles ->
        forall prefix, flattenKeys obj prefix = []).
Proof.
  induction obj as [| | | |items IH|props IH] using JV_ind;
    try (split; [intros obj' [= <-]; now repeat split|discriminate]).
  - rewrite cleanEmptyObjects_array.
    destruct (clean_elements (map (clean_visit cleanEmptyObjects) items))
      as [elements|] eqn:E; [|split; [discriminate|discriminate]].
    destruct (cleanEmptyObjects_elements items IH elements E) as [Hdense Hnone].
    destruct (all_some elements) as [dense|].
    + split; [|discriminate]. intros obj' [= <-].
      destruct (Hdense dense eq_refl) as [Hflat Hall]. split; [|split].
      * intros prefix. rewrite !flattenKeys_entries. apply Hflat.
      * reflexivity.
      * now rewrite no_empty_values_array.
    + destruct (forallb _ elements) eqn:Hf; [|split; discriminate].
      split; [discriminate|]. intros _ prefix.
      rewrite flattenKeys_entries. now apply Hnone.
  - pose proof (cleanEmptyObjects_object props IH) as H.
    destruct (cleanEmptyObjects (JObj props)) as [v'| |]; [|contradiction|].
    + destruct H as [kept [-> [Hflat Hne]]]. split; [|discriminate].
      intros obj' [= <-]. now repeat split.
    + split; discriminate.
Qed.

(** X14.  [cleanEmptyObjects] drops no key path and leaves no empty container:
    the cleaned tree has the flattened key paths of the tree it was given,
    in their order, and none of its properties, at any depth, holds a
    container without keys. *)
Theorem cleanEmptyObjects_keeps_key_paths :
  forall obj obj' : JV,
    cleanEmptyObjects obj = CleanTo obj' ->
    (forall prefix, flattenKeys obj' prefix = flattenKeys obj prefix)
    /\ no_empty_values obj' = true.
Proof.
  intros obj obj' H.
  destruct (proj1 (cleanEmptyObjects_invariant obj) obj' H) as [Hflat [_ Hne]].
  now split.
Qed.

Lemma cleanEmptyObjects_keeps_key_paths_witness :
  (forall prefix,
      flattenKeys (JObj [("c", JStr "x")]) prefix
      = flattenKeys (JObj [("a", JObj [("b", JObj [])]); ("c", JStr "x")]) prefix)
  /\ no_empty_values (JObj [("c", JStr "x")]) = true.
Proof.
  exact (cleanEmptyObjects_keeps_key_paths
           (JObj [("a", JObj [("b", JObj [])]); ("c", JStr "x")]) _ eq_refl).
Defined.

Lemma nonempty_container_entries v :
  is_object v = true -> is_empty_container v = false -> own_entries v <> [].
Proof. destruct v as [| | | |[|]|[|]]; simpl; congruence. Qed.

Lemma clean_visit_fixed value :
  (no_empty_values value = true -> cleanEmptyObjects value = CleanTo value) ->
  negb (is_empty_container value) && no_empty_values value = true ->
  clean_visit cleanEmptyObjects value = Some (CleanTo value).
Proof.
  intros IH H. apply andb_prop in H as [Hnot Hne]. apply negb_true_iff in Hnot.
  unfold clean_visit. destruct (is_object value) eqn:Hobj; [|reflexivity].
  rewrite (IH Hne).
  pose proof (nonempty_container_entries value Hobj Hnot) as Hentries.
  now destruct (own_entries value).
Qed.

(** A tree without an empty container among its values is left as it
    is. *)
Lemma cleanEmptyObjects_fixed :
  forall v, no_empty_values v = true -> cleanEmptyObjects v = CleanTo v.
Proof.
  induction v as [| | | |items IH|props IH] using JV_ind; try reflexivity.
  - rewrite no_empty_values_array, cleanEmptyObjects_array. intros H.
    assert (E : clean_elements (map (clean_visit cleanEmptyObjects) items)
                = Some (map Some items)
                /\ all_some (map Some items) = Some items).
    { induction items as [|x items IHitems]; [now split|].
      inversion IH as [|? ? Hx Hrest]; subst.
      cbn [forallb] in H. apply andb_prop in H as [Hhead Htail].
      destruct (IHitems Hrest Htail) as [E1 E2].
      cbn [map clean_elements all_some].
      now rewrite (clean_visit_fixed x Hx Hhead), E1, E2. }
    destruct E as [-> ->]. reflexivity.
  - rewrite no_empty_values_object. intros H.
    induction props as [|[key value] props IHprops]; [reflexivity|].
    inversion IH as [|? ? Hvalue Hrest]; subst. cbn [snd] in Hvalue.
    cbn [forallb snd] in H. apply andb_prop in H as [Hhead Htail].
    rewrite cleanEmptyObjects_cons, (clean_visit_fixed value Hvalue Hhead).
    now rewrite (IHprops Hrest Htail).
Qed.

(** X15.  [cleanEmptyObjects] is idempotent: cleaning a cleaned tree changes
    nothing. *)
Theorem cleanEmptyObjects_idempotent :
  forall obj obj' : JV,
    cleanEmptyObjects obj = CleanTo obj' ->
    cleanEmptyObjects obj' = CleanTo obj'.
Proof.
  intros obj obj' H. apply cleanEmptyObjects_fixed.
  now destruct (proj1 (cleanEmptyObjects_invariant obj) obj' H) as [_ [_ Hne]].
Qed.

Lemma cleanEmptyObjects_idempotent_witness :
  cleanEmptyObjects (JObj [("c", JStr "x")]) = CleanTo (JObj [("c", JStr "x")]).
Proof.
  exact (cleanEmptyObjects_idempotent
           (JObj [("a", JObj [("b", JObj [])]); ("c", JStr "x")]) _ eq_refl).
Defined.

Lemma cleanEmptyObjects_plain_object props :
  Forall (fun kv =>
            plain_tree (snd kv) = true ->
            exists v', cleanEmptyObjects (snd kv) = CleanTo v' /\ plain_tree v' = true)
    props ->
  plain_tree (JObj props) = true ->
  exists kept,
    cleanEmptyObjects (JObj props) = CleanTo (JObj kept)
    /\ plain_tree (JObj kept) = true.
Proof.
  rewrite plain_tree_entries.
  induction props as [|[key value] props IHprops]; intros IH H.
  - now exists [].
  - inversion IH as [|? ? Hvalue Hrest]; subst. cbn [snd] in Hvalue.
    cbn [forallb snd] in H. apply andb_prop in H as [Hhead Htail].
    destruct (IHprops Hrest Htail) as [kept [E Hkept]].
    destruct (Hvalue Hhead) as [v' [Ev Hv']].
    rewrite cleanEmptyObjects_cons, E. unfold clean_visit. rewrite Ev.
    destruct (is_object value) eqn:Hobj.
    + destruct (own_entries v').
      * now exists kept.
      * exists ((key, v') :: kept). split; [reflexivity|].
        rewrite plain_tree_entries in *. cbn [forallb snd]. now rewrite Hv', Hkept.
    + exists ((key, value) :: kept). split; [reflexivity|].
      rewrite plain_tree_entries in *. cbn [forallb snd]. now rewrite Hhead, Hkept.
Qed.

Lemma cleanEmptyObjects_plain :
  forall v,
    plain_tree v = true ->
    exists v', cleanEmptyObjects v = CleanTo v' /\ plain_tree v' = true.
Proof.
  induction v as [| | | |items IH|props IH] using JV_ind; intros H;
    try discriminate; try (eexists; split; [reflexivity|exact H]).
  destruct (cleanEmptyObjects_plain_object props IH H) as [kept [E Hk]].
  now exists (JObj kept).
Qed.

(** ** The diff engine on whole files *)

Lemma has_key_set_In keys k : has (key_set keys) k = true <-> In k keys.
Proof.
  unfold has, key_set. rewrite bool_decide_eq_true, elem_of_list_to_set.
  apply list_elem_of_In.
Qed.

Lemma filter_nil_iff {A} (f : A -> bool) l :
  List.filter f l = [] <-> forall x, In x l -> f x = false.
Proof.
  induction l as [|a l IH]; simpl.
  - split; [intros _ x []|reflexivity].
  - destruct (f a) eqn:E.
    + split; [discriminate|]. intros H. specialize (H a (or_introl eq_refl)).
      congruence.
    + rewrite IH. split.
      * intros H x [<-|Hx]; auto.
      * intros H x Hx. apply H. now right.
Qed.

Lemma filter_all {A} (f : A -> bool) l :
  (forall x, In x l -> f x = true) -> List.filter f l = l.
Proof.
  induction l as [|a l IH]; simpl; [reflexivity|]. intros H.
  rewrite (H a (or_introl eq_refl)), IH; [reflexivity|].
  intros x Hx. apply H. now right.
Qed.

(** X17.  For well-formed files, [checkFileSync] answers [inSync] exactly when
    every key path of the reference is a key path of the target: the
    mismatch count plays no part, and keys the target has in excess are
    never an obstacle. *)
Theorem checkFileSync_inSync_iff :
  forall reference target : JV,
    well_formed reference = true -> well_formed target = true ->
    (fst (checkFileSync reference target) = true
     <-> forall keyPath,
           In keyPath (flattenKeys reference "") -> In keyPath (flattenKeys target "")).
Proof.
  intros reference target Href Htarget. unfold checkFileSync. cbn [fst].
  assert (Hmis : typeMismatches (compareTranslations reference target) = []).
  { apply flat_map_nil. intros keyPath Hin. unfold mismatch_visit.
    destruct (has (key_set (flattenKeys target "")) keyPath) eqn:Hhas; [|reflexivity].
    apply has_key_set in Hhas.
    destruct (getValueAtPath_flattenKeys reference keyPath Href Hin) as [ls [-> Hls]].
    destruct (getValueAtPath_flattenKeys target keyPath Htarget Hhas) as [lt [-> Hlt]].
    now rewrite (getValueType_leaf ls Hls), (getValueType_leaf lt Hlt). }
  unfold compareTranslations in *. cbn [summary missingCount typeMismatchCount typeMismatches] in *.
  rewrite Hmis. cbn [List.length]. rewrite Nat.eqb_refl, andb_true_r, Nat.eqb_eq.
  rewrite length_zero_iff_nil, filter_nil_iff. split.
  - intros H keyPath Hin. specialize (H keyPath Hin).
    apply negb_false_iff in H. now apply has_key_set_In.
  - intros H keyPath Hin. apply negb_false_iff. apply has_key_set_In. now apply H.
Qed.

Lemma checkFileSync_inSync_iff_witness :
  fst (checkFileSync (JObj [("a", JStr "x")])
         (JObj [("extra", JStr "z"); ("a", JStr "y")])) = true
  <-> forall keyPath,
        In keyPath (flattenKeys (JObj [("a", JStr "x")]) "") ->
        In keyPath (flattenKeys (JObj [("extra", JStr "z"); ("a", JStr "y")]) "").
Proof.
  exact (checkFileSync_inSync_iff (JObj [("a", JStr "x")])
           (JObj [("extra", JStr "z"); ("a", JStr "y")]) eq_refl eq_refl).
Defined.

(** Against a target without keys every key path of the source is missing,
    in the order of the source, and nothing is extra or mismatched; against
    a source without keys every key path of the target is extra. *)
Theorem compareTranslations_empty_side :
  forall file : JV,
    compareTranslations file (JObj [])
    = mkReport (flattenKeys file "") [] []
        (mkSummary (List.length (flattenKeys file "")) 0 (List.length (flattenKeys file ""))
           0 0)
    /\ compareTranslations (JObj []) file
       = mkReport [] (flattenKeys file "") []
           (mkSummary 0 (List.length (flattenKeys file "")) 0
              (List.length (flattenKeys file "")) 0).
Proof.
  intros file. unfold compareTranslations. cbn [flattenKeys List.filter flat_map List.length].
  assert (Hnone : forall k, has (key_set []) k = false).
  { intros k. unfold has, key_set. apply bool_decide_eq_false. simpl. set_solver. }
  assert (Hfilter : List.filter (fun key => negb (has (key_set []) key)) (flattenKeys file "")
                    = flattenKeys file "").
  { apply filter_all. intros k _. now rewrite Hnone. }
  assert (Hmis : flat_map (mismatch_visit file (JObj []) (key_set [])) (flattenKeys file "")
                 = []).
  { apply flat_map_nil. intros k _. unfold mismatch_visit. now rewrite Hnone. }
  rewrite Hfilter, Hmis. split; reflexivity.
Qed.

(** ** The reconciler keeps trees well-formed *)

Lemma well_formed_child v k x :
  well_formed v = true -> In (k, x) (own_entries v) -> well_formed x = true.
Proof.
  intros Hwf Hin. apply andb_prop in Hwf as [Hkeys Hcan]. unfold well_formed.
  rewrite (keys_distinct_child v x Hkeys) by now apply (in_map snd) in Hin.
  now destruct (keys_canonical_entry v k x Hcan Hin) as [_ ->].
Qed.

Lemma well_formed_get_prop v k x :
  well_formed v = true -> get_prop v k = Some x -> well_formed x = true.
Proof.
  intros Hwf. unfold get_prop.
  destruct (assoc k (own_entries v)) as [y|] eqn:E.
  - intros [= <-]. apply assoc_Some_In in E. now apply (well_formed_child v k).
  - destruct v; try discriminate. destruct (String.eqb k "length"); [|discriminate].
    now intros [= <-].
Qed.

Lemma well_formed_object props :
  List.NoDup (map fst props) ->
  (forall k x, In (k, x) props -> segment_ok k = true /\ well_formed x = true) ->
  well_formed (JObj props) = true.
Proof.
  intros Hnd Hall. unfold well_formed.
  rewrite keys_distinct_object, keys_canonical_object.
  apply andb_true_intro. split; [apply andb_true_intro; split|].
  - apply bool_decide_eq_true. now apply NoDup_ListNoDup.
  - apply forallb_forall. intros [k x] Hin. destruct (Hall k x Hin) as [_ H].
    now apply andb_prop in H as [H _].
  - apply forallb_forall. intros [k x] Hin. destruct (Hall k x Hin) as [Hk H].
    apply andb_prop in H as [_ H]. cbn [fst snd]. now rewrite Hk, H.
Qed.

Lemma well_formed_array items :
  (forall x, In x items -> well_formed x = true) -> well_formed (JArr items) = true.
Proof.
  intros Hall. unfold well_formed. rewrite keys_distinct_array, keys_canonical_array.
  apply andb_true_intro. split; apply forallb_forall; intros x Hin;
    specialize (Hall x Hin); apply andb_prop in Hall; tauto.
Qed.

Lemma well_formed_array_element items x :
  well_formed (JArr items) = true -> In x items -> well_formed x = true.
Proof.
  unfold well_formed. rewrite keys_distinct_array, keys_canonical_array.
  intros H Hin. apply andb_prop in H as [H1 H2].
  rewrite forallb_forall in H1, H2. now rewrite (H1 x Hin), (H2 x Hin).
Qed.

Lemma well_formed_merge_items ss :
  (forall s, In s ss -> forall content,
      well_formed content = true ->
      well_formed (reorderToMatchSource s content) = true) ->
  forall cs x,
    (forall c, In c cs -> well_formed c = true) ->
    In x (merge_items reorderToMatchSource ss cs) -> well_formed x = true.
Proof.
  induction ss as [|s ss IH]; intros Hs [|c cs] x Hcs Hin; simpl in Hin;
    try contradiction.
  destruct Hin as [<-|Hin].
  - unfold merge_item. destruct (is_object s && is_object c).
    + apply Hs; [now left|]. apply Hcs. now left.
    + apply Hcs. now left.
  - apply (IH (fun s' Hs' => Hs s' (or_intror Hs')) cs x); [|exact Hin].
    intros c' Hc'. apply Hcs. now right.
Qed.

Lemma well_formed_reorderToMatchSource_both :
  forall source,
    well_formed source = true ->
    (forall content,
        well_formed content = true ->
        well_formed (reorderToMatchSource source content) = true)
    /\ (forall contentVal,
           (forall c, contentVal = Some c -> well_formed c = true) ->
           well_formed (merge_value reorderToMatchSource source contentVal) = true).
Proof.
  induction source as [source IH] using JV_entries_ind. intros Hwf.
  assert (Hself : forall content,
             well_formed content = true ->
             well_formed (reorderToMatchSource source content) = true).
  { intros content Hc. rewrite reorderToMatchSource_entries.
    apply well_formed_object.
    - rewrite map_map. cbn [fst].
      apply andb_prop in Hwf as [Hkeys _]. now apply keys_distinct_own_keys.
    - intros k y Hin. apply in_map_iff in Hin as [[k' x] [E Hin]].
      cbn [fst snd] in E. injection E as <- <-. split.
      + apply andb_prop in Hwf as [_ Hcan].
        now destruct (keys_canonical_entry source k' x Hcan Hin).
      + apply (IH k' x Hin (well_formed_child source k' x Hwf Hin)).
        intros c Hget. now apply (well_formed_get_prop content k'). }
  split; [exact Hself|]. intros contentVal Hc.
  destruct source as [| | | |sitems|sp]; cbn [merge_value].
  1-4: destruct contentVal as [c|]; [now apply Hc|reflexivity].
  - destruct contentVal as [[| | | |citems|cp]|]; try exact Hwf.
    destruct (List.length citems =? List.length sitems)%nat; [|exact Hwf].
    apply well_formed_array. intros x Hx.
    apply (well_formed_merge_items sitems) with (cs := citems); [| |exact Hx].
    + intros s Hs content Hcontent.
      destruct (In_nth sitems s JNull Hs) as [n [Hn Hnth]].
      assert (Hin : exists k, In (k, s) (own_entries (JArr sitems))).
      { cbn [own_entries]. pose proof (index_entries_values 0 sitems) as Hv.
        rewrite <- Hv in Hs. apply in_map_iff in Hs as [[k y] [E Hky]].
        cbn [snd] in E. subst y. now exists k. }
      destruct Hin as [k Hin].
      now apply (IH k s Hin (well_formed_child _ k s Hwf Hin)).
    + intros c Hcin. apply (well_formed_array_element citems); [|exact Hcin].
      now apply Hc.
  - destruct contentVal as [[| | | |citems|cp]|]; try exact Hwf.
    apply Hself. now apply Hc.
Qed.

(** X18.  The reconciler keeps files well-formed: from a source and a content
    whose mappings have distinct, non-empty, dot-free keys it builds a tree
    that has such keys, whatever the shapes of the two. *)
Theorem reorderToMatchSource_well_formed :
  forall source content : JV,
    well_formed source = true -> well_formed content = true ->
    well_formed (reorderToMatchSource source content) = true.
Proof.
  intros source content Hs Hc.
  now apply (proj1 (well_formed_reorderToMatchSource_both source Hs)).
Qed.

Lemma reorderToMatchSource_well_formed_witness :
  well_formed
    (reorderToMatchSource (JObj [("a", JStr "x")]) (JObj [("a", JObj [("b", JStr "y")])]))
  = true.
Proof.
  exact (reorderToMatchSource_well_formed (JObj [("a", JStr "x")])
           (JObj [("a", JObj [("b", JStr "y")])]) eq_refl eq_refl).
Defined.

(** X19.  What the commands save is in sync: when the source and the content
    are well-formed containers, no key of the source is an inherited name,
    and the content agrees with the source in shape, comparing the source
    with [reorderToMatchSource source content] reports no missing key, no
    extra key and no mismatch, with as many keys on both sides, so that
    [checkFileSync] answers [inSync]. *)
Theorem compareTranslations_reorderToMatchSource :
  forall source content : JV,
    is_object source = true -> is_object content = true ->
    own_names source = true ->
    well_formed source = true -> well_formed content = true ->
    shapes_agree source content = true ->
    checkFileSync source (reorderToMatchSource source content)
    = (true,
       mkReport [] [] []
         (mkSummary (List.length (flattenKeys source ""))
            (List.length (flattenKeys source "")) 0 0 0)).
Proof.
  intros source content _ _ _ Hs Hc Hag.
  pose proof (proj1 (well_formed_reorderToMatchSource_both source Hs) content Hc) as Hr.
  unfold checkFileSync, compareTranslations.
  rewrite (proj1 (flattenKeys_reorderToMatchSource_agree_both source) content "" Hag).
  assert (Hnone : List.filter (fun key => negb (has (key_set (flattenKeys source "")) key))
                    (flattenKeys source "") = []).
  { apply filter_nil_iff. intros k Hk. apply negb_false_iff. now apply has_key_set_In. }
  assert (Hmis : flat_map (mismatch_visit source (reorderToMatchSource source content)
                             (key_set (flattenKeys source "")))
                   (flattenKeys source "") = []).
  { apply flat_map_nil. intros keyPath Hin. unfold mismatch_visit.
    destruct (has (key_set (flattenKeys source "")) keyPath); [|reflexivity].
    destruct (getValueAtPath_flattenKeys source keyPath Hs Hin) as [ls [-> Hls]].
    assert (Hin' : In keyPath (flattenKeys (reorderToMatchSource source content) ""))
      by now rewrite (proj1 (flattenKeys_reorderToMatchSource_agree_both source)
                        content "" Hag).
    destruct (getValueAtPath_flattenKeys _ keyPath Hr Hin') as [lt [-> Hlt]].
    now rewrite (getValueType_leaf ls Hls), (getValueType_leaf lt Hlt). }
  cbn zeta. rewrite Hnone, Hmis. reflexivity.
Qed.

Lemma compareTranslations_reorderToMatchSource_witness :
  checkFileSync hero_file
    (reorderToMatchSource hero_file (JObj [("extra", JStr "z")]))
  = (true, mkReport [] [] [] (mkSummary 4 4 0 0 0)).
Proof.
  exact (compareTranslations_reorderToMatchSource hero_file (JObj [("extra", JStr "z")])
           eq_refl eq_refl eq_refl eq_refl eq_refl eq_refl).
Defined.

(** ** The pool of [translateBatch]: calls in flight and progress *)

Section PoolBounds.
Variable contexts : list TranslationContext.
Variable code : string.
Variable cap : nat.
Variable answer : nat -> CallOutcome.

(** [runNext] starts calls and touches nothing else; it never exceeds the
    cap. *)
Lemma runNext_loop_fields fuel st :
  let st' := runNext_loop contexts cap fuel st in
  completed st' = completed st /\ progress st' = progress st
  /\ ((running st <= cap)%nat -> (running st' <= cap)%nat).
Proof.
  revert st. induction fuel as [|fuel IH]; intros st; simpl; [now repeat split|].
  destruct ((running st <? cap)%nat && (index st <? List.length contexts)%nat) eqn:E;
    [|now repeat split].
  apply andb_prop in E as [E _]. apply Nat.ltb_lt in E.
  destruct (IH (dispatch st)) as (H1 & H2 & H3). cbn in H1, H2, H3.
  split; [exact H1|]. split; [exact H2|]. intros _. apply H3. simpl. lia.
Qed.

Lemma settle_fields i st :
  let st' := settle contexts code cap answer i st in
  completed st' = S (completed st)
  /\ progress st' = progress st ++ [(S (completed st), List.length contexts)]
  /\ ((running st <= cap)%nat -> (running st' <= cap)%nat).
Proof.
  unfold settle.
  destruct (S (completed st) =? List.length contexts)%nat.
  - cbn. repeat split. lia.
  - unfold runNext.
    match goal with
    | |- context [runNext_loop contexts cap ?fuel ?mid] =>
        destruct (runNext_loop_fields fuel mid) as (H1 & H2 & H3)
    end.
    cbn in H1, H2, H3. cbn zeta. split; [exact H1|]. split; [exact H2|].
    intros H. apply H3. lia.
Qed.

Lemma pool_steps_fields m st st' :
  pool_steps contexts code cap answer m st st' ->
  completed st' = (completed st + m)%nat
  /\ progress st'
     = progress st
       ++ map (fun k => ((completed st + k)%nat, List.length contexts)) (seq 1 m)
  /\ ((running st <= cap)%nat -> (running st' <= cap)%nat).
Proof.
  intros Hsteps. induction Hsteps as [st|m st st1 st2 Hstep Hsteps IH].
  - simpl. rewrite app_nil_r. repeat split; auto; lia.
  - destruct Hstep as [st i Hin].
    destruct (settle_fields i st) as (H1 & H2 & H3). cbn zeta in H1, H2, H3.
    destruct IH as (I1 & I2 & I3). rewrite H1 in I1, I2. rewrite H2 in I2.
    split; [lia|]. split; [|auto].
    rewrite I2, <- app_assoc. f_equal. cbn [seq map]. cbn [app].
    rewrite Nat.add_1_r. f_equal.
    rewrite <- (seq_shift m 1), map_map. apply map_ext. intros k. f_equal. lia.
Qed.

Lemma pool_init_fields :
  completed (pool_init contexts cap) = 0%nat
  /\ progress (pool_init contexts cap) = []
  /\ (running (pool_init contexts cap) <= cap)%nat.
Proof.
  unfold pool_init, runNext.
  match goal with
  | |- context [runNext_loop contexts cap ?fuel ?mid] =>
      destruct (runNext_loop_fields fuel mid) as (H1 & H2 & H3)
  end.
  cbn in H1, H2, H3. split; [exact H1|]. split; [exact H2|]. apply H3. lia.
Qed.
End PoolBounds.

(** X21.  The pool is bounded and saturated: after [m] completions, in whatever
    order, exactly [min(cap, n - m)] calls are in flight, and the calls
    started so far are the first [min(n, m + cap)] contexts. *)
Theorem translateBatch_calls_in_flight :
  forall (contexts : list TranslationContext) (code : string) (cap : nat)
         (answer : nat -> CallOutcome) (m : nat) (st : Pool),
    pool_steps contexts code cap answer m (pool_init contexts cap) st ->
    running st = Nat.min cap (List.length contexts - m)
    /\ List.length (inflight st) = running st
    /\ index st = Nat.min (List.length contexts) (m + cap)
    /\ (forall j, In j (inflight st) -> (j < index st)%nat).
Proof.
  intros contexts code cap answer m st Hsteps.
  destruct (pool_init_fields contexts cap) as (Hc0 & _ & Hb0).
  destruct (pool_steps_fields contexts code cap answer m _ _ Hsteps) as (Hm & _ & Hb).
  specialize (Hb Hb0). rewrite Hc0 in Hm. simpl in Hm.
  assert (Hinv : pool_consistent contexts code answer st
                 /\ ((completed st < List.length contexts)%nat ->
                     (cap <= running st)%nat \/ index st = List.length contexts)).
  { destruct contexts as [|c cs] eqn:Ec.
    - rewrite (pool_init_idle [] cap (or_introl eq_refl)) in Hsteps.
      inversion Hsteps as [st0|m' st0 st1 st2 Hstep Hrest]; subst.
      + split; [apply pool_start_consistent|]. simpl. lia.
      + inversion Hstep as [st0 i Hin]; subst. contradiction.
    - rewrite <- Ec in *.
      assert (Hne : contexts <> []) by (rewrite Ec; discriminate).
      destruct (pool_init_invariant contexts code cap answer Hne) as (Hc & Hs & _).
      destruct (pool_steps_invariant contexts code cap answer m _ _ Hc Hs Hsteps)
        as (Hc' & [Hopen _] & _).
      split; [exact Hc'|]. intros Hlt. now destruct (Hopen Hlt). }
  destruct Hinv as [(Hlen & Hidx & Hnd & Hlt & Hrun & Hcnt & _) Hsat].
  assert (Hrunning : running st = Nat.min cap (List.length contexts - m)).
  { destruct (Nat.lt_ge_cases (completed st) (List.length contexts)) as [Hlt'|Hge].
    - destruct (Hsat Hlt'); lia.
    - lia. }
  split; [exact Hrunning|]. split; [now rewrite Hrun|]. split; [lia|exact Hlt].
Qed.

(** X22.  The progress callback is called once per completion with the running
    count: after [m] completions, in whatever order and whichever call
    failed, it has been called with [(1, n)], ..., [(m, n)]. *)
Theorem translateBatch_progress :
  forall (contexts : list TranslationContext) (code : string) (cap : nat)
         (answer : nat -> CallOutcome) (m : nat) (st : Pool),
    pool_steps contexts code cap answer m (pool_init contexts cap) st ->
    progress st = map (fun k => (k, List.length contexts)) (seq 1 m).
Proof.
  intros contexts code cap answer m st Hsteps.
  destruct (pool_init_fields contexts cap) as (Hc0 & Hp0 & _).
  destruct (pool_steps_fields contexts code cap answer m _ _ Hsteps) as (_ & Hp & _).
  rewrite Hp, Hp0, Hc0. reflexivity.
Qed.

(** X23.  With a concurrency of [0] no call is ever started: whatever the
    contexts, the promise of [translateBatch] is never resolved. *)
Theorem translateBatch_zero_concurrency :
  forall (contexts : list TranslationContext) (code : string)
         (answer : nat -> CallOutcome) (m : nat) (st : Pool),
    pool_steps contexts code 0 answer m (pool_init contexts 0) st ->
    m = 0%nat /\ resolved st = None /\ inflight st = [] /\ index st = 0%nat.
Proof.
  intros contexts code answer m st Hsteps.
  rewrite (pool_init_idle contexts 0 (or_intror eq_refl)) in Hsteps.
  inversion Hsteps as [st0|m' st0 st1 st2 Hstep Hrest]; subst.
  - repeat split.
  - inversion Hstep as [st0 i Hin]; subst. contradiction.
Qed.

(** Five items with a cap of two: the run in which the second call settles
    first, and the run of no settlement with a cap of zero. *)
Lemma second_call_settles_first :
  pool_steps five_contexts "de" 2 third_fails 1 (pool_init five_contexts 2)
    (settle five_contexts "de" 2 third_fails 1 (pool_init five_contexts 2)).
Proof.
  eapply steps_more; [apply step_settle|apply steps_refl].
  vm_compute. tauto.
Defined.

Lemma translateBatch_calls_in_flight_witness :
  running (settle five_contexts "de" 2 third_fails 1 (pool_init five_contexts 2))
  = 2%nat
  /\ inflight (settle five_contexts "de" 2 third_fails 1 (pool_init five_contexts 2))
     = [0; 2]%nat.
Proof.
  split; [|reflexivity].
  exact (proj1 (translateBatch_calls_in_flight five_contexts "de" 2 third_fails 1 _
                  second_call_settles_first)).
Defined.

Lemma translateBatch_progress_witness :
  progress (settle five_contexts "de" 2 third_fails 1 (pool_init five_contexts 2))
  = [(1, 5)]%nat.
Proof.
  exact (translateBatch_progress five_contexts "de" 2 third_fails 1 _
           second_call_settles_first).
Defined.

Lemma translateBatch_zero_concurrency_witness :
  resolved (pool_init five_contexts 0) = None
  /\ inflight (pool_init five_contexts 0) = [].
Proof.
  destruct (translateBatch_zero_concurrency five_contexts "de" third_fails 0 _
              (steps_refl five_contexts "de" 0 third_fails (pool_init five_contexts 0)))
    as (_ & H1 & H2 & _).
  now split.
Defined.

(** ** Placeholders *)

Lemma append_nil_r s : s +:+ "" = s.
Proof.
  induction s as [|c s IH]; [reflexivity|].
  change (String c s +:+ "") with (String c (s +:+ "")). now rewrite IH.
Qed.

Lemma append_assoc a b c : (a +:+ b) +:+ c = a +:+ (b +:+ c).
Proof.
  induction a as [|x a IH]; [reflexivity|].
  change ((String x a +:+ b) +:+ c) with (String x ((a +:+ b) +:+ c)).
  change (String x a +:+ (b +:+ c)) with (String x (a +:+ (b +:+ c))).
  now rewrite IH.
Qed.

Lemma append_char_not_empty run c : String.eqb (run +:+ String c "") "" = false.
Proof. now destruct run. Qed.

Lemma includes_char_append a b c :
  includes_char (a +:+ b) c = includes_char a c || includes_char b c.
Proof.
  induction a as [|x a IH]; [reflexivity|].
  change (String x a +:+ b) with (String x (a +:+ b)).
  cbn [includes_char]. now rewrite IH, orb_assoc.
Qed.

Lemma has_match_from_placeholders s :
  (forall run,
      has_match_from (Some (negb (String.eqb run ""))) s
      = negb (no_placeholder (placeholders_from (Some run) s)))
  /\ has_match_from None s = negb (no_placeholder (placeholders_from None s)).
Proof.
  induction s as [|c s [IHrun IHnone]]; [now split|]. split.
  - intros run. cbn [has_match_from placeholders_from].
    destruct (Ascii.eqb c close_brace).
    + destruct run; [exact IHnone|reflexivity].
    + rewrite <- IHrun. now rewrite append_char_not_empty.
  - cbn [has_match_from placeholders_from].
    destruct (Ascii.eqb c open_brace); [apply (IHrun ""%string)|exact IHnone].
Qed.

Lemma placeholders_from_runs s :
  (forall run p,
      includes_char run close_brace = false ->
      In p (placeholders_from (Some run) s) ->
      p <> ""%string /\ includes_char p close_brace = false)
  /\ (forall p,
         In p (placeholders_from None s) ->
         p <> ""%string /\ includes_char p close_brace = false).
Proof.
  induction s as [|c s [IHrun IHnone]]; [split; [intros ? ? ? []|intros ? []]|].
  split.
  - intros run p Hrun. cbn [placeholders_from].
    destruct (Ascii.eqb c close_brace) eqn:E.
    + destruct run as [|d run'].
      * apply IHnone.
      * intros [<-|Hin]; [now split|now apply IHnone].
    + apply IHrun. rewrite includes_char_append, Hrun. simpl. now rewrite E.
  - intros p. cbn [placeholders_from].
    destruct (Ascii.eqb c open_brace); [now apply IHrun|apply IHnone].
Qed.

Lemma placeholders_from_run p :
  forall run post,
    includes_char p close_brace = false -> run +:+ p <> ""%string ->
    placeholders_from (Some run) (p +:+ String close_brace post)
    = (run +:+ p) :: placeholders_from None post.
Proof.
  induction p as [|c p IH]; intros run post Hp Hne.
  - rewrite append_nil_r in *. cbn. now destruct run.
  - simpl in Hp. apply orb_false_iff in Hp as [Hc Hp].
    change (String c p +:+ String close_brace post)
      with (String c (p +:+ String close_brace post)).
    cbn [placeholders_from]. rewrite Hc.
    rewrite IH; [|exact Hp|].
    + now rewrite append_assoc.
    + rewrite append_assoc. exact Hne.
Qed.

(** X26.  [hasPlaceholders] holds exactly when [extractPlaceholders] finds a
    placeholder; the names it finds are not empty and hold no closing
    brace; and the name of a placeholder that follows text without an
    opening brace is found first. *)
Theorem extractPlaceholders_spec :
  forall str : string,
    hasPlaceholders str = negb (no_placeholder (extractPlaceholders str))
    /\ (forall p, In p (extractPlaceholders str) ->
                  p <> ""%string /\ includes_char p close_brace = false)
    /\ (forall text name,
           includes_char text open_brace = false ->
           name <> ""%string -> includes_char name close_brace = false ->
           extractPlaceholders (text +:+ "{" +:+ name +:+ "}" +:+ str)
           = name :: extractPlaceholders str).
Proof.
  intros str. split; [apply has_match_from_placeholders|].
  split; [apply placeholders_from_runs|].
  intros text name Htext Hname Hclose. unfold extractPlaceholders.
  induction text as [|c text IH].
  - change ("" +:+ "{" +:+ name +:+ "}" +:+ str)
      with (String open_brace (name +:+ String close_brace str)).
    cbn [placeholders_from]. rewrite Ascii.eqb_refl.
    now rewrite placeholders_from_run.
  - simpl in Htext. apply orb_false_iff in Htext as [Hc Htext].
    change (String c text +:+ "{" +:+ name +:+ "}" +:+ str)
      with (String c (text +:+ "{" +:+ name +:+ "}" +:+ str)).
    cbn [placeholders_from]. rewrite Hc. now apply IH.
Qed.

Lemma extractPlaceholders_spec_witness :
  extractPlaceholders ("Hello " +:+ "{" +:+ "name" +:+ "}" +:+ ", {} and {count}")
  = ["name"; "count"].
Proof.
  exact (proj2 (proj2 (extractPlaceholders_spec ", {} and {count}")) "Hello " "name"
           eq_refl ltac:(discriminate) eq_refl).
Defined.

(** ** Slices, prefixes and suffixes *)

Lemma length_append a b : String.length (a +:+ b) = (String.length a + String.length b)%nat.
Proof.
  induction a as [|x a IH]; [reflexivity|].
  change (String x a +:+ b) with (String x (a +:+ b)). simpl. now rewrite IH.
Qed.

Lemma length_substring n m s :
  String.length (String.substring n m s) = Nat.min m (String.length s - n).
Proof.
  revert n m. induction s as [|c s IH]; intros n m.
  - destruct n, m; reflexivity.
  - destruct n as [|n]; simpl.
    + destruct m as [|m]; [reflexivity|]. simpl. rewrite IH. now rewrite Nat.sub_0_r.
    + apply IH.
Qed.

Lemma substring_prefix body b :
  String.substring 0 (String.length body) (body +:+ b) = body.
Proof.
  induction body as [|c body IH]; [now destruct b|].
  change (String c body +:+ b) with (String c (body +:+ b)). simpl. now rewrite IH.
Qed.

Lemma substring_middle a body b :
  String.substring (String.length a) (String.length body) (a +:+ body +:+ b) = body.
Proof.
  induction a as [|x a IH]; [exact (substring_prefix body b)|].
  change (String x a +:+ body +:+ b) with (String x (a +:+ body +:+ b)).
  exact IH.
Qed.

(** [(a + body + b).slice(a.length, -b.length)] is [body]. *)
Lemma js_slice_middle a body b :
  b <> ""%string ->
  js_slice (a +:+ body +:+ b) (Z.of_nat (String.length a)) (- Z.of_nat (String.length b))
  = body.
Proof.
  intros Hb. unfold js_slice. rewrite !length_append.
  assert (Hlen : (0 < String.length b)%nat) by (destruct b; [congruence|simpl; lia]).
  destruct (Z.of_nat (String.length a) <? 0)%Z eqn:E1; [apply Z.ltb_lt in E1; lia|].
  destruct (- Z.of_nat (String.length b) <? 0)%Z eqn:E2; [|apply Z.ltb_ge in E2; lia].
  replace (Z.to_nat (Z.min (Z.of_nat (String.length a))
                       (Z.of_nat (String.length a + (String.length body + String.length b)))))
    with (String.length a) by lia.
  replace (Z.to_nat _) with (String.length body) by lia.
  apply substring_middle.
Qed.

Lemma js_slice_length s start stop :
  (String.length (js_slice s start stop) <= String.length s)%nat.
Proof. unfold js_slice. rewrite length_substring. lia. Qed.

Lemma startsWith_append a s : startsWith (a +:+ s) a = true.
Proof.
  unfold startsWith. induction a as [|x a IH]; [now destruct s|].
  change (String x a +:+ s) with (String x (a +:+ s)). simpl.
  now destruct (ascii_dec x x).
Qed.

Lemma endsWith_append s b : endsWith (s +:+ b) b = true.
Proof.
  induction s as [|c s IH].
  - change ("" +:+ b) with b. destruct b; cbn [endsWith]; now rewrite String.eqb_refl.
  - change (String c s +:+ b) with (String c (s +:+ b)). cbn [endsWith].
    rewrite IH. apply orb_true_r.
Qed.

Lemma startsWith_first_char c s d :
  startsWith (String c s) (String d "") = Ascii.eqb c d.
Proof.
  unfold startsWith. simpl. destruct (ascii_dec d c) as [->|Hne].
  - rewrite Ascii.eqb_refl. now destruct s.
  - symmetry. apply Ascii.eqb_neq. congruence.
Qed.

Lemma startsWith_includes s c :
  startsWith s (String c "") = true -> includes_char s c = true.
Proof.
  destruct s as [|d s]; [discriminate|]. rewrite startsWith_first_char.
  simpl. now intros ->.
Qed.

Lemma endsWith_includes s c :
  endsWith s (String c "") = true -> includes_char s c = true.
Proof.
  induction s as [|d s IH]; [discriminate|]. cbn [endsWith includes_char].
  intros H. apply orb_prop in H as [H|H].
  - apply String.eqb_eq in H. injection H as -> ->. now rewrite Ascii.eqb_refl.
  - rewrite (IH H). apply orb_true_r.
Qed.

(** ** Quote repair and clean-up of an answer *)

Lemma wrapped_in_quotes body :
  startsWith (quote +:+ body +:+ quote) quote = true
  /\ endsWith (quote +:+ body +:+ quote) quote = true
  /\ js_slice (quote +:+ body +:+ quote) 1 (-1) = body.
Proof.
  split; [apply startsWith_append|]. split.
  - rewrite <- append_assoc. apply endsWith_append.
  - apply (js_slice_middle quote body quote). discriminate.
Qed.

(** X27.  [fixExtraQuotes] leaves the translation as it is when the original
    begins with a quotation mark or the translation does not; when the
    original holds no quotation mark, a translation wrapped in quotation
    marks loses exactly that pair; and the result is never longer than the
    translation. *)
Theorem fixExtraQuotes_spec :
  forall translated original : string,
    (startsWith original quote = true ->
     fixExtraQuotes translated original = translated)
    /\ (startsWith translated quote = false ->
        fixExtraQuotes translated original = translated)
    /\ (includes_char original (ascii_of_nat 34) = false ->
        forall body, translated = quote +:+ body +:+ quote ->
                     fixExtraQuotes translated original = body)
    /\ (String.length (fixExtraQuotes translated original)
        <= String.length translated)%nat.
Proof.
  intros translated original. unfold fixExtraQuotes. repeat split.
  - intros ->. reflexivity.
  - intros H. rewrite H. cbn [andb].
    destruct (negb (startsWith original quote) && negb (endsWith original quote));
      rewrite H, andb_false_r; reflexivity.
  - intros Hnone body ->.
    destruct (wrapped_in_quotes body) as (Hs & He & Hslice).
    assert (Hstart : startsWith original quote = false).
    { destruct (startsWith original quote) eqn:E; [|reflexivity].
      apply startsWith_includes in E. congruence. }
    assert (Hend : endsWith original quote = false).
    { destruct (endsWith original quote) eqn:E; [|reflexivity].
      apply endsWith_includes in E. congruence. }
    rewrite Hstart, Hend, Hs, He, Hslice, Hnone. simpl.
    now destruct (startsWith body quote).
  - set (r := if negb (startsWith original quote) && negb (endsWith original quote)
              then if startsWith translated quote && endsWith translated quote
                   then js_slice translated 1 (-1) else translated
              else translated).
    assert (Hr : (String.length r <= String.length translated)%nat).
    { subst r. destruct (_ && _); [|lia].
      destruct (_ && _); [apply js_slice_length|lia]. }
    clearbody r.
    destruct (_ && _); [|exact Hr].
    destruct (_ && _); [|exact Hr].
    pose proof (js_slice_length r 1 (-1)). lia.
Qed.

Lemma fixExtraQuotes_spec_witness :
  fixExtraQuotes (quote +:+ "Hallo" +:+ quote) "Hello" = "Hallo".
Proof.
  exact (proj1 (proj2 (proj2 (fixExtraQuotes_spec (quote +:+ "Hallo" +:+ quote) "Hello")))
           eq_refl "Hallo" eq_refl).
Defined.

Lemma startsWith_fence_tick s : startsWith s "```" = true -> startsWith s "`" = true.
Proof.
  unfold startsWith. destruct s as [|c s]; [discriminate|]. cbn [String.prefix].
  destruct (ascii_dec "`" c); [now destruct s|discriminate].
Qed.

(** X28.  [cleanupTranslation] repairs the quotation marks as [fixExtraQuotes]
    does and returns that when it does not begin with a backtick.  An
    answer inside a fence of three backticks loses one backtick on each
    side and keeps the other two: the test for a single backtick comes
    first, and the test for three then fails. *)
Theorem cleanupTranslation_spec :
  forall (trim : string -> string) (translated original : string),
    (startsWith (fixExtraQuotes translated original) "`" = false ->
     cleanupTranslation trim translated original = fixExtraQuotes translated original)
    /\ (forall (c : ascii) (rest : string),
           c <> "`"%char ->
           translated = "```" +:+ String c rest +:+ "```" ->
           cleanupTranslation trim translated original
           = "``" +:+ String c rest +:+ "``").
Proof.
  intros trim translated original. split.
  - unfold cleanupTranslation, fixExtraQuotes. cbn zeta.
    set (r := if negb (startsWith original quote) && startsWith _ quote then _ else _).
    intros Htick. rewrite Htick. cbn [andb].
    destruct (startsWith r "```") eqn:E; [|reflexivity].
    apply startsWith_fence_tick in E. congruence.
  - intros c rest Hc ->. unfold cleanupTranslation. cbn zeta.
    set (fenced := "```" +:+ String c rest +:+ "```").
    assert (Hq : startsWith fenced quote = false) by reflexivity.
    assert (Htick : startsWith fenced "`" = true) by reflexivity.
    assert (Hend : endsWith fenced "`" = true).
    { replace fenced with (("```" +:+ String c rest +:+ "``") +:+ "`").
      - apply endsWith_append.
      - subst fenced. now rewrite !append_assoc. }
    assert (Hslice : js_slice fenced 1 (-1) = "``" +:+ String c rest +:+ "``").
    { replace fenced with ("`" +:+ ("``" +:+ String c rest +:+ "``") +:+ "`").
      - apply (js_slice_middle "`" _ "`"). discriminate.
      - subst fenced. now rewrite !append_assoc. }
    assert (Hthree : startsWith ("``" +:+ String c rest +:+ "``") "```" = false).
    { unfold startsWith.
      change ("``" +:+ String c rest +:+ "``")
        with (String "`" (String "`" (String c (rest +:+ "``")))).
      cbn [String.prefix]. destruct (ascii_dec "`" "`"); [|congruence].
      destruct (ascii_dec "`" c); [congruence|reflexivity]. }
    assert (H1 : (if negb (startsWith original quote) && negb (endsWith original quote)
                  then if startsWith fenced quote && endsWith fenced quote
                       then js_slice fenced 1 (-1) else fenced
                  else fenced) = fenced).
    { rewrite Hq. cbn [andb]. now destruct (_ && _). }
    rewrite H1, Hq, andb_false_r, Htick, Hend. cbn [andb].
    now rewrite Hslice, Hthree.
Qed.

Lemma cleanupTranslation_spec_witness :
  cleanupTranslation (fun s => s) "```Hallo```" "Hello" = "``Hallo``".
Proof.
  apply (proj2 (cleanupTranslation_spec (fun s => s) "```Hallo```" "Hello") "H"%char "allo").
  - discriminate.
  - reflexivity.
Defined.

(** [truncate] leaves a string of at most [maxLength] characters as it
    is; for a longer one and [maxLength >= 3] it returns exactly
    [maxLength] characters, the last three being the ellipsis. *)
Theorem truncate_length :
  forall (str : string) (maxLength : Z),
    ((Z.of_nat (String.length str) <= maxLength)%Z -> truncate str maxLength = str)
    /\ ((3 <= maxLength < Z.of_nat (String.length str))%Z ->
        Z.of_nat (String.length (truncate str maxLength)) = maxLength
        /\ endsWith (truncate str maxLength) "..." = true).
Proof.
  intros str maxLength. unfold truncate. split.
  - intros H. apply Z.leb_le in H. now rewrite H.
  - intros [H3 Hlt]. apply Z.leb_gt in Hlt as Hb. rewrite Hb. split.
    + rewrite length_append. unfold js_slice. rewrite length_substring.
      cbn [Z.ltb Z.compare]. replace (maxLength - 3 <? 0)%Z with false
        by (symmetry; apply Z.ltb_ge; lia).
      change (String.length "...") with 3%nat. lia.
    + apply endsWith_append.
Qed.

Lemma truncate_length_witness :
  Z.of_nat (String.length (truncate "Read the docs" 8)) = 8%Z
  /\ endsWith (truncate "Read the docs" 8) "..." = true.
Proof.
  apply (proj2 (truncate_length "Read the docs" 8)). simpl. lia.
Defined.

(** ** Link texts and their key paths *)

Lemma assoc_index_entries links :
  forall j i,
    assoc (index_key (j + i)) (index_entries j links) = nth_error links i.
Proof.
  induction links as [|x links IH]; intros j i; [now destruct i|].
  cbn [index_entries assoc]. destruct i as [|i].
  - now rewrite Nat.add_0_r, String.eqb_refl.
  - destruct (String.eqb (index_key (j + S i)) (index_key j)) eqn:E.
    + apply String.eqb_eq, index_key_inj in E. lia.
    + replace (j + S i)%nat with (S j + i)%nat by lia. apply IH.
Qed.

(** The value at [links.i.text] below a section that holds the array
    [links]. *)
Lemma walk_link_text parent linksKey textField links i item t :
  is_object parent = true ->
  dot_free linksKey = true -> dot_free textField = true ->
  get_prop parent linksKey = Some (JArr links) ->
  nth_error links i = Some item ->
  is_object item = true -> get_prop item textField = Some (JStr t) ->
  getValueAtPath parent (linksKey +:+ "." +:+ index_key i +:+ "." +:+ textField)
  = Some (JStr t).
Proof.
  intros Hparent Hlinks Htext Hget Hnth Hitem Hfield. unfold getValueAtPath.
  rewrite (split_on_segment_dot linksKey _ Hlinks).
  assert (Hidx : dot_free (index_key i) = true).
  { pose proof (index_key_segment_ok i) as H. unfold segment_ok in H.
    now apply andb_prop in H as [_ H]. }
  rewrite (split_on_segment_dot (index_key i) _ Hidx).
  rewrite (split_on_dot_free textField Htext).
  cbn [walk]. rewrite Hparent, Hget. cbn [is_object].
  assert (Hitem' : get_prop (JArr links) (index_key i) = Some item).
  { unfold get_prop. cbn [own_entries].
    pose proof (assoc_index_entries links 0 i) as Ha. cbn [Nat.add] in Ha.
    now rewrite Ha, Hnth. }
  now rewrite Hitem', Hitem, Hfield.
Qed.

Lemma link_texts_aligned parent linksKey textField (links : list JV) :
  is_object parent = true ->
  dot_free linksKey = true -> dot_free textField = true ->
  forall (all_links : list JV),
    get_prop parent linksKey = Some (JArr all_links) ->
    forall j,
      (forall i item, nth_error links i = Some item ->
                      nth_error all_links (j + i) = Some item) ->
      forallb
        (fun item =>
           is_object item
           && match get_prop item textField with
              | Some (JStr _) => true
              | _ => false
              end) links = true ->
      map (fun i =>
             getValueAtPath parent
               (linksKey +:+ "." +:+ index_key i +:+ "." +:+ textField))
        (seq j (List.length links))
      = map (fun t => Some (JStr t))
          (flat_map
             (fun item =>
                if is_object item then
                  match get_prop item textField with
                  | Some (JStr t) => [t]
                  | _ => []
                  end
                else [])
             links).
Proof.
  intros Hparent Hlinks Htext all_links Hget.
  induction links as [|item links IH]; intros j Hnth Hall; [reflexivity|].
  cbn [forallb] in Hall. apply andb_prop in Hall as [Hitem Hrest].
  apply andb_prop in Hitem as [Hobj Hfield].
  destruct (get_prop item textField) as [[| | |t| |]|] eqn:Ef; try discriminate.
  cbn [List.length seq map flat_map]. rewrite Hobj, Ef. cbn [app map]. f_equal.
  - apply (walk_link_text parent linksKey textField all_links j item t); auto.
    specialize (Hnth 0%nat item eq_refl). now rewrite Nat.add_0_r in Hnth.
  - apply IH; [|exact Hrest]. intros i x Hx.
    replace (S j + i)%nat with (j + S i)%nat by lia. now apply Hnth.
Qed.

(** X25.  In a section that [sectionHasLinks] accepts, the link texts and the
    link-text key paths are aligned: [getLinkTextsFromSection] returns one
    text per link, and the text at each position is the value the source
    holds at the key path of [getLinkTextKeyPaths] at that position.  The
    names of the links key and of the text field hold no dot (as the
    defaults [links] and [text]). *)
Theorem sectionHasLinks_aligned :
  forall (obj : JV) (parentPath : string) (patterns : list LinkedContentPattern),
    sectionHasLinks obj parentPath patterns = true ->
    dot_free (linksKey_of patterns) = true ->
    dot_free (textField_of patterns) = true ->
    exists parent links,
      getValueAtPath obj parentPath = Some parent
      /\ get_prop parent (linksKey_of patterns) = Some (JArr links)
      /\ links <> []
      /\ List.length (getLinkTextsFromSection obj parentPath patterns)
         = List.length links
      /\ map (getValueAtPath obj)
           (getLinkTextKeyPaths parentPath (List.length links) patterns)
         = map (fun t => Some (JStr t))
             (getLinkTextsFromSection obj parentPath patterns).
Proof.
  intros obj parentPath patterns H Hlinks Htext.
  unfold sectionHasLinks in H. unfold getLinkTextsFromSection.
  destruct (getValueAtPath obj parentPath) as [parent|] eqn:Hparent; [|discriminate].
  apply andb_prop in H as [Hobj H]. rewrite Hobj.
  destruct (get_prop parent (linksKey_of patterns)) as [[| | | |links|]|] eqn:Hget;
    try discriminate.
  apply andb_prop in H as [Hlen Hall]. apply Nat.ltb_lt in Hlen.
  exists parent, links. split; [reflexivity|]. split; [exact Hget|].
  split; [now destruct links; [simpl in Hlen; lia|]|].
  pose proof (link_texts_aligned parent (linksKey_of patterns) (textField_of patterns)
                links Hobj Hlinks Htext links Hget 0 (fun i item Hi => Hi) Hall)
    as Haligned.
  split.
  - rewrite <- (length_map (fun t => Some (JStr t))), <- Haligned.
    now rewrite length_map, length_seq.
  - rewrite <- Haligned. unfold getLinkTextKeyPaths. rewrite map_map.
    apply map_ext. intros i.
    rewrite (getValueAtPath_compose_eq obj parentPath
               (linksKey_of patterns +:+ "." +:+ index_key i +:+ "."
                +:+ textField_of patterns)).
    now rewrite Hparent.
Qed.

Lemma sectionHasLinks_aligned_witness :
  exists parent links,
    getValueAtPath hero_file "hero" = Some parent
    /\ get_prop parent "links" = Some (JArr links)
    /\ links <> []
    /\ List.length (getLinkTextsFromSection hero_file "hero" [])
       = List.length links
    /\ map (getValueAtPath hero_file)
         (getLinkTextKeyPaths "hero" (List.length links) [])
       = map (fun t => Some (JStr t)) (getLinkTextsFromSection hero_file "hero" []).
Proof.
  exact (sectionHasLinks_aligned hero_file "hero" [] eq_refl eq_refl eq_refl).
Defined.

(** ** The keys a run produces results for *)

Lemma link_results_keys parentPath links textField code linkTexts :
  forall translated i r,
    In r (link_results parentPath links textField code i linkTexts translated) ->
    exists n,
      (i <= n < i + List.length linkTexts)%nat
      /\ key r
         = parentPath +:+ "." +:+ links +:+ "." +:+ index_key n +:+ "." +:+ textField.
Proof.
  induction linkTexts as [|original lrest IH]; intros [|t trest] i r Hin;
    try contradiction.
  cbn [link_results] in Hin. destruct Hin as [<-|Hin].
  - exists i. split; [simpl; lia|reflexivity].
  - destruct (IH trest (S i) r Hin) as [n [Hn Hkey]].
    exists n. split; [simpl; lia|exact Hkey].
Qed.

Lemma translateDescriptionWithLinks_keys patterns descKey description linkTexts code
      response fallback rs r :
  translateDescriptionWithLinks patterns descKey description linkTexts code
    response fallback = Some rs ->
  In r rs ->
  key r = descKey
  \/ exists n,
       (n < List.length linkTexts)%nat
       /\ key r
          = getParentSection descKey +:+ "." +:+ linksKey_of patterns +:+ "."
            +:+ index_key n +:+ "." +:+ textField_of patterns.
Proof.
  unfold translateDescriptionWithLinks.
  assert (Hcaught :
            match translateString
                    (mkContext descKey description (getParentSection descKey))
                    code fallback with
            | Some r0 => Some [r0]
            | None => None
            end = Some rs -> In r rs -> key r = descKey).
  { unfold translateString. destruct fallback; [|discriminate].
    intros [= <-] [<-|[]]. reflexivity. }
  assert (Hstructured :
            forall parsed,
              In r (structured_results patterns descKey description linkTexts code parsed) ->
              key r = descKey
              \/ exists n,
                   (n < List.length linkTexts)%nat
                   /\ key r
                      = getParentSection descKey +:+ "." +:+ linksKey_of patterns
                        +:+ "." +:+ index_key n +:+ "." +:+ textField_of patterns).
  { intros parsed Hin. unfold structured_results in Hin.
    apply in_app_or in Hin as [Hin|Hin].
    - destruct (get_prop parsed "description") as [[| | |d| |]|]; try contradiction.
      destruct Hin as [<-|[]]. now left.
    - destruct (get_prop parsed "linkTexts") as [[| | | |translated|]|];
        try contradiction.
      apply link_results_keys in Hin as [n [Hn Hkey]].
      right. exists n. split; [lia|exact Hkey]. }
  destruct response as [|parsed]; [intros H1 H2; left; now apply Hcaught|].
  destruct parsed; try (intros [= <-] Hin; now apply (Hstructured _ Hin)).
  intros H1 H2. left. now apply Hcaught.
Qed.

Lemma getDescriptionParentPath_Some keyPath patterns parentPath :
  getDescriptionParentPath keyPath patterns = Some parentPath ->
  parentPath = getParentSection keyPath.
Proof.
  unfold getDescriptionParentPath. destruct patterns as [|p patterns].
  - destruct (endsWith keyPath ".description"); congruence.
  - destruct (existsb _ (p :: patterns)); congruence.
Qed.

Lemma joint_results_keys patterns englishFile code provider descKeys :
  forall joint r,
    joint_results patterns englishFile code provider descKeys = Some joint ->
    In r joint ->
    exists descKey,
      In descKey descKeys
      /\ (key r = descKey
          \/ exists n,
               (n < List.length
                      (getLinkTextsFromSection englishFile
                         match getDescriptionParentPath descKey patterns with
                         | Some parentPath => parentPath
                         | None => ""%string
                         end patterns))%nat
               /\ key r
                  = getParentSection descKey +:+ "." +:+ linksKey_of patterns +:+ "."
                    +:+ index_key n +:+ "." +:+ textField_of patterns).
Proof.
  induction descKeys as [|descKey rest IH]; intros joint r Hjoint Hin.
  - injection Hjoint as <-. contradiction.
  - cbn [joint_results] in Hjoint.
    destruct (translateDescriptionWithLinks _ _ _ _ _ _ _) as [combined|] eqn:Ec;
      [|discriminate].
    destruct (joint_results patterns englishFile code provider rest) as [more|];
      [|discriminate].
    injection Hjoint as <-. apply in_app_or in Hin as [Hin|Hin].
    + exists descKey. split; [now left|].
      destruct (translateDescriptionWithLinks_keys _ _ _ _ _ _ _ _ r Ec Hin)
        as [Hk|[n [Hn Hk]]]; [now left|].
      right. now exists n.
    + destruct (IH more r eq_refl Hin) as [d [Hd Hr]].
      exists d. split; [now right|exact Hr].
Qed.

Lemma getLinkTextsFromSection_length obj parentPath patterns parent links :
  getValueAtPath obj parentPath = Some parent ->
  get_prop parent (linksKey_of patterns) = Some (JArr links) ->
  (List.length (getLinkTextsFromSection obj parentPath patterns)
   <= List.length links)%nat.
Proof.
  intros Hparent Hlinks. unfold getLinkTextsFromSection. rewrite Hparent.
  destruct (is_object parent); [|simpl; lia]. rewrite Hlinks. clear.
  induction links as [|item links IH]; [simpl; lia|].
  cbn [flat_map]. rewrite length_app. simpl.
  destruct (is_object item); [|simpl; lia].
  destruct (get_prop item (textField_of patterns)) as [[| | |t| |]|]; simpl; lia.
Qed.

(** The link-text key paths of a joint section are skipped as ordinary
    keys. *)
Lemma joint_link_key_skipped config englishFile stringKeys descKey n :
  In descKey (descriptionKeysWithLinks (classify config englishFile stringKeys)) ->
  (n < List.length
         (getLinkTextsFromSection englishFile
            match getDescriptionParentPath descKey (linkedContentPatterns config) with
            | Some parentPath => parentPath
            | None => ""%string
            end (linkedContentPatterns config)))%nat ->
  has (linkTextKeysToSkip (classify config englishFile stringKeys))
    (getParentSection descKey +:+ "." +:+ linksKey_of (linkedContentPatterns config)
     +:+ "." +:+ index_key n +:+ "." +:+ textField_of (linkedContentPatterns config))
  = true.
Proof.
  unfold classify. cbn [descriptionKeysWithLinks linkTextKeysToSkip].
  set (patterns := linkedContentPatterns config).
  intros Hdesc Hn. apply filter_In in Hdesc as Hd. destruct Hd as [_ Hlinked].
  unfold hasLinkedSection in Hlinked.
  destruct (getDescriptionParentPath descKey patterns) as [parentPath|] eqn:Ep;
    [|discriminate].
  apply getDescriptionParentPath_Some in Ep as Eparent.
  apply andb_prop in Hlinked as [_ Hsection].
  unfold sectionHasLinks in Hsection.
  destruct (getValueAtPath englishFile parentPath) as [parent|] eqn:Hparent;
    [|discriminate].
  apply andb_prop in Hsection as [_ Hsection].
  destruct (get_prop parent (linksKey_of patterns)) as [[| | | |links|]|] eqn:Hlinks;
    try discriminate.
  pose proof (getLinkTextsFromSection_length englishFile parentPath patterns parent links
                Hparent Hlinks) as Hlen.
  unfold has. apply bool_decide_eq_true. apply elem_of_list_to_set.
  apply list_elem_of_In. apply in_flat_map. exists descKey. split; [exact Hdesc|].
  unfold skipped_for. rewrite Ep, Hparent, Hlinks. unfold getLinkTextKeyPaths.
  apply in_map_iff. exists n. split; [now rewrite Eparent|].
  apply in_seq. lia.
Qed.

Lemma result_keys_app rs rs' : result_keys (rs ++ rs') = result_keys rs ++ result_keys rs'.
Proof. unfold result_keys. apply flat_map_app. Qed.

Lemma result_keys_Some rs : result_keys (map Some rs) = map key rs.
Proof.
  unfold result_keys. induction rs as [|r rs IH]; simpl; [reflexivity|].
  now rewrite IH.
Qed.

Lemma In_result_keys k rs :
  In k (result_keys rs) <-> exists r, In (Some r) rs /\ key r = k.
Proof.
  unfold result_keys. rewrite in_flat_map. split.
  - intros [[r|] [Hin Hk]]; [|contradiction]. destruct Hk as [<-|[]]. now exists r.
  - intros [r [Hin <-]]. exists (Some r). split; [exact Hin|now left].
Qed.

Lemma expected_results_In contexts code answer r :
  In (Some r) (expected_results contexts code answer) <->
  exists i context,
    contexts !! i = Some context /\ r = expected_result code answer i context.
Proof.
  unfold expected_results. rewrite <- list_elem_of_In, elem_of_lookup_imap.
  split.
  - intros [i [context [E Hi]]]. injection E as ->. now exists i, context.
  - intros [i [context [Hi ->]]]. now exists i, context.
Qed.

Lemma expected_result_fields code answer i context :
  key (expected_result code answer i context) = ctx_key context
  /\ originalValue (expected_result code answer i context) = englishValue context
  /\ targetLanguage (expected_result code answer i context) = code.
Proof. unfold expected_result. now destruct (answer i). Qed.

(** X24.  The results of a run of [translateMissingKeys] that resolves: every
    result is for a missing key or for a link-text key path of a section
    translated jointly; every pass-through key has the result that copies
    its source value, whatever the provider answers; every ordinary key has
    a result that carries its source value. *)
Theorem translateMissingKeys_results :
  forall (config : Transl8Config) (englishFile : JV) (missingKeys : list string)
         (code : string) (provider : string -> ParseOutcome * CallOutcome)
         (answer : nat -> CallOutcome) (rs : list (option TranslationResult)),
    translateMissingKeys config englishFile missingKeys code provider answer
    = Resolves rs ->
    let groups := classify config englishFile (stringKeys_of englishFile missingKeys) in
    (forall k, In k (result_keys rs) ->
               In k missingKeys \/ has (linkTextKeysToSkip groups) k = true)
    /\ (forall k, In k (hrefKeys groups) ->
                  In (Some (mkResult k (string_at englishFile k)
                              (JStr (string_at englishFile k)) code)) rs)
    /\ (forall k, In k (normalKeys groups) ->
                  exists r, In (Some r) rs /\ key r = k
                            /\ originalValue r = string_at englishFile k
                            /\ targetLanguage r = code).
Proof.
  intros config englishFile missingKeys code provider answer rs Hrun groups.
  unfold translateMissingKeys in Hrun. fold groups in Hrun.
  assert (Hsub : forall k, In k (stringKeys_of englishFile missingKeys) -> In k missingKeys).
  { intros k Hk. unfold stringKeys_of in Hk. now apply filter_In in Hk as [Hk _]. }
  assert (Hgroups :
            (forall k, In k (hrefKeys groups) -> In k missingKeys)
            /\ (forall k, In k (descriptionKeysWithLinks groups) -> In k missingKeys)
            /\ (forall k, In k (normalKeys groups) -> In k missingKeys)).
  { subst groups. unfold classify.
    cbn [hrefKeys descriptionKeysWithLinks normalKeys].
    repeat split; intros k Hk; apply filter_In in Hk as [Hk _]; now apply Hsub. }
  destruct Hgroups as (Hhref & Hdesc & Hnormal).
  destruct (stringKeys_of englishFile missingKeys) as [|k0 ks] eqn:Ekeys.
  - injection Hrun as <-. subst groups. unfold classify. cbn. repeat split.
    + intros k [].
    + intros k [].
    + intros k [].
  - rewrite <- Ekeys in *. clear Ekeys.
    destruct (joint_results (linkedContentPatterns config) englishFile code provider
                (descriptionKeysWithLinks groups)) as [joint|] eqn:Ejoint;
      [|discriminate].
    set (contexts := map (buildTranslationContext englishFile) (normalKeys groups)) in *.
    assert (Hbatch : translateBatch_outcome contexts code (concurrency config) answer
                     = Resolves (expected_results contexts code answer)
                     /\ rs = map Some (passthrough_results englishFile code (hrefKeys groups)
                                       ++ joint)
                             ++ expected_results contexts code answer).
    { unfold translateBatch_outcome in *. destruct contexts; [discriminate|].
      destruct (concurrency config); [discriminate|].
      injection Hrun as <-. now split. }
    destruct Hbatch as [_ ->]. split; [|split].
    + intros k Hk. rewrite result_keys_app, result_keys_Some, map_app in Hk.
      apply in_app_or in Hk as [Hk|Hk]; [apply in_app_or in Hk as [Hk|Hk]|].
      * left. unfold passthrough_results in Hk. rewrite map_map in Hk. cbn [key] in Hk.
        rewrite map_id in Hk. now apply Hhref.
      * apply in_map_iff in Hk as [r [<- Hr]].
        destruct (joint_results_keys _ _ _ _ _ joint r Ejoint Hr)
          as [descKey [Hd [->|[n [Hn ->]]]]].
        -- left. now apply Hdesc.
        -- right. now apply joint_link_key_skipped.
      * apply In_result_keys in Hk as [r [Hr <-]].
        apply expected_results_In in Hr as [i [context [Hi ->]]].
        destruct (expected_result_fields code answer i context) as [-> _].
        left. subst contexts. rewrite list_lookup_fmap in Hi.
        destruct (normalKeys groups !! i) as [k|] eqn:Ek; [|discriminate].
        injection Hi as <-. cbn [buildTranslationContext ctx_key].
        apply Hnormal. apply list_elem_of_In. now apply list_elem_of_lookup_2 in Ek.
    + intros k Hk. apply in_or_app. left. apply in_map. apply in_or_app. left.
      unfold passthrough_results. apply in_map_iff. now exists k.
    + intros k Hk. apply list_elem_of_In, list_elem_of_lookup_1 in Hk as [i Hi].
      exists (expected_result code answer i (buildTranslationContext englishFile k)).
      split; [|now destruct (expected_result_fields code answer i
                               (buildTranslationContext englishFile k)) as (-> & -> & ->)].
      apply in_or_app. right. apply expected_results_In.
      exists i, (buildTranslationContext englishFile k). split; [|reflexivity].
      subst contexts. now rewrite list_lookup_fmap, Hi.
Qed.

Lemma translateMissingKeys_results_witness :
  exists rs,
    translateMissingKeys defaultConfig hero_file
      ["hero.title"; "hero.description"; "hero.links.0.text"; "hero.links.0.href"]
      "de" good_provider always_T
    = Resolves rs
    /\ In (Some (mkResult "hero.links.0.href" "https://x" (JStr "https://x") "de")) rs.
Proof.
  eexists. split; [reflexivity|].
  apply (proj1 (proj2 (translateMissingKeys_results defaultConfig hero_file
                         ["hero.title"; "hero.description"; "hero.links.0.text";
                          "hero.links.0.href"]
                         "de" good_provider always_T _ eq_refl))
           "hero.links.0.href").
  vm_compute. tauto.
Defined.

(** X20.  For a non-empty batch and a cap of at least one, whatever the order in
    which the calls settle and whichever calls fail, the promise of
    [translateBatch] is resolved at the last completion with one entry per
    context, in input order: the entry at a position carries the key and
    the source value of the context at that position, with the provider's
    answer, or with the source value when the call failed. *)
Theorem translateBatch_resolves_in_input_order :
  forall (contexts : list TranslationContext) (code : string) (cap : nat)
         (answer : nat -> CallOutcome) (st : Pool),
    contexts <> [] -> (1 <= cap)%nat ->
    pool_steps contexts code cap answer (List.length contexts)
      (pool_init contexts cap) st ->
    exists rs,
      resolved st = Some rs
      /\ List.length rs = List.length contexts
      /\ forall i context,
           contexts !! i = Some context ->
           exists r,
             rs !! i = Some (Some r)
             /\ key r = ctx_key context
             /\ originalValue r = englishValue context
             /\ targetLanguage r = code
             /\ (answer i = Rejected -> translatedValue r = JStr (englishValue context))
             /\ (forall t, answer i = Fulfilled t -> translatedValue r = JStr t).
Proof.
  intros contexts code cap answer st Hne Hcap Hsteps.
  destruct (pool_init_invariant contexts code cap answer Hne) as (Hc0 & Hs0 & Hz).
  destruct (pool_steps_invariant contexts code cap answer _ _ _ Hc0 Hs0 Hsteps)
    as (Hc & [_ Hclosed] & Hcount).
  rewrite Hz in Hcount. simpl in Hcount.
  destruct (pool_complete_results contexts code answer st Hc Hcount) as [Hresults _].
  exists (expected_results contexts code answer). split; [|split].
  - now rewrite (Hclosed Hcount), Hresults.
  - apply expected_results_length.
  - intros i context Hi. now apply expected_results_entry.
Qed.

(** A settlement order that can be run is an execution. *)
Lemma run_schedule_steps contexts code cap answer order :
  forall st st',
    run_schedule contexts code cap answer order st = Some st' ->
    pool_steps contexts code cap answer (List.length order) st st'.
Proof.
  induction order as [|i order IH]; intros st st'; cbn [run_schedule].
  - intros [= <-]. apply steps_refl.
  - destruct (bool_decide (i ∈ inflight st)) eqn:E; [|discriminate].
    apply bool_decide_eq_true in E. apply list_elem_of_In in E.
    intros H. apply steps_more with (settle contexts code cap answer i st).
    + now apply step_settle.
    + now apply IH.
Qed.

(** Five items with a cap of two, the third call failing, settled in the
    order 1, 2, 0, 4, 3. *)
Lemma translateBatch_resolves_in_input_order_witness :
  exists st rs,
    run_schedule five_contexts "de" 2 third_fails [1; 2; 0; 4; 3]%nat
      (pool_init five_contexts 2) = Some st
    /\ resolved st = Some rs
    /\ rs !! 2%nat = Some (Some (mkResult "k3" "three" (JStr "three") "de")).
Proof.
  eexists. 
  assert (Hrun : run_schedule five_contexts "de" 2 third_fails [1; 2; 0; 4; 3]%nat
                   (pool_init five_contexts 2)
                 = Some (settle five_contexts "de" 2 third_fails 3
                           (settle five_contexts "de" 2 third_fails 4
                              (settle five_contexts "de" 2 third_fails 0
                                 (settle five_contexts "de" 2 third_fails 2
                                    (settle five_contexts "de" 2 third_fails 1
                                       (pool_init five_contexts 2)))))))
    by reflexivity.
  destruct (translateBatch_resolves_in_input_order five_contexts "de" 2 third_fails _
              ltac:(discriminate) ltac:(lia)
              (run_schedule_steps five_contexts "de" 2 third_fails _ _ _ Hrun))
    as [rs [Hres [_ Hentries]]].
  exists rs. split; [exact Hrun|]. split; [exact Hres|].
  destruct (Hentries 2%nat (mkContext "k3" "three" "") eq_refl)
    as [r [Hr [Hk [Ho [Hl [Hrej _]]]]]].
  rewrite Hr. specialize (Hrej eq_refl). destruct r. simpl in *. now subst.
Defined.

(** ** Applying results keeps the structure *)

Lemma well_formed_same_keys v v' :
  well_formed v = true -> is_object v = true ->
  is_object v' = true -> isArray v' = isArray v ->
  map fst (own_entries v') = map fst (own_entries v) ->
  (forall k x, In (k, x) (own_entries v') -> well_formed x = true) ->
  well_formed v' = true.
Proof.
  intros Hwf Hobj Hobj' Harr Hkeys Hall.
  destruct v' as [| | | |items'|props']; try discriminate.
  - apply well_formed_array. intros x Hx.
    rewrite <- (index_entries_values 0 items') in Hx.
    apply in_map_iff in Hx as [[k y] [<- Hin]]. now apply (Hall k).
  - destruct v as [| | | |items|props]; try discriminate.
    cbn [own_entries] in *. apply well_formed_object.
    + rewrite Hkeys. apply andb_prop in Hwf as [Hd _].
      now apply (keys_distinct_own_keys (JObj props)).
    + intros k x Hin. split; [|now apply (Hall k x)].
      assert (Hk : In k (map fst props)).
      { rewrite <- Hkeys. now apply (in_map fst) in Hin. }
      apply in_map_iff in Hk as [[k' y] [E Hy]]. cbn [fst] in E. subst k'.
      apply andb_prop in Hwf as [_ Hc].
      now destruct (keys_canonical_entry (JObj props) k y Hc Hy).
Qed.

Lemma assign_prop_existing_well_formed current key x x' current' :
  well_formed current = true ->
  assoc key (own_entries current) = Some x ->
  well_formed x' = true ->
  assign_prop current key x' = Updated current' ->
  well_formed current' = true.
Proof.
  intros Hwf Hassoc Hx' Hassign.
  destruct (assign_prop_existing current key x x' Hassoc)
    as [l1 [l2 [c' [E1 [E2 E3]]]]].
  rewrite E2 in Hassign. injection Hassign as <-.
  apply get_prop_assign_prop in E2 as [_ [Hobj' Harr]].
  assert (Hobj : is_object current = true).
  { apply (own_entries_is_object current (key, x)). rewrite E1.
    apply in_or_app. right. now left. }
  apply (well_formed_same_keys current c' Hwf Hobj Hobj' Harr).
  - rewrite E1, E3, !map_app. reflexivity.
  - intros k y Hin. rewrite E3 in Hin.
    apply in_app_or in Hin as [Hin|[Hin|Hin]].
    + apply (well_formed_child current k y Hwf). rewrite E1.
      apply in_or_app. now left.
    + injection Hin as <- <-. exact Hx'.
    + apply (well_formed_child current k y Hwf). rewrite E1.
      apply in_or_app. right. now right.
Qed.

Lemma well_formed_leaf v : is_object v = false -> well_formed v = true.
Proof. now destruct v. Qed.

Lemma set_parts_overwrite_well_formed value parts :
  is_object value = false ->
  forall current refCurrent leaf current',
    parts <> [] -> well_formed current = true ->
    own_walk current parts = Some leaf -> is_object leaf = false ->
    set_parts current refCurrent parts value = Updated current' ->
    well_formed current' = true.
Proof.
  intros Hvalue.
  induction parts as [|part rest IH];
    intros current refCurrent leaf current' Hne Hwf Hw Hleaf H; [now destruct Hne|].
  cbn [own_walk] in Hw.
  destruct (assoc part (own_entries current)) as [x|] eqn:Hassoc; [|discriminate].
  destruct rest as [|part' rest'].
  - rewrite set_parts_last in H.
    apply (assign_prop_existing_well_formed current part x value current' Hwf Hassoc);
      [now apply well_formed_leaf|exact H].
  - assert (Hne' : part' :: rest' <> []) by discriminate.
    apply set_parts_cons in H as [child [child' [_ [Hset [Hassign Hchild]]]]];
      [|exact Hne'].
    assert (Hx : is_object x = true).
    { destruct (is_object x) eqn:Ex; [reflexivity|].
      rewrite own_walk_leaf in Hw; [discriminate|exact Ex|exact Hne']. }
    assert (Echild : child = x).
    { assert (Hget : get_prop current part = Some x)
        by (unfold get_prop; now rewrite Hassoc).
      destruct Hchild as [[Hsome _]|[_ Hnone]]; [congruence|].
      specialize (Hnone x Hget). now destruct x. }
    subst child.
    apply (assign_prop_existing_well_formed current part x child' current' Hwf Hassoc);
      [|exact Hassign].
    apply (IH x (ref_step refCurrent part) leaf child' Hne'); auto.
    apply assoc_Some_In in Hassoc. now apply (well_formed_child current part x).
Qed.

Lemma assoc_arr_assign_existing_other key x v k' items :
  k' <> key ->
  forall i items',
    assoc key (index_entries i items) = Some x ->
    arr_assign_from i items key v = Some items' ->
    assoc k' (index_entries i items') = assoc k' (index_entries i items).
Proof.
  intros Hne. induction items as [|y items IH]; intros i items'; simpl; [discriminate|].
  destruct (String.eqb key (index_key i)) eqn:E.
  - intros _ [= <-]. simpl. apply String.eqb_eq in E. subst key.
    apply String.eqb_neq in Hne. now rewrite Hne.
  - intros Hassoc.
    destruct (arr_assign_from (S i) items key v) as [rest'|] eqn:Er; [|discriminate].
    intros [= <-]. simpl. destruct (String.eqb k' (index_key i)); [reflexivity|].
    now apply IH.
Qed.

(** Assigning to an own property changes the value under that key and
    under no other. *)
Lemma assoc_assign_prop_existing current key x v current' k' :
  assoc key (own_entries current) = Some x ->
  assign_prop current key v = Updated current' ->
  assoc k' (own_entries current')
  = if String.eqb k' key then Some v else assoc k' (own_entries current).
Proof.
  intros Hassoc Hassign. destruct (String.eqb k' key) eqn:E.
  - apply String.eqb_eq in E. subst k'. now apply (assoc_assign_prop current).
  - apply String.eqb_neq in E.
    destruct current as [| | | |items|props]; try discriminate; cbn [own_entries] in *.
    + cbn [assign_prop] in Hassign.
      destruct (arr_assign_from 0 items key v) as [items'|] eqn:Ea; [|discriminate].
      injection Hassign as <-. cbn [own_entries].
      now apply (assoc_arr_assign_existing_other key x v k' items E 0 items').
    + apply assign_prop_object in Hassign as ->. cbn [own_entries].
      now apply assoc_obj_assign_other.
Qed.

Lemma set_parts_own_walk_other value parts :
  is_object value = false ->
  forall current refCurrent leaf current' parts' leaf',
    parts <> [] ->
    own_walk current parts = Some leaf -> is_object leaf = false ->
    set_parts current refCurrent parts value = Updated current' ->
    parts' <> parts ->
    own_walk current parts' = Some leaf' -> is_object leaf' = false ->
    own_walk current' parts' = Some leaf'.
Proof.
  intros Hvalue.
  induction parts as [|part rest IH];
    intros current refCurrent leaf current' parts' leaf' Hne Hw Hleaf H Hdiff Hw' Hleaf';
    [now destruct Hne|].
  cbn [own_walk] in Hw.
  destruct (assoc part (own_entries current)) as [x|] eqn:Hassoc; [|discriminate].
  destruct parts' as [|p' r'].
  { injection Hw' as <-. apply assoc_Some_In in Hassoc.
    rewrite (own_entries_is_object current _ Hassoc) in Hleaf'. discriminate. }
  cbn [own_walk] in Hw' |- *.
  assert (Hassign : exists X,
             assign_prop current part X = Updated current'
             /\ (p' = part -> own_walk X r' = Some leaf')).
  { destruct rest as [|part' rest'].
    - exists value. split; [exact H|]. intros ->. rewrite Hassoc in Hw'.
      injection Hw as ->.
      destruct r' as [|q r']; [congruence|].
      rewrite own_walk_leaf in Hw'; [discriminate|exact Hleaf|discriminate].
    - assert (Hne' : part' :: rest' <> []) by discriminate.
      apply set_parts_cons in H as [child [child' [_ [Hset [Ha Hchild]]]]];
        [|exact Hne'].
      exists child'. split; [exact Ha|]. intros ->. rewrite Hassoc in Hw'.
      assert (Hx : is_object x = true).
      { destruct (is_object x) eqn:Ex; [reflexivity|].
        rewrite own_walk_leaf in Hw; [discriminate|exact Ex|exact Hne']. }
      assert (Echild : child = x).
      { assert (Hget : get_prop current part = Some x)
          by (unfold get_prop; now rewrite Hassoc).
        destruct Hchild as [[Hsome _]|[_ Hnone]]; [congruence|].
        specialize (Hnone x Hget). now destruct x. }
      subst child.
      apply (IH x (ref_step refCurrent part) leaf child' r' leaf' Hne' Hw Hleaf Hset);
        [congruence|exact Hw'|exact Hleaf']. }
  destruct Hassign as [X [Hassign Hsame]].
  rewrite (assoc_assign_prop_existing current part x X current' p' Hassoc Hassign).
  destruct (String.eqb p' part) eqn:E.
  - apply String.eqb_eq in E. now apply Hsame.
  - exact Hw'.
Qed.

Lemma join_with_inj parts parts' :
  parts <> [] -> parts' <> [] ->
  forallb segment_ok parts = true -> forallb segment_ok parts' = true ->
  join_with "." parts = join_with "." parts' -> parts = parts'.
Proof.
  intros Hne Hne' Hok Hok' E.
  rewrite <- (split_on_join_with parts Hne (forallb_segment_dot_free _ Hok)).
  rewrite E. apply split_on_join_with; auto using forallb_segment_dot_free.
Qed.

(** Writing a leaf at a listed key path of a well-formed tree: the tree
    stays well-formed and lists the same key paths, and the other listed
    key paths keep their values. *)
Lemma setValueAtPath_overwrite_frame obj keyPath value referenceObj :
  well_formed obj = true -> In keyPath (flattenKeys obj "") ->
  is_object value = false ->
  exists obj',
    setValueAtPath obj keyPath value referenceObj = Updated obj'
    /\ well_formed obj' = true
    /\ (forall prefix, flattenKeys obj' prefix = flattenKeys obj prefix)
    /\ (forall other,
           In other (flattenKeys obj "") ->
           getValueAtPath obj' other
           = if String.eqb keyPath other then Some value
             else getValueAtPath obj other).
Proof.
  intros Hwf Hin Hvalue. pose proof Hwf as Hwf'.
  apply andb_prop in Hwf' as [Hkeys Hcan].
  destruct (flattenKeys_own_segments obj Hkeys Hcan [] keyPath eq_refl Hin)
    as [parts [leaf [Hne [Hok [-> [Hw Hleaf]]]]]].
  destruct (set_parts_overwrite value parts Hvalue obj referenceObj leaf Hne Hw Hleaf)
    as [obj' [Hset Hflat]].
  exists obj'. unfold setValueAtPath, getValueAtPath. cbn [app].
  rewrite split_on_join_with; auto using forallb_segment_dot_free.
  split; [exact Hset|]. split; [|split; [exact Hflat|]].
  - now apply (set_parts_overwrite_well_formed value parts Hvalue obj referenceObj leaf).
  - intros other Hother.
    destruct (flattenKeys_own_segments obj Hkeys Hcan [] other eq_refl Hother)
      as [parts' [leaf' [Hne' [Hok' [-> [Hw' Hleaf']]]]]].
    cbn [app]. rewrite (split_on_join_with parts');
      auto using forallb_segment_dot_free.
    destruct (String.eqb (join_with "." parts) (join_with "." parts')) eqn:E.
    + apply String.eqb_eq in E. apply join_with_inj in E; auto. subst parts'.
      now apply (set_parts_walk parts obj referenceObj).
    + apply String.eqb_neq in E.
      rewrite (own_walk_walk parts' obj leaf' Hw').
      apply own_walk_walk.
      apply (set_parts_own_walk_other value parts Hvalue obj referenceObj leaf obj'
               parts' leaf' Hne Hw Hleaf Hset); auto.
      intros ->. now apply E.
Qed.

(** X11.  Applying results keeps the structure: when every result is for a
    listed key path of the well-formed target and carries a leaf, the loop
    succeeds; the target stays well-formed and lists the same key paths in
    the same order; and each listed key path holds the value of the last
    result written for it, or its former value when there is none. *)
Theorem apply_results_keeps_structure :
  forall (results : list TranslationResult) (target : JV) (reference : option JV),
    well_formed target = true ->
    (forall r, In r results ->
               In (key r) (flattenKeys target "")
               /\ is_object (translatedValue r) = false) ->
    exists target',
      apply_results target results reference = Updated target'
      /\ well_formed target' = true
      /\ (forall prefix, flattenKeys target' prefix = flattenKeys target prefix)
      /\ (forall keyPath,
             In keyPath (flattenKeys target "") ->
             getValueAtPath target' keyPath
             = match last_written keyPath results with
               | Some v => Some v
               | None => getValueAtPath target keyPath
               end).
Proof.
  intros rs. induction rs as [|r rest IH]; intros target reference Hwf Hall.
  - exists target. now repeat split.
  - destruct (Hall r (or_introl eq_refl)) as [Hkey Hleaf].
    destruct (setValueAtPath_overwrite_frame target (key r) (translatedValue r)
                reference Hwf Hkey Hleaf) as [next [Hset [Hwf' [Hflat Hframe]]]].
    destruct (IH next reference Hwf') as [target' [Happly [Hwf'' [Hflat' Hlast]]]].
    { intros r' Hr'. rewrite Hflat. apply Hall. now right. }
    exists target'. cbn [apply_results]. rewrite Hset.
    split; [exact Happly|]. split; [exact Hwf''|]. split.
    + intros prefix. now rewrite Hflat', Hflat.
    + intros keyPath Hin. rewrite Hlast by now rewrite Hflat.
      cbn [last_written]. destruct (last_written keyPath rest); [reflexivity|].
      rewrite (Hframe keyPath Hin). now destruct (String.eqb (key r) keyPath).
Qed.

Lemma apply_results_keeps_structure_witness :
  exists target',
    apply_results hero_file
      [mkResult "hero.description" "Read the docs" (JStr "Read the docs") "de";
       mkResult "hero.title" "Welcome" (JStr "Willkommen") "de";
       mkResult "hero.description" "Read the docs" (JStr "Lies die Doku") "de"]
      (Some hero_file)
    = Updated target'
    /\ getValueAtPath target' "hero.description" = Some (JStr "Lies die Doku")
    /\ flattenKeys target' "" = flattenKeys hero_file "".
Proof.
  destruct (apply_results_keeps_structure
              [mkResult "hero.description" "Read the docs" (JStr "Read the docs") "de";
               mkResult "hero.title" "Welcome" (JStr "Willkommen") "de";
               mkResult "hero.description" "Read the docs" (JStr "Lies die Doku") "de"]
              hero_file (Some hero_file) eq_refl)
    as [target' [Happly [_ [Hflat Hlast]]]].
  - intros r [<-|[<-|[<-|[]]]]; (split; [vm_compute; tauto|reflexivity]).
  - exists target'. split; [exact Happly|]. split; [|apply Hflat].
    apply (Hlast "hero.description"). vm_compute. tauto.
Defined.

(** ** Pruning the extra keys *)

Lemma well_formed_delete key props :
  well_formed (JObj props) = true ->
  well_formed
    (JObj (List.filter (fun kv => negb (String.eqb key (fst kv))) props)) = true.
Proof.
  intros Hwf. apply well_formed_object.
  - apply andb_prop in Hwf as [Hd _].
    pose proof (keys_distinct_own_keys (JObj props) Hd) as Hnd.
    unfold own_keys in Hnd. cbn [own_entries] in Hnd. clear Hd.
    induction props as [|[k x] props IH]; [constructor|].
    simpl in Hnd. inversion Hnd as [|? ? Hnot Hnd']; subst.
    cbn [List.filter fst]. destruct (negb (String.eqb key k)); [|now apply IH].
    simpl. constructor; [|now apply IH].
    intros Hin. apply Hnot. apply in_map_iff in Hin as [[k' y] [E Hin]].
    apply filter_In in Hin as [Hin _]. cbn [fst] in E. subst k'.
    now apply (in_map fst) in Hin.
  - intros k x Hin. apply filter_In in Hin as [Hin _]. split.
    + apply andb_prop in Hwf as [_ Hc].
      now destruct (keys_canonical_entry (JObj props) k x Hc Hin).
    + now apply (well_formed_child (JObj props) k x).
Qed.

Lemma remove_parts_listed parts :
  forall current leaf,
    parts <> [] -> well_formed current = true -> plain_tree current = true ->
    own_walk current parts = Some leaf -> is_object leaf = false ->
    exists current',
      remove_parts current parts = Updated current'
      /\ well_formed current' = true /\ plain_tree current' = true.
Proof.
  induction parts as [|part rest IH]; intros current leaf Hne Hwf Hplain Hw Hleaf;
    [now destruct Hne|].
  cbn [own_walk] in Hw.
  destruct (assoc part (own_entries current)) as [x|] eqn:Hassoc; [|discriminate].
  destruct current as [| | | |items|props]; try discriminate.
  cbn [own_entries] in Hassoc.
  destruct rest as [|part' rest'].
  - rewrite remove_parts_last. cbn [delete_prop]. eexists. split; [reflexivity|].
    split; [now apply well_formed_delete|].
    rewrite plain_tree_entries in *. apply forallb_forall. intros kv Hin.
    apply filter_In in Hin as [Hin _]. rewrite forallb_forall in Hplain.
    now apply Hplain.
  - assert (Hne' : part' :: rest' <> []) by discriminate.
    assert (Hx : is_object x = true).
    { destruct (is_object x) eqn:Ex; [reflexivity|].
      rewrite own_walk_leaf in Hw; [discriminate|exact Ex|exact Hne']. }
    apply assoc_Some_In in Hassoc as Hin.
    destruct (IH x leaf Hne' (well_formed_child (JObj props) part x Hwf Hin)
                (plain_tree_assoc props part x Hplain Hassoc) Hw Hleaf)
      as [x' [Hrem [Hwf' Hplain']]].
    rewrite remove_parts_cons. cbn [is_object]. unfold get_prop. cbn [own_entries].
    rewrite Hassoc.
    assert (Hty : typeof_object x = true) by now destruct x.
    rewrite Hty, Hrem. rewrite (assign_prop_own props part x x' Hassoc).
    eexists. split; [reflexivity|]. split.
    + apply (assign_prop_existing_well_formed (JObj props) part x x'); auto.
      now apply (assign_prop_own props part x).
    + now apply plain_tree_obj_assign.
Qed.

Lemma filter_filter_keys (keyPath : string) (rest l : list string) :
  List.filter (fun k => negb (existsb (String.eqb k) rest))
    (List.filter (fun k => negb (String.eqb k keyPath)) l)
  = List.filter (fun k => negb (existsb (String.eqb k) (keyPath :: rest))) l.
Proof.
  induction l as [|k l IH]; [reflexivity|]. cbn [List.filter existsb].
  destruct (String.eqb k keyPath); cbn [negb orb List.filter]; [exact IH|].
  destruct (negb (existsb (String.eqb k) rest)); now rewrite IH.
Qed.

Lemma remove_keys_listed keyPaths :
  forall target,
    well_formed target = true -> plain_tree target = true ->
    List.NoDup keyPaths ->
    (forall k, In k keyPaths -> In k (flattenKeys target "")) ->
    exists pruned,
      remove_keys target keyPaths = Updated pruned
      /\ well_formed pruned = true /\ plain_tree pruned = true
      /\ flattenKeys pruned ""
         = List.filter (fun k => negb (existsb (String.eqb k) keyPaths))
             (flattenKeys target "").
Proof.
  induction keyPaths as [|keyPath rest IH]; intros target Hwf Hplain Hnd Hall.
  - exists target. repeat split; auto. symmetry. now apply filter_all.
  - inversion Hnd as [|? ? Hnot Hnd']; subst.
    pose proof (Hall keyPath (or_introl eq_refl)) as Hin.
    pose proof Hwf as Hwf0. apply andb_prop in Hwf0 as [Hkeys Hcan].
    destruct (flattenKeys_own_segments target Hkeys Hcan [] keyPath eq_refl Hin)
      as [parts [leaf [Hne [Hok [E [Hw Hleaf]]]]]].
    cbn [app] in E.
    destruct (remove_parts_listed parts target leaf Hne Hwf Hplain Hw Hleaf)
      as [next [Hrem [Hwf' Hplain']]].
    assert (Hremove : removeKeyAtPath target keyPath = Updated next).
    { unfold removeKeyAtPath. rewrite E.
      rewrite split_on_join_with; auto using forallb_segment_dot_free. }
    destruct (remove_parts_flattenKeys parts target next [] leaf Hne Hkeys Hcan eq_refl
                Hw Hleaf Hrem) as [before [after [Eb Ea]]].
    cbn [app join_with] in Eb, Ea. rewrite <- E in Eb.
    pose proof (flattenKeys_NoDup_from target Hkeys Hcan [] eq_refl) as Hnodup.
    cbn [join_with] in Hnodup. rewrite Eb in Hnodup.
    assert (Hnext : flattenKeys next ""
                    = List.filter (fun k => negb (String.eqb k keyPath))
                        (flattenKeys target "")).
    { rewrite Ea, Eb. symmetry. now apply filter_remove_NoDup. }
    destruct (IH next Hwf' Hplain' Hnd') as [pruned [Hkeys' [Hwf'' [Hplain'' Hflat]]]].
    { intros k Hk. rewrite Hnext. apply filter_In. split; [apply Hall; now right|].
      apply negb_true_iff. apply String.eqb_neq. intros ->. contradiction. }
    exists pruned. cbn [remove_keys]. rewrite Hremove.
    split; [exact Hkeys'|]. split; [exact Hwf''|]. split; [exact Hplain''|].
    rewrite Hflat, Hnext. apply filter_filter_keys.
Qed.

Lemma well_formed_cons_inv key value props :
  well_formed (JObj ((key, value) :: props)) = true ->
  ~ In key (map fst props) /\ segment_ok key = true
  /\ well_formed value = true /\ well_formed (JObj props) = true.
Proof.
  intros Hwf. pose proof Hwf as Hwf0. apply andb_prop in Hwf0 as [Hd Hc].
  pose proof (keys_distinct_own_keys _ Hd) as Hnd.
  unfold own_keys in Hnd. cbn [own_entries map fst] in Hnd.
  inversion Hnd as [|? ? Hnot Hnd']; subst.
  destruct (keys_canonical_entry _ key value Hc (or_introl eq_refl)) as [Hk _].
  split; [exact Hnot|]. split; [exact Hk|]. split.
  - apply (well_formed_child _ key value Hwf). now left.
  - apply well_formed_object; [exact Hnd'|]. intros k x Hin. split.
    + now destruct (keys_canonical_entry _ k x Hc (or_intror Hin)).
    + apply (well_formed_child _ k x Hwf). now right.
Qed.

Lemma clean_visit_well_formed x v' :
  (forall r, cleanEmptyObjects x = CleanTo r -> well_formed r = true) ->
  well_formed x = true ->
  clean_visit cleanEmptyObjects x = Some (CleanTo v') ->
  well_formed v' = true.
Proof.
  intros IH Hwf. unfold clean_visit. destruct (is_object x).
  - destruct (cleanEmptyObjects x) as [r| |] eqn:E; try discriminate.
    destruct (own_entries r); [discriminate|]. intros [= <-]. now apply IH.
  - now intros [= <-].
Qed.

Lemma cleanEmptyObjects_object_well_formed props :
  Forall (fun kv =>
            well_formed (snd kv) = true ->
            forall r, cleanEmptyObjects (snd kv) = CleanTo r -> well_formed r = true)
    props ->
  well_formed (JObj props) = true ->
  forall r,
    cleanEmptyObjects (JObj props) = CleanTo r ->
    exists kept,
      r = JObj kept
      /\ (forall k, In k (map fst kept) -> In k (map fst props))
      /\ well_formed (JObj kept) = true.
Proof.
  induction props as [|[key value] props IHprops]; intros IH Hwf r.
  - intros [= <-]. now exists [].
  - inversion IH as [|? ? Hvalue Hrest]; subst. cbn [snd] in Hvalue.
    destruct (well_formed_cons_inv key value props Hwf) as (Hnot & Hk & Hv & Hp).
    rewrite cleanEmptyObjects_cons.
    destruct (clean_visit cleanEmptyObjects value) as [[v'| |]|] eqn:Ev;
      destruct (cleanEmptyObjects (JObj props)) as [r0| |] eqn:Er; try discriminate;
      try (destruct r0; discriminate).
    + destruct (IHprops Hrest Hp r0 eq_refl) as [kept [-> [Hincl Hkept]]].
      intros [= <-]. exists ((key, v') :: kept). split; [reflexivity|]. split.
      * intros k [<-|Hin]; [now left|right; now apply Hincl].
      * apply well_formed_object.
        -- cbn [map fst]. constructor.
           ++ intros Hin. apply Hnot. now apply Hincl.
           ++ apply andb_prop in Hkept as [Hd _].
              now apply (keys_distinct_own_keys (JObj kept)).
        -- intros k x [E|Hin].
           ++ injection E as <- <-. split; [exact Hk|].
              now apply (clean_visit_well_formed value v' (Hvalue Hv) Hv).
           ++ split.
              ** apply andb_prop in Hkept as [_ Hc].
                 now destruct (keys_canonical_entry (JObj kept) k x Hc Hin).
              ** now apply (well_formed_child (JObj kept) k x).
    + destruct (IHprops Hrest Hp r0 eq_refl) as [kept [-> [Hincl Hkept]]].
      intros [= <-]. exists kept. split; [reflexivity|]. split; [|exact Hkept].
      intros k Hin. right. now apply Hincl.
Qed.

Lemma cleanEmptyObjects_plain_well_formed :
  forall v,
    plain_tree v = true -> well_formed v = true ->
    forall r, cleanEmptyObjects v = CleanTo r -> well_formed r = true.
Proof.
  induction v as [| | | |items IH|props IH] using JV_ind; intros Hplain Hwf r;
    try (intros [= <-]; reflexivity); try discriminate.
  intros Hclean.
  assert (IH' : Forall (fun kv =>
                          well_formed (snd kv) = true ->
                          forall r0, cleanEmptyObjects (snd kv) = CleanTo r0 ->
                                     well_formed r0 = true) props).
  { rewrite plain_tree_entries in Hplain. rewrite forallb_forall in Hplain.
    rewrite List.Forall_forall in *. intros kv Hin Hkv r0.
    apply (IH kv Hin); [now apply Hplain|exact Hkv]. }
  destruct (cleanEmptyObjects_object_well_formed props IH' Hwf r Hclean)
    as [kept [-> [_ Hkept]]].
  exact Hkept.
Qed.

(** A plain container that holds no empty container lists a key path. *)
Lemma flattenKeys_nonempty :
  forall c,
    plain_tree c = true -> no_empty_values c = true ->
    is_object c = true -> is_empty_container c = false ->
    forall prefix, flattenKeys c prefix <> [].
Proof.
  induction c as [| | | |items IH|props IH] using JV_ind;
    intros Hplain Hne Hobj Hnot prefix; try discriminate.
  destruct props as [|[k x] props]; [discriminate|].
  inversion IH as [|? ? Hx _]; subst. cbn [snd] in Hx.
  rewrite plain_tree_entries in Hplain. cbn [forallb snd] in Hplain.
  apply andb_prop in Hplain as [Hpx _].
  rewrite no_empty_values_object in Hne. cbn [forallb snd] in Hne.
  apply andb_prop in Hne as [Hnx _]. apply andb_prop in Hnx as [Hnotx Hnex].
  apply negb_true_iff in Hnotx.
  rewrite flattenKeys_entries. cbn [own_entries flat_map fst snd].
  unfold flatten_visit. destruct (is_object x) eqn:Ex.
  - specialize (Hx Hpx Hnex eq_refl Hnotx (join_path prefix k)).
    destruct (flattenKeys x (join_path prefix k)); [congruence|discriminate].
  - discriminate.
Qed.

(** A key path listed under a key of the content and listed by the source
    is listed under the same key of the source. *)
Lemma flatten_visit_same_key source content pp k c q :
  well_formed source = true -> well_formed content = true ->
  forallb segment_ok pp = true ->
  In (k, c) (own_entries content) ->
  In q (flatten_visit flattenKeys (join_with "." pp) k c) ->
  In q (flattenKeys source (join_with "." pp)) ->
  exists sv,
    In (k, sv) (own_entries source)
    /\ In q (flatten_visit flattenKeys (join_with "." pp) k sv).
Proof.
  intros Hs Hc Hpp Hkc Hq Hsource.
  pose proof Hs as Hs0. apply andb_prop in Hs0 as [Hsk Hsc].
  pose proof Hc as Hc0. apply andb_prop in Hc0 as [Hck Hcc].
  rewrite flattenKeys_entries in Hsource.
  apply in_flat_map in Hsource as [[k' sv] [Hin Hq']]. cbn [fst snd] in Hq'.
  destruct (flatten_visit_through_key content k c pp q Hck Hcc Hkc Hpp Hq)
    as [parts [Hok E]].
  destruct (flatten_visit_through_key source k' sv pp q Hsk Hsc Hin Hpp Hq')
    as [parts' [Hok' E']].
  destruct (keys_canonical_entry content k c Hcc Hkc) as [Hk _].
  destruct (keys_canonical_entry source k' sv Hsc Hin) as [Hk' _].
  assert (Hsame : pp ++ k :: parts = pp ++ k' :: parts').
  { apply join_with_inj.
    - now destruct pp.
    - now destruct pp.
    - rewrite forallb_app, Hpp. simpl. now rewrite Hk, Hok.
    - rewrite forallb_app, Hpp. simpl. now rewrite Hk', Hok'.
    - now rewrite <- E, <- E'. }
  apply app_inv_head in Hsame. injection Hsame as -> _.
  now exists sv.
Qed.

(** A content that lists only key paths of the source, and holds no
    empty container, agrees with the source in shape. *)
Lemma shapes_agree_listed :
  forall source,
    well_formed source = true ->
    forall content pp,
      well_formed content = true -> plain_tree content = true ->
      no_empty_values content = true ->
      forallb segment_ok pp = true ->
      (forall q, In q (flattenKeys content (join_with "." pp)) ->
                 In q (flattenKeys source (join_with "." pp))) ->
      shapes_agree source content = true.
Proof.
  induction source as [source IH] using JV_entries_ind.
  intros Hs content pp Hc Hplain Hne Hpp Hsub.
  rewrite shapes_agree_entries. apply forallb_forall. intros [k sv] Hin.
  cbn [fst snd].
  pose proof Hs as Hs0. apply andb_prop in Hs0 as [Hsk Hsc].
  destruct (keys_canonical_entry source k sv Hsc Hin) as [Hk _].
  assert (Hpp' : forallb segment_ok (pp ++ [k]) = true).
  { rewrite forallb_app, Hpp. simpl. now rewrite Hk. }
  destruct (get_prop content k) as [c|] eqn:Hget;
    [|now destruct sv].
  destruct content as [| | | |citems|cprops]; try discriminate.
  unfold get_prop in Hget. cbn [own_entries] in Hget.
  destruct (assoc k cprops) as [c'|] eqn:Hassoc; [|discriminate].
  injection Hget as ->. apply assoc_Some_In in Hassoc as Hkc.
  pose proof (plain_tree_assoc cprops k c Hplain Hassoc) as Hcplain.
  pose proof (well_formed_child (JObj cprops) k c Hc Hkc) as Hcwf.
  assert (Hcne : is_empty_container c = false /\ no_empty_values c = true).
  { rewrite no_empty_values_object in Hne. rewrite forallb_forall in Hne.
    specialize (Hne (k, c) Hkc). cbn [snd] in Hne.
    apply andb_prop in Hne as [H1 H2]. now apply negb_true_iff in H1. }
  destruct Hcne as [Hcnot Hcne].
  assert (Hunder : forall q,
             In q (flatten_visit flattenKeys (join_with "." pp) k c) ->
             In q (flatten_visit flattenKeys (join_with "." pp) k sv)).
  { intros q Hq.
    assert (Hq' : In q (flattenKeys (JObj cprops) (join_with "." pp))).
    { rewrite flattenKeys_entries. apply in_flat_map. now exists (k, c). }
    destruct (flatten_visit_same_key source (JObj cprops) pp k c q Hs Hc Hpp Hkc Hq
                (Hsub q Hq')) as [sv' [Hin' Hq'']].
    assert (sv' = sv) as ->; [|exact Hq''].
    pose proof (keys_distinct_own_keys source Hsk) as Hnd.
    pose proof (assoc_In_NoDup _ k sv Hnd Hin) as E1.
    pose proof (assoc_In_NoDup _ k sv' Hnd Hin') as E2. congruence. }
  unfold flatten_visit in Hunder. rewrite (join_path_join_with pp k Hpp) in Hunder.
  destruct (is_object c) eqn:Ec.
  - assert (Hsome : exists q, In q (flattenKeys c (join_with "." (pp ++ [k])))).
    { pose proof (flattenKeys_nonempty c Hcplain Hcne Ec Hcnot
                    (join_with "." (pp ++ [k]))) as Hn.
      destruct (flattenKeys c (join_with "." (pp ++ [k]))) as [|q l];
        [congruence|]. exists q. now left. }
    destruct (is_object sv) eqn:Es.
    + destruct c as [| | | |citems'|cprops']; try discriminate.
      destruct sv as [| | | |sitems|sprops]; try discriminate; cbn [agree_value];
        [reflexivity|].
      apply (IH k (JObj sprops) Hin (well_formed_child source k _ Hs Hin)
               (JObj cprops') (pp ++ [k])); auto.
    + exfalso. destruct Hsome as [q Hq]. specialize (Hunder q Hq).
      destruct Hunder as [E|[]].
      apply andb_prop in Hcwf as [Hck Hcc].
      destruct (flattenKeys_own_segments c Hck Hcc (pp ++ [k]) q Hpp' Hq)
        as [parts [leaf [Hparts [Hok [Eq _]]]]].
      rewrite <- E in Eq. apply join_with_inj in Eq.
      * rewrite <- (app_nil_r (pp ++ [k])) in Eq at 1.
        apply app_inv_head in Eq. now subst parts.
      * now destruct pp.
      * now destruct pp.
      * exact Hpp'.
      * rewrite forallb_app, Hpp'. exact Hok.
  - destruct sv as [| | | |sitems|sprops]; cbn [agree_value]; try (now rewrite Ec);
      now destruct c.
Qed.

Lemma own_names_object props :
  own_names (JObj props)
  = forallb (fun kv => negb (inherited_name (fst kv)) && own_names (snd kv)) props.
Proof.
  simpl. induction props as [|[k x] props IH]; simpl; [reflexivity|].
  now rewrite IH.
Qed.

(** In a mapping without inherited names, no flattened key path begins
    with an inherited name. *)
Lemma flattenKeys_first_segment props keyPath :
  well_formed (JObj props) = true -> own_names (JObj props) = true ->
  In keyPath (flattenKeys (JObj props) "") ->
  inherited_name (List.hd "" (split_on dot keyPath)) = false.
Proof.
  intros Hwf Hown Hin. apply andb_prop in Hwf as [Hkeys Hcan].
  destruct (flattenKeys_own_segments (JObj props) Hkeys Hcan [] keyPath eq_refl Hin)
    as [parts [leaf [Hne [Hok [-> [Hw _]]]]]].
  cbn [app]. rewrite split_on_join_with; auto using forallb_segment_dot_free.
  destruct parts as [|k rest]; [now destruct Hne|]. cbn [List.hd].
  cbn [own_walk own_entries] in Hw.
  destruct (assoc k props) as [x|] eqn:E; [|discriminate].
  apply assoc_Some_In in E. rewrite own_names_object in Hown.
  rewrite forallb_forall in Hown. specialize (Hown (k, x) E). cbn [fst snd] in Hown.
  apply andb_prop in Hown as [Hk _]. now apply negb_true_iff in Hk.
Qed.

(** The grouping for display does not throw on key paths of a mapping
    without inherited names. *)
Lemma grouping_throws_own_names props keyPaths :
  well_formed (JObj props) = true -> own_names (JObj props) = true ->
  (forall k, In k keyPaths -> In k (flattenKeys (JObj props) "")) ->
  grouping_throws keyPaths = false.
Proof.
  intros Hwf Hown Hsub. unfold grouping_throws.
  apply not_true_iff_false. intros Hex.
  apply existsb_exists in Hex as [k [Hk Hob]].
  pose proof (flattenKeys_first_segment props k Hwf Hown (Hsub k Hk)) as Hinh.
  unfold inherited_name in Hinh. rewrite Hob in Hinh. discriminate Hinh.
Qed.

(** X16.  The command [prune] on two well-formed containers without
    inherited names among their keys, the target a tree of plain mappings:
    either the target has no extra key and nothing is saved, or the
    grouping, the removals and the cleaning succeed, what is left of the
    target lists exactly the key paths of the target that the source
    lists, in their order and without an empty container, and the saved
    file lists exactly the key paths of the source, in the order of the
    source. *)
Theorem prune_saves_source_keys :
  forall source target : JV,
    is_object source = true -> is_object target = true ->
    own_names source = true -> own_names target = true ->
    well_formed source = true -> well_formed target = true ->
    plain_tree target = true ->
    (extraInTarget (compareTranslations source target) = []
     /\ prune source target = NoExtraKeys)
    \/ exists cleaned,
         prune source target = Saved (reorderToMatchSource source cleaned)
         /\ flattenKeys cleaned ""
            = List.filter (fun k => has (key_set (flattenKeys source "")) k)
                (flattenKeys target "")
         /\ no_empty_values cleaned = true
         /\ forall prefix,
              flattenKeys (reorderToMatchSource source cleaned) prefix
              = flattenKeys source prefix.
Proof.
  intros source target _ Hobj _ Hown Hs Ht Hplain. unfold prune.
  set (extra := extraInTarget (compareTranslations source target)).
  assert (Hextra : extra
                   = List.filter
                       (fun k => negb (has (key_set (flattenKeys source "")) k))
                       (flattenKeys target "")) by reflexivity.
  assert (Hgroup : grouping_throws extra = false).
  { destruct target as [| | | |titems|tprops]; try discriminate.
    apply (grouping_throws_own_names tprops); [exact Ht|exact Hown|].
    intros k Hk. rewrite Hextra in Hk. now apply filter_In in Hk as [Hk _]. }
  pose proof Ht as Ht0. apply andb_prop in Ht0 as [Htk Htc].
  pose proof (flattenKeys_NoDup_from target Htk Htc [] eq_refl) as Hnodup.
  cbn [join_with] in Hnodup.
  destruct (remove_keys_listed extra target Ht Hplain) as [pruned [Hrem [Hwf [Hpl Hflat]]]].
  { rewrite Hextra. now apply List.NoDup_filter. }
  { intros k Hk. rewrite Hextra in Hk. now apply filter_In in Hk as [Hk _]. }
  destruct extra as [|k0 rest] eqn:Ee; [left; now split|right].
  rewrite <- Ee in *. rewrite Hgroup, Hrem.
  destruct (cleanEmptyObjects_plain pruned Hpl) as [cleaned [Hclean Hcpl]].
  rewrite Hclean. exists cleaned. split; [reflexivity|].
  destruct (proj1 (cleanEmptyObjects_invariant pruned) cleaned Hclean)
    as [Hcflat [_ Hcne]].
  pose proof (cleanEmptyObjects_plain_well_formed pruned Hpl Hwf cleaned Hclean) as Hcwf.
  assert (Hkept : flattenKeys cleaned ""
                  = List.filter (fun k => has (key_set (flattenKeys source "")) k)
                      (flattenKeys target "")).
  { rewrite Hcflat, Hflat. apply filter_ext_in. intros k Hk.
    destruct (has (key_set (flattenKeys source "")) k) eqn:Eh.
    - apply negb_true_iff. destruct (existsb (String.eqb k) extra) eqn:Ex;
        [|reflexivity].
      apply existsb_exists in Ex as [k' [Hk' E]]. apply String.eqb_eq in E. subst k'.
      rewrite Hextra in Hk'. apply filter_In in Hk' as [_ Hk'].
      rewrite Eh in Hk'. discriminate.
    - apply negb_false_iff. apply existsb_exists. exists k.
      split; [|apply String.eqb_refl]. rewrite Hextra. apply filter_In.
      split; [exact Hk|]. now rewrite Eh. }
  split; [exact Hkept|]. split; [exact Hcne|].
  intros prefix.
  apply (proj1 (flattenKeys_reorderToMatchSource_agree_both source) cleaned prefix).
  apply (shapes_agree_listed source Hs cleaned [] Hcwf Hcpl Hcne eq_refl).
  intros q Hq. cbn [join_with] in Hq. rewrite Hkept in Hq.
  apply filter_In in Hq as [_ Hq]. now apply has_key_set_In in Hq.
Qed.

Lemma prune_saves_source_keys_witness :
  prune (JObj [("a", JStr "x"); ("b", JObj [("c", JStr "y")])])
    (JObj [("b", JObj [("old", JStr "weg")]); ("a", JStr "u"); ("z", JStr "extra")])
  = Saved (JObj [("a", JStr "u"); ("b", JObj [("c", JStr "y")])]).
Proof.
  destruct (prune_saves_source_keys
              (JObj [("a", JStr "x"); ("b", JObj [("c", JStr "y")])])
              (JObj [("b", JObj [("old", JStr "weg")]); ("a", JStr "u");
                     ("z", JStr "extra")])
              eq_refl eq_refl eq_refl eq_refl eq_refl eq_refl eq_refl)
    as [[Hnone _]|[cleaned [Hsave _]]].
  - discriminate Hnone.
  - reflexivity.
Defined.

(** ** Examples from existing translations *)







Lemma map_set_fresh key value entries :
  ~ In key (map fst entries) -> map_set key value entries = entries ++ [(key, value)].
Proof.
  induction entries as [|[k v] entries IH]; [reflexivity|]. cbn [map fst map_set].
  intros Hnot. destruct (String.eqb key k) eqn:E.
  - apply String.eqb_eq in E. subst k. destruct Hnot. now left.
  - rewrite IH; [reflexivity|]. intros Hin. apply Hnot. now right.
Qed.

Lemma map_get_app key entries entries' :
  map_get key (entries ++ entries')
  = match map_get key entries with
    | Some v => Some v
    | None => map_get key entries'
    end.
Proof.
  induction entries as [|[k v] entries IH]; [reflexivity|]. cbn [app map_get].
  now destruct (String.eqb key k).
Qed.

(** The entry of the index for one key, if any. *)
Lemma pair_visit_fresh englishFile targetFile index key :
  ~ In key (map fst index) ->
  pair_visit englishFile targetFile index key
  = index ++ pair_visit englishFile targetFile [] key
  /\ forall k, In k (map fst (pair_visit englishFile targetFile [] key)) -> k = key.
Proof.
  intros Hnot. unfold pair_visit.
  destruct (getValueAtPath englishFile key) as [[| | |eng| |]|];
    try (rewrite app_nil_r; split; [reflexivity|intros k []]).
  destruct (getValueAtPath targetFile key) as [[| | |tgt| |]|];
    try (rewrite app_nil_r; split; [reflexivity|intros k []]).
  destruct (String.eqb eng tgt);
    [rewrite app_nil_r; split; [reflexivity|intros k []]|].
  split; [now apply map_set_fresh|]. intros k [<-|[]]. reflexivity.
Qed.

Lemma fold_pair_visit englishFile targetFile keys :
  List.NoDup keys ->
  forall index,
    (forall k, In k keys -> ~ In k (map fst index)) ->
    fold_left (pair_visit englishFile targetFile) keys index
    = index ++ flat_map (pair_visit englishFile targetFile []) keys.
Proof.
  induction 1 as [|key keys Hnot Hnd IH]; intros index Hfresh.
  - simpl. now rewrite app_nil_r.
  - cbn [fold_left flat_map].
    destruct (pair_visit_fresh englishFile targetFile index key
                (Hfresh key (or_introl eq_refl))) as [-> Hkeys].
    rewrite IH; [now rewrite <- app_assoc|].
    intros k Hk Hin. rewrite map_app in Hin. apply in_app_or in Hin as [Hin|Hin].
    + apply (Hfresh k); [now right|exact Hin].
    + apply Hkeys in Hin. now subst k.
Qed.

(** X29.  The index of a well-formed source file holds one entry per key path
    of the source at which both files hold a string and the two strings
    differ, in the order of the source; a lookup finds the pair of the two
    strings under such a key path and nothing under any other. *)
Theorem buildTranslationPairIndex_entries :
  forall englishFile targetFile : JV,
    well_formed englishFile = true ->
    buildTranslationPairIndex englishFile targetFile
    = flat_map (pair_visit englishFile targetFile []) (flattenKeys englishFile "")
    /\ forall key pair,
         map_get key (buildTranslationPairIndex englishFile targetFile) = Some pair
         <-> In key (flattenKeys englishFile "")
             /\ exists eng tgt,
                  getValueAtPath englishFile key = Some (JStr eng)
                  /\ getValueAtPath targetFile key = Some (JStr tgt)
                  /\ eng <> tgt /\ pair = mkPair eng tgt key.
Proof.
  intros englishFile targetFile Hwf. apply andb_prop in Hwf as [Hkeys Hcan].
  pose proof (flattenKeys_NoDup_from englishFile Hkeys Hcan [] eq_refl) as Hnd.
  cbn [join_with] in Hnd.
  assert (E : buildTranslationPairIndex englishFile targetFile
              = flat_map (pair_visit englishFile targetFile [])
                  (flattenKeys englishFile "")).
  { unfold buildTranslationPairIndex.
    now rewrite (fold_pair_visit englishFile targetFile _ Hnd []). }
  split; [exact E|]. rewrite E. clear E Hnd.
  intros key pair. induction (flattenKeys englishFile "") as [|k keys IH].
  - split; [discriminate|intros [[] _]].
  - cbn [flat_map]. rewrite map_get_app.
    assert (Hhead : forall p,
               map_get key (pair_visit englishFile targetFile [] k) = Some p <->
               k = key
               /\ exists eng tgt,
                    getValueAtPath englishFile key = Some (JStr eng)
                    /\ getValueAtPath targetFile key = Some (JStr tgt)
                    /\ eng <> tgt /\ p = mkPair eng tgt key).
    { intros p. unfold pair_visit. split.
      - destruct (getValueAtPath englishFile k) as [[| | |eng| |]|] eqn:Ee;
          try discriminate.
        destruct (getValueAtPath targetFile k) as [[| | |tgt| |]|] eqn:Et;
          try discriminate.
        destruct (String.eqb eng tgt) eqn:Eq; [discriminate|].
        cbn [map_set map_get]. destruct (String.eqb key k) eqn:Ek; [|discriminate].
        apply String.eqb_eq in Ek. subst k. intros [= <-]. split; [reflexivity|].
        exists eng, tgt. repeat split; auto. now apply String.eqb_neq.
      - intros [-> [eng [tgt (Ee & Et & Hne & ->)]]]. rewrite Ee, Et.
        apply String.eqb_neq in Hne. rewrite Hne. cbn [map_set map_get].
        now rewrite String.eqb_refl. }
    destruct (map_get key (pair_visit englishFile targetFile [] k)) as [p|] eqn:Ep.
    + destruct (proj1 (Hhead p) eq_refl) as [-> Hex]. split.
      * intros [= <-]. split; [now left|exact Hex].
      * intros [_ [eng [tgt (Ee & Et & Hne & ->)]]].
        destruct Hex as [eng' [tgt' (Ee' & Et' & _ & ->)]]. congruence.
    + rewrite IH. split.
      * intros [Hin Hex]. split; [now right|exact Hex].
      * intros [[->|Hin] Hex]; [|now split].
        destruct Hex as [eng [tgt (Ee & Et & Hne & ->)]].
        assert (Hsome : None = Some (mkPair eng tgt key)).
        { apply Hhead. split; [reflexivity|]. now exists eng, tgt. }
        discriminate.
Qed.

Lemma buildTranslationPairIndex_entries_witness :
  buildTranslationPairIndex hero_file
    (JObj [("hero", JObj [("title", JStr "Willkommen");
                          ("description", JStr "Read the docs")])])
  = [("hero.title", mkPair "Welcome" "Willkommen" "hero.title")].
Proof.
  exact (proj1 (buildTranslationPairIndex_entries hero_file
                  (JObj [("hero", JObj [("title", JStr "Willkommen");
                                        ("description", JStr "Read the docs")])])
                  eq_refl)).
Defined.
